(** * zenodb: expression states, radix memstore, row store and file store

    A shallow embedding of the parts of zenodb that its specification
    makes claims about, and the proofs of those claims.

    Conventions of the embedding:
    - a Go [int], [uint16], [uint64] or [int64] is a [Z]; the wrap-around of
      a fixed-width conversion is written out with [mod];
    - a Go [[]byte] is a [list byte]; a nil slice and an empty slice are both
      the empty list (the code below never tells an allocated empty slice
      from nil);
    - a Go [float64] is kept as its 64 bits, the way [math.Float64bits] shows
      it, and arithmetic on it is IEEE-754 binary64 arithmetic;
    - a Go function that may panic returns in the [go] monad. *)

From Stdlib Require Import ZArith List Lia Bool Floats.
From Stdlib.Strings Require Import Byte Ascii String.
From stdpp Require Import base option list strings gmap.

Local Open Scope Z_scope.

(** ** Outcomes of Go code: a value, or a run-time panic *)

Inductive go (A : Type) : Type :=
| Done (a : A)
| Panic (msg : string).
Arguments Done {A} a.
Arguments Panic {A} msg.

#[global] Instance go_ret : MRet go := fun A a => Done a.
#[global] Instance go_bind : MBind go := fun A B f m =>
  match m with
  | Done a => f a
  | Panic msg => Panic msg
  end.

#[global] Instance go_fmap : FMap go := fun A B f m =>
  match m with
  | Done a => Done (f a)
  | Panic msg => Panic msg
  end.

Definition is_Done {A} (m : go A) : Prop := exists a, m = Done a.

(** ** Bytes and fixed-width integers *)

#[global] Instance byte_eq_dec : EqDecision byte := Byte.byte_eq_dec.

Module bytes.

Definition to_Z (b : byte) : Z := Z.of_N (Byte.to_N b).

Definition of_Z (z : Z) : byte :=
  match Byte.of_N (Z.to_N (z mod 256)) with
  | Some b => b
  | None => Byte.x00
  end.

(** [s[i:]] and [s[:i]]; Go panics when the bound is out of range. *)
Definition from (i : Z) (s : list byte) : go (list byte) :=
  if (0 <=? i) && (Z.to_nat i <=? length s)%nat
  then Done (drop (Z.to_nat i) s)
  else Panic "slice bounds out of range".

Definition upto (i : Z) (s : list byte) : go (list byte) :=
  if (0 <=? i) && (Z.to_nat i <=? length s)%nat
  then Done (take (Z.to_nat i) s)
  else Panic "slice bounds out of range".

(** [s[i]] *)
Definition at_ (i : Z) (s : list byte) : go byte :=
  if 0 <=? i then
    match s !! Z.to_nat i with
    | Some b => Done b
    | None => Panic "index out of range"
    end
  else Panic "index out of range".

(** [make([]byte, n)] *)
Definition make (n : Z) : list byte := replicate (Z.to_nat n) Byte.x00.

(** Little-endian digits. *)
Fixpoint le_bytes (n : nat) (z : Z) : list byte :=
  match n with
  | O => []
  | S n' => of_Z z :: le_bytes n' (z / 256)
  end.

Fixpoint le_value (bs : list byte) : Z :=
  match bs with
  | [] => 0
  | b :: bs' => to_Z b + 256 * le_value bs'
  end.

End bytes.

(** Modelled from the spec: [binaryEncoding] and the width constants are
    declared in a file that is not among the sources; the specification
    fixes all multi-byte integers as little-endian, and the widths are those
    of 16 and 64 bits. *)
Module binaryEncoding.

Definition width16bits : Z := 2.
Definition width64bits : Z := 8.

(** [binaryEncoding.PutUint64(b, v)]: writes 8 bytes at the front of [b]. *)
Definition PutUint64 (b : list byte) (v : Z) : go (list byte) :=
  if (8 <=? length b)%nat
  then Done (bytes.le_bytes 8 v ++ drop 8 b)
  else Panic "index out of range".

(** [binaryEncoding.Uint64(b)] *)
Definition Uint64 (b : list byte) : go Z :=
  if (8 <=? length b)%nat
  then Done (bytes.le_value (take 8 b))
  else Panic "index out of range".

Definition PutUint16 (b : list byte) (v : Z) : go (list byte) :=
  if (2 <=? length b)%nat
  then Done (bytes.le_bytes 2 v ++ drop 2 b)
  else Panic "index out of range".

Definition Uint16 (b : list byte) : go Z :=
  if (2 <=? length b)%nat
  then Done (bytes.le_value (take 2 b))
  else Panic "index out of range".

End binaryEncoding.

(** ** Go library functions used by the row store *)

Module golib.

(** [strings.Split(s, sep)] for a separator of one character. *)
Fixpoint Split (s : string) (sep : ascii) : list string :=
  match s with
  | EmptyString => [EmptyString]
  | String a s' =>
      if bool_decide (a = sep) then EmptyString :: Split s' sep
      else match Split s' sep with
           | x :: xs => String a x :: xs
           | [] => [String a EmptyString]
           end
  end.

(** [strings.Join(elems, sep)] *)
Fixpoint Join (elems : list string) (sep : string) : string :=
  match elems with
  | [] => EmptyString
  | [x] => x
  | x :: xs => x +:+ sep +:+ Join xs sep
  end.

(** [filepath.Base(path)] for a path that does not end in a separator. *)
Definition Base (path : string) : string :=
  List.last (Split path "/") EmptyString.

Definition digit (a : ascii) : option Z :=
  let n := Z.of_N (Ascii.N_of_ascii a) in
  if (48 <=? n) && (n <=? 57) then Some (n - 48) else None.

Fixpoint digits (s : string) (acc : Z) : option Z :=
  match s with
  | EmptyString => Some acc
  | String a s' => d ← digit a; digits s' (10 * acc + d)
  end.

(** [strconv.Atoi(s)]: the value, and whether there was an error; the value
    is 0 when the syntax is wrong. *)
Definition Atoi (s : string) : Z * bool :=
  match s with
  | EmptyString => (0, true)
  | String a s' =>
      let '(sign, body) :=
        if bool_decide (a = "-"%char) then (-1, s')
        else if bool_decide (a = "+"%char) then (1, s')
        else (1, s) in
      match body with
      | EmptyString => (0, true)
      | _ => match digits body 0 with
             | Some v => (sign * v, false)
             | None => (0, true)
             end
      end
  end.

(** A reader over the bytes that are left, [io.ReadFull] and the
    [binary.Read] of an unsigned integer of [n] bytes. *)
Inductive readResult (A : Type) : Type :=
| ReadOk (a : A) (rest : list byte)
| EOF
| ErrUnexpectedEOF.
Arguments ReadOk {A} a rest.
Arguments EOF {A}.
Arguments ErrUnexpectedEOF {A}.

Definition ReadFull (r : list byte) (n : nat) : readResult (list byte) :=
  if (n =? 0)%nat then ReadOk [] r
  else if (n <=? length r)%nat then ReadOk (take n r) (drop n r)
  else if (length r =? 0)%nat then EOF
  else ErrUnexpectedEOF.

Definition ReadUint (r : list byte) (n : nat) : readResult Z :=
  match ReadFull r n with
  | ReadOk bs rest => ReadOk (bytes.le_value bs) rest
  | EOF => EOF
  | ErrUnexpectedEOF => ErrUnexpectedEOF
  end.

(** [int(v)] for a [uint64] [v]. *)
Definition int_of_uint64 (v : Z) : Z :=
  if v <? 2 ^ 63 then v else v - 2 ^ 64.

End golib.

(** ** float64

    A [float64] is its IEEE-754 binary64 bit pattern, so that
    [math.Float64bits] and [math.Float64frombits] are the casts they are in
    Go. The arithmetic decodes the operands into the primitive binary64
    floats of the standard library, operates there, and encodes the result;
    a NaN result is encoded as the quiet NaN of [math.NaN()] (Go leaves the
    payload of a computed NaN to the hardware). *)

Module f64.

Definition float64 := Z.

Definition decode (u : Z) : float :=
  let s := Z.testbit u 63 in
  let e := (u / 2 ^ 52) mod 2 ^ 11 in
  let m := u mod 2 ^ 52 in
  SF2Prim
    (if e =? 0 then
       if m =? 0 then S754_zero s else S754_finite s (Z.to_pos m) (-1074)
     else if e =? 2047 then
       if m =? 0 then S754_infinity s else S754_nan
     else S754_finite s (Z.to_pos (m + 2 ^ 52)) (e - 1075)).

Definition sign_bit (s : bool) : Z := if s then 2 ^ 63 else 0.

Definition encode (f : float) : Z :=
  match Prim2SF f with
  | S754_zero s => sign_bit s
  | S754_infinity s => sign_bit s + 2047 * 2 ^ 52
  | S754_nan => 0x7FF8000000000001
  | S754_finite s m e =>
      if Z.pos m <? 2 ^ 52 then sign_bit s + Z.pos m
      else sign_bit s + (e + 1075) * 2 ^ 52 + (Z.pos m - 2 ^ 52)
  end.

Definition Float64frombits (u : Z) : float64 := u.
Definition Float64bits (x : float64) : Z := x.

Definition of_float (f : float) : float64 := encode f.

Definition zero : float64 := 0.
Definition one : float64 := 0x3FF0000000000000.

Definition add (x y : float64) : float64 := encode (decode x + decode y).
Definition div (x y : float64) : float64 := encode (decode x / decode y).
Definition eqb (x y : float64) : bool := (decode x =? decode y)%float.

End f64.

Abbreviation float64 := f64.float64.

(** ** Expressions: the AVG aggregator (expr/avg.go) *)

Module expr.
Import binaryEncoding.

(** The [Params] interface has the one method [Get(field) (float64, bool)];
    a value of the interface is kept as that method. *)
Definition Params := string -> go (float64 * bool).

Section Avg.
Context {Metadata : Type}.

(** The [Expr] interface. A method that writes into the slice it is given
    returns the contents of that slice after the call, followed by the
    results of the Go method. *)
Class Expr (E : Type) := {
  EncodedWidth : E -> Z;
  Update : E -> list byte -> Params -> Metadata ->
           go (list byte * (list byte * float64 * bool));
  Merge : E -> list byte -> list byte -> list byte ->
          go (list byte * (list byte * list byte * list byte));
  Get : E -> list byte -> go (float64 * bool * list byte)
}.

Context {E : Type} `{Expr E}.

Record avg := { wrapped : E }.

Definition encodedWidth (e : avg) : Z :=
  width64bits * 2 + 1 + EncodedWidth (wrapped e).

Definition calc (count total : float64) : float64 :=
  if f64.eqb count f64.zero then f64.zero else f64.div total count.

Definition load (b : list byte)
  : go (float64 * float64 * bool * list byte) :=
  remain ← bytes.from (width64bits * 2 + 1) b;
  b0 ← bytes.at_ 0 b;
  let wasSet := Byte.eqb b0 Byte.x01 in
  if wasSet then
    b1 ← bytes.from 1 b;
    u1 ← Uint64 b1;
    b9 ← bytes.from (width64bits + 1) b;
    u9 ← Uint64 b9;
    Done (f64.Float64frombits u1, f64.Float64frombits u9, wasSet, remain)
  else Done (f64.zero, f64.zero, wasSet, remain).

(** [save] writes the flag, the count and the total into [b]; the first
    component is [b] after the writes, the second the slice returned. *)
Definition save (b : list byte) (count total : float64)
  : go (list byte * list byte) :=
  _ ← bytes.at_ 0 b;
  let b := <[0%nat := Byte.x01]> b in
  b1 ← bytes.from 1 b;
  b1' ← PutUint64 b1 (f64.Float64bits count);
  let b := take 1 b ++ b1' in
  b9 ← bytes.from (width64bits + 1) b;
  b9' ← PutUint64 b9 (f64.Float64bits total);
  let b := take (Z.to_nat (width64bits + 1)) b ++ b9' in
  remain ← bytes.from (width64bits * 2 + 1) b;
  Done (b, remain).

Definition update (e : avg) (b : list byte) (params : Params)
    (metadata : Metadata)
  : go (list byte * (list byte * float64 * bool)) :=
  '(count, total, _, more) ← load b;
  '(more', (remain, wrappedValue, updated)) ←
      Update (wrapped e) more params metadata;
  let b := take (Z.to_nat (width64bits * 2 + 1)) b ++ more' in
  if updated : bool then
    let count := f64.add count f64.one in
    let total := f64.add total wrappedValue in
    '(b, tail) ← save b count total;
    Done (b, (remain, calc count total, updated))
  else Done (b, (remain, calc count total, updated)).

(** [merge] returns the destination [b] after the call and the three
    slices the Go method returns. *)
Definition merge (e : avg) (b x y : list byte)
  : go (list byte * (list byte * list byte * list byte)) :=
  '(countX, totalX, xWasSet, remainX) ← load x;
  '(countY, totalY, yWasSet, remainY) ← load y;
  if negb xWasSet then
    if yWasSet : bool then
      '(b, tail) ← save b countY totalY;
      Done (b, (tail, remainX, remainY))
    else
      tail ← bytes.from (width64bits * 2 + 1) b;
      Done (b, (tail, remainX, remainY))
  else
    let '(countX, totalX) :=
      if yWasSet : bool then (f64.add countX countY, f64.add totalX totalY)
      else (countX, totalX) in
    '(b, tail) ← save b countX totalX;
    Done (b, (tail, remainX, remainY)).

Definition get (e : avg) (b : list byte) : go (float64 * bool * list byte) :=
  '(count, total, wasSet, remain) ← load b;
  if negb wasSet then Done (f64.zero, wasSet, remain)
  else Done (calc count total, wasSet, remain).

#[global] Instance avg_Expr : Expr avg := {
  EncodedWidth := encodedWidth;
  Update := update;
  Merge := merge;
  Get := get
}.

(** The layout of a state that was set: the flag byte 1, the count, the
    total, then the state of the wrapped expression. *)
Definition encoded (count total : float64) (rest : list byte) : list byte :=
  Byte.x01 :: bytes.le_bytes 8 count ++ bytes.le_bytes 8 total ++ rest.

(** The destination after [merge], for statements about the state only. *)
Definition merged (e : avg) (b x y : list byte) : go (list byte) :=
  fst <$> merge e b x y.

(** The two groupings of a merge of three states, each merge writing into
    a destination [d] of its own: [(x . y) . z] and [x . (y . z)]. *)
Definition merge3_left (e : avg) (d x y z : list byte) : go (list byte) :=
  xy ← merged e d x y; merged e d xy z.

Definition merge3_right (e : avg) (d x y z : list byte) : go (list byte) :=
  yz ← merged e d y z; merged e d x yz.

(** Modelled from the spec: [FIELD(name)], whose source is not among the
    files: "width 0; reads from params; only updates an enclosing
    aggregator". *)
Record field := FIELD { fieldName : string }.

#[global] Instance field_Expr : Expr field := {
  EncodedWidth := fun _ => 0;
  Update := fun e b params _ =>
    '(v, ok) ← params (fieldName e); Done (b, (b, v, ok));
  Merge := fun _ b x y => Done (b, (b, x, y));
  Get := fun _ b => Done (f64.zero, false, b)
}.

End Avg.

Arguments avg E : clear implicits.

End expr.

(** ** The radix tree (bytetree/bytetree.go)

    The tree owns its nodes: no node is the target of two edges. A node
    pointer is therefore kept as the path of edge indexes that leads to the
    node from the root, and a write through the pointer is a write at that
    path. *)

Module bytetree.

(** [encoding.Sequence] *)
Definition Sequence := list byte.

Inductive node : Type :=
  mkNode { key : list byte;
           edges : list edge;
           data : list Sequence;
           removedFor : list Z }
with edge : Type :=
  mkEdge { label : list byte;
           target : node }.

Record Tree := mkTree { root : node; tbytes : Z; tlength : Z }.

(** [&node{}] *)
Definition emptyNode : node := mkNode [] [] [] [].

Definition New : Tree := mkTree emptyNode 0 0.

Definition Bytes (bt : Tree) : Z := tbytes bt * 2.

Definition Length (bt : Tree) : Z := tlength bt.

Definition wasRemovedFor (n : node) (ctx : Z) : bool :=
  if ctx =? 0 then false
  else existsb (fun _ctx => _ctx =? ctx) (removedFor n).

Definition doRemoveFor (n : node) (ctx : Z) : node :=
  if ctx =? 0 then n
  else mkNode (key n) (edges n) (data n) (removedFor n ++ [ctx]).

(** Node pointers as paths. *)
Definition path := list nat.

Fixpoint deref (rt : node) (p : path) {struct p} : option node :=
  match p with
  | [] => Some rt
  | i :: p' => e ← edges rt !! i; deref (target e) p'
  end.

Fixpoint store (f : node -> node) (rt : node) (p : path) {struct p} : node :=
  match p with
  | [] => f rt
  | i :: p' =>
      mkNode (key rt)
             (alter (fun e => mkEdge (label e) (store f (target e) p')) i (edges rt))
             (data rt) (removedFor rt)
  end.

(** The pointers [e.target] for the edges of the node at [p]. *)
Definition targets (p : path) (n : node) : list path :=
  imap (fun i _ => p ++ [i]) (edges n).

(** The number of nodes, which bounds the iterations of the queue loops. *)
Fixpoint size (n : node) : nat :=
  match n with
  | mkNode _ es _ _ =>
      S ((fix sizes (es : list edge) : nat :=
            match es with
            | [] => O
            | e :: es' => (match e with mkEdge _ t => size t end + sizes es')%nat
            end) es)
  end.

Section Walk.
Context {S : Type}.
(** The callback [fn], a closure in Go, with the state it works on. *)
Variable fn : list byte -> list Sequence -> S -> bool * S.

(** The visit of the node [n], found at [p]: the body of the loop of
    [Walk] up to the enqueueing of the targets. *)
Definition visit (ctx : Z) (rt : node) (p : path) (n : node) (s : S) : node * S :=
  if negb (bool_decide (data n = [])) then
    let alreadyRemoved := wasRemovedFor n ctx in
    if negb alreadyRemoved then
      let '(keep, s) := fn (key n) (data n) s in
      if negb keep
      then (store (fun n => doRemoveFor n ctx) rt p, s)
      else (rt, s)
    else (rt, s)
  else (rt, s).

(** The loop of [Walk] over the queue [nodes]; [None] only when the fuel
    runs out before the queue is empty. *)
Fixpoint walk_loop (fuel : nat) (ctx : Z) (rt : node) (nodes : list path) (s : S)
  : option (node * S) :=
  match nodes with
  | [] => Some (rt, s)
  | p :: nodes =>
      match fuel with
      | O => None
      | Datatypes.S fuel =>
          n ← deref rt p;
          let '(rt, s) := visit ctx rt p n s in
          walk_loop fuel ctx rt (nodes ++ targets p n) s
      end
  end.

Definition Walk (bt : Tree) (ctx : Z) (s : S) : option (Tree * S) :=
  '(rt, s) ← walk_loop (size (root bt)) ctx (root bt) [[]] s;
  Some (mkTree rt (tbytes bt) (tlength bt), s).

End Walk.

(** The length of the common prefix: the inner [for] loop of [Remove] and
    [doUpdate]. *)
Fixpoint commonPrefix (label key : list byte) : nat :=
  match label, key with
  | l :: label', k :: key' =>
      if bool_decide (l = k) then Datatypes.S (commonPrefix label' key') else O
  | _, _ => O
  end.

(** The loop [nodeLoop] of [Remove] at node [n] with the rest [key] of the
    key; the result is the slice returned and the node after the call. *)
Fixpoint remove_loop (ctx : Z) (n : node) (key : list byte) {struct n}
  : list Sequence * node :=
  match n with
  | mkNode k es d r =>
      let keyLength := List.length key in
      match
        (fix scan (es : list edge) : option (list Sequence * list edge) :=
           match es with
           | [] => None
           | e :: es' =>
               match e with
               | mkEdge lbl tgt =>
                   let labelLength := List.length lbl in
                   let i := commonPrefix lbl key in
                   if (i =? keyLength)%nat && (keyLength =? labelLength)%nat then
                     (* found it *)
                     let alreadyRemoved := wasRemovedFor tgt ctx in
                     if alreadyRemoved then Some ([], e :: es')
                     else Some (data tgt, mkEdge lbl (doRemoveFor tgt ctx) :: es')
                   else if (i =? labelLength)%nat && (labelLength <? keyLength)%nat then
                     (* descend *)
                     let '(res, tgt') := remove_loop ctx tgt (drop labelLength key) in
                     Some (res, mkEdge lbl tgt' :: es')
                   else
                     '(res, es'') ← scan es'; Some (res, e :: es'')
               end
           end) es
      with
      | Some (res, es') => (res, mkNode k es' d r)
      | None => ([], n)   (* not found *)
      end
  end.

Definition Remove (bt : Tree) (ctx : Z) (fullKey : list byte)
  : list Sequence * Tree :=
  let '(res, rt) := remove_loop ctx (root bt) fullKey in
  (res, mkTree rt (tbytes bt) (tlength bt)).

(** What a copy is to be: the same keys, labels, data and shape, and no
    mark of removal. The root of a copy is a fresh node, which takes the
    edges only. *)
Fixpoint strip (n : node) : node :=
  match n with
  | mkNode k es d _ =>
      mkNode k
        ((fix strips (es : list edge) : list edge :=
            match es with
            | [] => []
            | e :: es' =>
                match e with mkEdge l t => mkEdge l (strip t) end :: strips es'
            end) es)
        d []
  end.

Definition stripRoot (n : node) : node :=
  mkNode [] (edges (strip n)) [] [].

(** Notions for the reasoning about the queue loops: two pointers of which
    neither leads through the other; a queue in which no pointer leads
    through another; a node with edges added; the copy of an edge's target
    before its own edges are copied; the number of nodes below a pointer. *)
Definition incomparable (p r : path) : Prop :=
  ~ p `prefix_of` r /\ ~ r `prefix_of` p.

Definition antichain (Q : list path) : Prop :=
  forall i j p r, Q !! i = Some p -> Q !! j = Some r -> i <> j -> ~ p `prefix_of` r.

Definition attach (es : list edge) (c : node) : node :=
  mkNode (key c) (edges c ++ es) (data c) (removedFor c).

Definition shallow (e : edge) : edge :=
  mkEdge (label e) (mkNode (key (target e)) [] (data (target e)) []).

Definition stripEdge (e : edge) : edge :=
  mkEdge (label e) (strip (target e)).

(** What [Walk] reads of a node, its marks apart. *)
Definition seen (n : node) : list Sequence * list byte * nat :=
  (data n, if bool_decide (data n = []) then [] else key n, List.length (edges n)).

Definition sizeAt (rt : node) (p : path) : nat :=
  match deref rt p with
  | Some n => size n
  | None => O
  end.

(** The copy of everything below the node at [p] of [src], put under the
    node at [p] of [cp]. *)
Definition graft (src cp : node) (p : path) : node :=
  match deref src p with
  | Some n => store (attach (map stripEdge (edges n))) cp p
  | None => cp
  end.

(** The body of the inner loop of [Copy], for the edge [e] with index [i]
    of the node at [p], copied under the node at [q]. *)
Definition copyEdge (p q : path) (acc : option (node * list path * list path))
    (ie : nat * edge) : option (node * list path * list path) :=
  '(cp, nodes, nodeCopies) ← acc;
  cpn ← deref cp q;
  let e := ie.2 in
  let cpt := mkNode (key (target e)) [] (data (target e)) [] in
  let cp := store (fun cpn =>
                     mkNode (key cpn) (edges cpn ++ [mkEdge (label e) cpt])
                            (data cpn) (removedFor cpn)) cp q in
  Some (cp, nodes ++ [p ++ [ie.1]], nodeCopies ++ [q ++ [List.length (edges cpn)]]).

(** The loop of [Copy] over the queues [nodes] (pointers into the tree
    copied) and [nodeCopies] (pointers into the copy). *)
Fixpoint copy_loop (fuel : nat) (src cp : node) (nodes nodeCopies : list path)
  : option node :=
  match nodes with
  | [] => Some cp
  | p :: nodes =>
      match fuel with
      | O => None
      | Datatypes.S fuel =>
          n ← deref src p;
          q ← head nodeCopies;
          let nodeCopies := tail nodeCopies in
          '(cp, nodes, nodeCopies) ←
            foldl (copyEdge p q) (Some (cp, nodes, nodeCopies))
                  (imap pair (edges n));
          copy_loop fuel src cp nodes nodeCopies
      end
  end.

Definition Copy (bt : Tree) : option Tree :=
  cp ← copy_loop (size (root bt)) (root bt) emptyNode [[]] [[]];
  Some (mkTree cp (tbytes bt) (tlength bt)).

Section Update.
Context {Field TSParams Metadata Duration Time : Type}.
(** [current.Update(vals, metadata, field.Expr, resolution, truncateBefore)]
    of package encoding, and the capacity of a sequence's backing array. *)
Variable SequenceUpdate :
  Sequence -> TSParams -> Metadata -> Field -> Duration -> Time -> Sequence.
Variable cap : Sequence -> Z.

Variable fields : list Field.
Variable resolution : Duration.
Variable truncateBefore : Time.

(** [node.doUpdate]: the node after the call and the bytes added. *)
Definition node_doUpdate (n : node) (fullKey : list byte) (vals : TSParams)
    (metadata : Metadata) : node * Z :=
  let data0 :=
    if (List.length (data n) <? List.length fields)%nat
    then data n ++ replicate (List.length fields - List.length (data n)) []
    else data n in
  let '(data1, bytesAdded) :=
    foldl (fun '(dat, bytesAdded) '(i, field) =>
             let current := default [] (dat !! i) in
             let previousSize := cap current in
             let updated :=
               SequenceUpdate current vals metadata field resolution truncateBefore in
             (<[i := updated]> dat, bytesAdded + (cap updated - previousSize)))
          (data0, 0) (imap pair fields) in
  (mkNode (key n) (edges n) data1 (removedFor n), bytesAdded).

(** [edge.split]: the edge after the call and the bytes added. *)
Definition split (e : edge) (splitOn : nat) (fullKey key : list byte)
    (vals : TSParams) (metadata : Metadata) : edge * Z :=
  let newNode := mkNode [] [mkEdge (drop splitOn (label e)) (target e)] [] [] in
  if bool_decide (splitOn <> List.length key) then
    let newLeaf := mkNode fullKey [] [] [] in
    let '(newLeaf, added) := node_doUpdate newLeaf fullKey vals metadata in
    let newNode :=
      mkNode (bytetree.key newNode)
             (edges newNode ++ [mkEdge (drop splitOn key) newLeaf])
             (data newNode) (removedFor newNode) in
    (mkEdge (take splitOn (label e)) newNode,
     Z.of_nat (List.length key) - Z.of_nat splitOn + added)
  else
    let '(newLeaf, added) := node_doUpdate newNode fullKey vals metadata in
    (mkEdge (take splitOn (label e)) newLeaf,
     Z.of_nat (List.length key) - Z.of_nat splitOn + added).

(** The loop [nodeLoop] of [Tree.doUpdate] at node [n] with the rest [key]
    of the key. *)
Fixpoint update_loop (fullKey : list byte) (vals : TSParams) (metadata : Metadata)
    (n : node) (key : list byte) {struct n} : node * Z * bool :=
  match n with
  | mkNode k es d r =>
      let keyLength := List.length key in
      match
        (fix scan (es : list edge) : option (list edge * Z * bool) :=
           match es with
           | [] => None
           | e :: es' =>
               match e with
               | mkEdge lbl tgt =>
                   let labelLength := List.length lbl in
                   let i := commonPrefix lbl key in
                   if (i =? keyLength)%nat && (keyLength =? labelLength)%nat then
                     (* update existing node *)
                     let '(tgt', added) := node_doUpdate tgt fullKey vals metadata in
                     Some (mkEdge lbl tgt' :: es', added, false)
                   else if (i =? labelLength)%nat && (labelLength <? keyLength)%nat then
                     (* descend *)
                     let '(tgt', added, newNode) :=
                       update_loop fullKey vals metadata tgt (drop labelLength key) in
                     Some (mkEdge lbl tgt' :: es', added, newNode)
                   else if (0 <? i)%nat then
                     (* common substring, split on that *)
                     let '(e', added) := split e i fullKey key vals metadata in
                     Some (e' :: es', added, true)
                   else
                     '(es'', added, newNode) ← scan es';
                     Some (e :: es'', added, newNode)
               end
           end) es
      with
      | Some (es', added, newNode) => (mkNode k es' d r, added, newNode)
      | None =>
          (* Create new edge *)
          let target := mkNode fullKey [] [] [] in
          let '(target, added) := node_doUpdate target fullKey vals metadata in
          (mkNode k (es ++ [mkEdge key target]) d r,
           added + Z.of_nat (List.length key), true)
      end
  end.

Definition doUpdate (bt : Tree) (fullKey : list byte) (vals : TSParams)
    (metadata : Metadata) : node * Z * bool :=
  update_loop fullKey vals metadata (root bt) fullKey.

(** [Tree.Update]: the bytes added and the tree after the call. *)
Definition Update (bt : Tree) (key : list byte) (vals : TSParams)
    (metadata : Metadata) : Z * Tree :=
  let '(rt, bytesAdded, newNode) := doUpdate bt key vals metadata in
  (bytesAdded,
   mkTree rt (tbytes bt + bytesAdded)
          (if newNode : bool then tlength bt + 1 else tlength bt)).

End Update.

End bytetree.

(** ** bytemap_params.go *)

(** Modelled from the spec: the byte-map codec is an external collaborator,
    "an opaque byte slice with a stable [Get(field) -> value] decoder"; a
    byte map is kept as the finite map it encodes. [Get] returns an
    [interface{}], here an [option]: [None] is the nil interface, which the
    codec returns for a field that is absent or stored as nil. *)
Module bytemap.

Inductive value : Type :=
| VBool (b : bool)
| VInt (z : Z)
| VFloat (f : float64)
| VString (s : string)
| VTime (nanos : Z)
| VNil.

Definition Get (bm : gmap string value) (field : string) : option value :=
  match bm !! field with
  | Some VNil => None
  | r => r
  end.

End bytemap.

Module bytemapParams.

Definition Get (bmp : gmap string bytemap.value) (field : string)
  : go (float64 * bool) :=
  let result := bytemap.Get bmp field in
  match result with
  | None => Done (f64.zero, false)
  | Some (bytemap.VFloat f) => Done (f, true)
  | Some _ => Panic "interface conversion: interface {} is not float64"
  end.

End bytemapParams.

Module bytemapQueryParams.

Definition Get (bmp : gmap string bytemap.value) (field : string)
  : bytemap.value * option string :=
  let result := bytemap.Get bmp field in
  match result with
  | None => (bytemap.VString "", None)
  | Some r => (r, None)
  end.

End bytemapQueryParams.

(** ** SUM and the sequence codec

    Modelled from the spec: the SUM aggregator and seq.go are not among the
    sources. SUM is "width = 8 + child_width + 1 (flag); store running f64
    total", laid out like AVG: the flag byte, the total, then the state of
    the wrapped expression. A sequence is "bytes 0..8: start timestamp of
    the latest bucket as int64 nanoseconds", then one state per period,
    newest first; the empty sequence is the empty slice. *)

Module exprsum.
Import binaryEncoding expr.

Section Sum.
Context {Metadata : Type} {E : Type} `{!Expr (Metadata:=Metadata) E}.

Record sum := SUM { wrapped : E }.

Definition encodedWidth (e : sum) : Z :=
  width64bits + 1 + EncodedWidth (wrapped e).

Definition load (b : list byte) : go (float64 * bool * list byte) :=
  remain ← bytes.from (width64bits + 1) b;
  b0 ← bytes.at_ 0 b;
  let wasSet := Byte.eqb b0 Byte.x01 in
  if wasSet then
    b1 ← bytes.from 1 b;
    u1 ← Uint64 b1;
    Done (f64.Float64frombits u1, wasSet, remain)
  else Done (f64.zero, wasSet, remain).

Definition save (b : list byte) (total : float64) : go (list byte * list byte) :=
  _ ← bytes.at_ 0 b;
  let b := <[0%nat := Byte.x01]> b in
  b1 ← bytes.from 1 b;
  b1' ← PutUint64 b1 (f64.Float64bits total);
  let b := take 1 b ++ b1' in
  remain ← bytes.from (width64bits + 1) b;
  Done (b, remain).

Definition update (e : sum) (b : list byte) (params : Params) (metadata : Metadata)
  : go (list byte * (list byte * float64 * bool)) :=
  '(total, _, more) ← load b;
  '(more', (remain, wrappedValue, updated)) ←
      Update (wrapped e) more params metadata;
  let b := take (Z.to_nat (width64bits + 1)) b ++ more' in
  if updated : bool then
    let total := f64.add total wrappedValue in
    '(b, tail) ← save b total;
    Done (b, (remain, total, updated))
  else Done (b, (remain, total, updated)).

Definition merge (e : sum) (b x y : list byte)
  : go (list byte * (list byte * list byte * list byte)) :=
  '(totalX, xWasSet, remainX) ← load x;
  '(totalY, yWasSet, remainY) ← load y;
  if negb xWasSet then
    if yWasSet : bool then
      '(b, tail) ← save b totalY;
      Done (b, (tail, remainX, remainY))
    else
      tail ← bytes.from (width64bits + 1) b;
      Done (b, (tail, remainX, remainY))
  else
    let totalX := if yWasSet : bool then f64.add totalX totalY else totalX in
    '(b, tail) ← save b totalX;
    Done (b, (tail, remainX, remainY)).

Definition get (e : sum) (b : list byte) : go (float64 * bool * list byte) :=
  load b.

#[global] Instance sum_Expr : Expr (Metadata:=Metadata) sum := {
  EncodedWidth := encodedWidth;
  Update := update;
  Merge := merge;
  Get := get
}.

End Sum.
Arguments sum E : clear implicits.

End exprsum.

Module sequence.
Import binaryEncoding expr.

Section Sequence.
Context {Metadata : Type} {E : Type} `{!Expr (Metadata:=Metadata) E}.

(** Times and durations are counts of nanoseconds. *)
Definition alignDown (ts r : Z) : Z := ts - ts mod r.

Definition start (s : list byte) : go Z :=
  v ← Uint64 s; Done (golib.int_of_uint64 v).

Definition setStart (ts : Z) (s : list byte) : go (list byte) :=
  PutUint64 s (ts mod 2 ^ 64).

Definition numPeriods (s : list byte) (width : Z) : Z :=
  if bool_decide (s = []) then 0
  else (Z.of_nat (length s) - width64bits) / width.

(** The state of period [i] is updated in place by [e.update]. *)
Definition updateValueAt (s : list byte) (i : Z) (e : E) (params : Params)
    (metadata : Metadata) : go (list byte) :=
  let width := EncodedWidth e in
  let off := width64bits + i * width in
  slot ← bytes.from off s;
  '(slot', _) ← Update e slot params metadata;
  Done (take (Z.to_nat off) s ++ slot').

Definition truncate (s : list byte) (width r truncateBefore : Z) : go (list byte) :=
  if bool_decide (s = []) then Done []
  else
    st ← start s;
    if st <? truncateBefore then Done []
    else
      let keep := Z.min (numPeriods s width) ((st - truncateBefore) / r + 1) in
      bytes.upto (width64bits + keep * width) s.

Definition update (s : list byte) (ts : Z) (params : Params) (metadata : Metadata)
    (e : E) (r truncateBefore : Z) : go (list byte) :=
  let width := EncodedWidth e in
  let ts := alignDown ts r in
  s ←
    (if bool_decide (s = []) then
       s ← setStart ts (bytes.make (width64bits + width));
       updateValueAt s 0 e params metadata
     else
       st ← start s;
       let periodsApart := (st - ts) / r in
       if periodsApart <? 0 then
         (* prepend *)
         states ← bytes.from width64bits s;
         s ← setStart ts (bytes.make (width64bits + (- periodsApart) * width) ++ states);
         updateValueAt s 0 e params metadata
       else if 0 <? periodsApart then
         (* append-back *)
         if ts <? truncateBefore then Done s
         else
           let missing := periodsApart + 1 - numPeriods s width in
           let s := if 0 <? missing then s ++ bytes.make (missing * width) else s in
           updateValueAt s periodsApart e params metadata
       else updateValueAt s 0 e params metadata);
  truncate s width r truncateBefore.

(** A sequence with the start [st] in front of the states of its periods. *)
Definition encoded (st : Z) (states : list byte) : list byte :=
  bytes.le_bytes 8 (st mod 2 ^ 64) ++ states.

Definition valueAt (s : list byte) (i : Z) (e : E) : go (float64 * bool) :=
  slot ← bytes.from (width64bits + i * EncodedWidth e) s;
  '(v, wasSet, _) ← Get e slot;
  Done (v, wasSet).

Definition valueAtTime (s : list byte) (ts : Z) (e : E) (r : Z) : go (float64 * bool) :=
  if bool_decide (s = []) then Done (f64.zero, false)
  else
    st ← start s;
    let i := (st - alignDown ts r) / r in
    if (i <? 0) || (numPeriods s (EncodedWidth e) <=? i) then Done (f64.zero, false)
    else valueAt s i e.

End Sequence.
End sequence.

(** ** The file store and the row store (rowstore.go)

    Modelled from the spec: the decoders [readInt16], [readInt64],
    [readByteMap] and [readSequence] are declared in a file that is not
    among the sources; they follow the row layout
    rowLength|keylength|key|numcolumns|col1len|...|col1|... of the file
    store. *)

Module fileStore.
Import binaryEncoding.

Definition sequence := list byte.

Definition readInt16 (b : list byte) : go (Z * list byte) :=
  v ← Uint16 b; rest ← bytes.from width16bits b; Done (v, rest).

Definition readInt64 (b : list byte) : go (Z * list byte) :=
  v ← Uint64 b; rest ← bytes.from width64bits b;
  Done (golib.int_of_uint64 v, rest).

Definition readByteMap (b : list byte) (l : Z) : go (list byte * list byte) :=
  k ← bytes.upto l b; rest ← bytes.from l b; Done (k, rest).

(** A sequence of length 0 is read as the nil sequence. *)
Definition readSequence (b : list byte) (l : Z) : go (sequence * list byte) :=
  s ← bytes.upto l b; rest ← bytes.from l b; Done (s, rest).

(** What [os.OpenFile] finds under the file name; an opened file is the
    stream of bytes that the snappy reader yields. *)
Inductive file : Type :=
| NotExist
| OpenError (err : string)
| Opened (contents : list byte).

Definition FileVersion_2 : Z := 2.
Definition CurrentFileVersion : Z := FileVersion_2.

Section FileStore.
Context {Expr Duration Time : Type}.

(** [sql.Field], with its [String()] kept as a field. *)
Record Field := mkField { Name : string; FExpr : Expr; FString : string }.

(** [sequence.merge] and [sequence.truncate], declared in seq.go. *)
Variable merge : sequence -> sequence -> Expr -> Duration -> Time -> sequence.
Variable truncate : sequence -> Z -> Duration -> Time -> sequence.
Variable EncodedWidth : Expr -> Z.

(** The table [fs.t], the value of [fs.t.truncateBefore()] and the clock
    reading [ctx] of the call. *)
Variable Fields : list Field.
Variable Resolution : Duration.
Variable truncateBefore : Time.
Variable ctx : Z.

Definition buildShouldInclude (fields : list string) (candidates : list Field)
  : option (Z -> bool) * option string :=
  let includedFields :=
    omap (fun '(i, field) =>
            if existsb (fun f => bool_decide (f = Name field)) fields
            then Some (Z.of_nat i) else None)
         (imap pair candidates) in
  if (length fields =? 0)%nat then (Some (fun _ => true), None)
  else if (length includedFields =? 0)%nat
  then (None, Some "Non of specified fields exists on table!")
  else
    (Some (fun i =>
             (fix scan (xs : list Z) : bool :=
                match xs with
                | [] => false
                | x :: xs' =>
                    if x =? i then true
                    else if i <? x then false
                    else scan xs'
                end) includedFields),
     None).

(** A call of a function value that may be nil. *)
Definition call (f : option (Z -> bool)) (i : Z) : go bool :=
  match f with
  | Some f => Done (f i)
  | None => Panic "invalid memory address or nil pointer dereference"
  end.

(** The version that the file name carries. *)
Definition fileVersionOf (filename : string) : Z :=
  let parts := golib.Split (golib.Base filename) "_" in
  if (length parts =? 3)%nat then
    let versionString :=
      default EmptyString (head (golib.Split (default EmptyString (parts !! 2%nat)) ".")) in
    fst (golib.Atoi versionString)
  else 0.

(** The header of a version-2 file, reconciled with the table's fields. *)
Definition reconcile (fieldStrings : list string) : go (list Field) :=
  foldl (fun acc fieldString =>
           fileFields ← acc;
           match List.find (fun field => bool_decide (fieldString = FString field)) Fields with
           | Some field => Done (fileFields ++ [field])
           | None => Panic "Unable to find field"
           end)
        (Done []) fieldStrings.

(** The merge of the columns of a memstore entry into the columns read from
    the file (rowstore.go, the loop over [memStores] in the file pass). *)
Definition mergeFileColumns (shouldIncludeMemStoreField : option (Z -> bool))
    (columns columns2 : list sequence) (includesAtLeastOneColumn : bool)
  : go (list sequence * bool) :=
  foldl (fun acc i =>
           '(columns, includes) ← acc;
           inc ← call shouldIncludeMemStoreField (Z.of_nat i);
           if inc : bool then
             if (length columns2 <=? i)%nat then
               (* nothing to merge *)
               Done (columns, includes)
             else if (length columns <=? i)%nat then
               (* nothing to merge, just add new column: columns[i] = seq2 *)
               Panic "index out of range"
             else
               match Fields !! i with
               | Some f =>
                   let c := default [] (columns !! i) in
                   let c2 := default [] (columns2 !! i) in
                   Done (<[i := merge c c2 (FExpr f) Resolution truncateBefore]> columns,
                         includes)
               | None => Panic "index out of range"
               end
           else Done (columns, includes))
        (Done (columns, includesAtLeastOneColumn))
        (seq 0 (max (length columns) (length columns2))).

(** The same merge in the pass over the memstores, where a new column is
    appended. The loop bound is read again on every iteration. *)
Fixpoint mergeWalkColumns (fuel : nat) (i : nat)
    (shouldIncludeMemStoreField : option (Z -> bool))
    (columns columns2 : list sequence) : go (list sequence) :=
  match fuel with
  | O => Done columns
  | S fuel =>
      if (i <? length columns)%nat || (i <? length columns2)%nat then
        inc ← call shouldIncludeMemStoreField (Z.of_nat i);
        columns ←
          (if inc : bool then
             if (length columns2 <=? i)%nat then Done columns
             else if (length columns <=? i)%nat then
               Done (columns ++ [default [] (columns2 !! i)])
             else
               match Fields !! i with
               | Some f =>
                   let c := default [] (columns !! i) in
                   let c2 := default [] (columns2 !! i) in
                   Done (<[i := merge c c2 (FExpr f) Resolution truncateBefore]> columns)
               | None => Panic "index out of range"
               end
           else Done columns);
        mergeWalkColumns fuel (S i) shouldIncludeMemStoreField columns columns2
      else Done columns
  end.

Context {St : Type}.
(** The callback [onRow], a closure in Go, with the state it works on. *)
Variable onRow : list byte -> list sequence -> St -> St.

(** The loop that reads the lengths of the columns. *)
Definition readColLengths (numColumns : Z) (row : list byte)
  : go (list Z * list byte) :=
  foldl (fun acc _ =>
           '(colLengths, row) ← acc;
           '(colLength, row) ← readInt64 row;
           Done (colLengths ++ [colLength], row))
        (Done ([], row)) (seq 0 (Z.to_nat numColumns)).

(** The loop that reads the columns and keeps those of included fields. *)
Definition readColumns (shouldIncludeFileField : option (Z -> bool))
    (numColumns : Z) (colLengths : list Z) (row : list byte)
  : go (list sequence * bool * list byte) :=
  foldl (fun acc '(i, colLength) =>
           '(columns, includes, row) ← acc;
           '(sq, row) ← readSequence row colLength;
           inc ← call shouldIncludeFileField (Z.of_nat i);
           if inc : bool then
             Done (<[i := sq]> columns,
                   includes || negb (bool_decide (sq = [])), row)
           else Done (columns, includes, row))
        (Done (replicate (Z.to_nat numColumns) [], false, row))
        (imap pair colLengths).

(** One row of the file, after its length was read. *)
Definition readRow (row : list byte) (shouldIncludeFileField : option (Z -> bool))
  : go (list byte * list sequence * bool) :=
  '(keyLength, row) ← readInt16 row;
  '(key, row) ← readByteMap row keyLength;
  '(numColumns, row) ← readInt16 row;
  '(colLengths, row) ← readColLengths numColumns row;
  '(columns, includes, row) ←
    readColumns shouldIncludeFileField numColumns colLengths row;
  Done (key, columns, includes).

(** The result of the file pass: the state of the callback, the memstores,
    and the error returned, if any. *)
Definition passResult : Type := St * list bytetree.Tree * option string.

(** The loop "Read from file". *)
Fixpoint readRows (fuel : nat) (r : list byte)
    (shouldIncludeFileField shouldIncludeMemStoreField : option (Z -> bool))
    (memStores : list bytetree.Tree) (s : St) : go passResult :=
  match fuel with
  | O => Panic "out of fuel"
  | S fuel =>
      match golib.ReadUint r 8 with
      | golib.EOF => Done (s, memStores, None)
      | golib.ErrUnexpectedEOF =>
          Done (s, memStores, Some "Unexpected error reading row length")
      | golib.ReadOk rowLength r =>
          (* make([]byte, rowLength), then PutUint64 into it *)
          if 2 ^ 63 <=? rowLength then Panic "makeslice: len out of range" else
          if rowLength <? width64bits then Panic "index out of range" else
          match golib.ReadFull r (Z.to_nat (rowLength - width64bits)) with
          | golib.EOF | golib.ErrUnexpectedEOF =>
              Done (s, memStores, Some "Unexpected error while reading row")
          | golib.ReadOk row r =>
              '(key, columns, includes) ← readRow row shouldIncludeFileField;
              '(columns, includes, memStores) ←
                foldl (fun acc j =>
                         '(columns, includes, memStores) ← acc;
                         match memStores !! j with
                         | None => Done (columns, includes, memStores)
                         | Some ms =>
                             let '(columns2, ms) := bytetree.Remove ms ctx key in
                             '(columns, includes) ←
                               mergeFileColumns shouldIncludeMemStoreField
                                 columns columns2 includes;
                             Done (columns, includes, <[j := ms]> memStores)
                         end)
                      (Done (columns, includes, memStores))
                      (seq 0 (length memStores));
              let s := if includes : bool then onRow key columns s else s in
              readRows fuel r shouldIncludeFileField shouldIncludeMemStoreField
                       memStores s
          end
      end
  end.

(** The callback of the walk over memstore [s0]: merge the later memstores'
    entries for the key, then deliver the row. The state is the memstores
    and the state of [onRow]; a panic inside the callback ends the walk.
    (The callback also writes the merged columns into the slice of the node
    walked; those writes are not kept here.) *)
Definition walkRow (s0 : nat) (shouldIncludeMemStoreField : option (Z -> bool))
    (key : list byte) (columns : list sequence)
    (st : go (list bytetree.Tree * St)) : bool * go (list bytetree.Tree * St) :=
  (false,
   '(memStores, s) ← st;
   '(columns, memStores) ←
     foldl (fun acc j =>
              '(columns, memStores) ← acc;
              match memStores !! j with
              | None => Done (columns, memStores)
              | Some ms2 =>
                  let '(columns2, ms2) := bytetree.Remove ms2 ctx key in
                  columns ←
                    mergeWalkColumns (length columns + length columns2) 0
                      shouldIncludeMemStoreField columns columns2;
                  Done (columns, <[j := ms2]> memStores)
              end)
           (Done (columns, memStores))
           (seq (S s0) (length memStores - S s0));
   Done (memStores, onRow key columns s)).

(** The loop "Read remaining stuff from mem stores". *)
Definition walkMemStores (shouldIncludeMemStoreField : option (Z -> bool))
    (memStores : list bytetree.Tree) (s : St) : go (list bytetree.Tree * St) :=
  foldl (fun acc s0 =>
           '(memStores, s) ← acc;
           match memStores !! s0 with
           | None => Done (memStores, s)
           | Some ms =>
               match bytetree.Walk (walkRow s0 shouldIncludeMemStoreField)
                                   ms ctx (Done (memStores, s)) with
               | None => Panic "out of fuel"
               | Some (ms, st) =>
                   '(memStores, s) ← st;
                   Done (<[s0 := ms]> memStores, s)
               end
           end)
        (Done (memStores, s)) (seq 0 (length memStores)).

(** The header of the file: the fields of the file and the rest of the
    stream, or the error returned. *)
Definition readHeader (filename : string) (r : list byte)
  : go (list Field * list byte + string) :=
  let fileFields := Fields in
  let fileVersion := fileVersionOf filename in
  if FileVersion_2 <=? fileVersion then
    (* File contains header with field info, use it *)
    match golib.ReadUint r 4 with
    | golib.EOF | golib.ErrUnexpectedEOF =>
        Done (inr "Unexpected error reading header length")
    | golib.ReadOk headerLength r =>
        match golib.ReadFull r (Z.to_nat headerLength) with
        | golib.EOF => Done (inr "EOF")
        | golib.ErrUnexpectedEOF => Done (inr "unexpected EOF")
        | golib.ReadOk headerBytes r =>
            let fieldStrings :=
              golib.Split (string_of_list_byte headerBytes) "," in
            fileFields ← reconcile fieldStrings;
            Done (inl (fileFields, r))
        end
    end
  else Done (inl (fileFields, r)).

(** [fileStore.iterate]: the state of the callback, the memstores and the
    error returned; a panic is a [Panic]. *)
Definition iterate (filename : string) (f : file) (memStores : list bytetree.Tree)
    (fields : list string) (s : St) : go passResult :=
  let memStoreFields := Fields in
  '(s, memStores, shouldIncludeMemStoreField, err) ←
    match f with
    | NotExist => Done (s, memStores, None, None)
    | OpenError e => Done (s, memStores, None, Some "Unable to open file")
    | Opened r =>
        header ← readHeader filename r;
        match header with
        | inr err => Done (s, memStores, None, Some err)
        | inl (fileFields, r) =>
            match buildShouldInclude fields memStoreFields with
            | (_, Some err) => Done (s, memStores, None, Some err)
            | (shouldIncludeMemStoreField, None) =>
                match buildShouldInclude fields fileFields with
                | (_, Some err) =>
                    Done (s, memStores, shouldIncludeMemStoreField, Some err)
                | (shouldIncludeFileField, None) =>
                    '(s, memStores, err) ←
                      readRows (S (length r)) r shouldIncludeFileField
                               shouldIncludeMemStoreField memStores s;
                    Done (s, memStores, shouldIncludeMemStoreField, err)
                end
            end
        end
    end;
  match err with
  | Some e => Done (s, memStores, Some e)
  | None =>
      '(memStores, s) ← walkMemStores shouldIncludeMemStoreField memStores s;
      Done (s, memStores, None)
  end.

(** The bytes of a row:
    rowLength|keylength|key|numcolumns|col1len|col2len|...|col1|col2|... *)
Definition rowLengthOf (key : list byte) (columns : list sequence) : Z :=
  foldl (fun rowLength sq => rowLength + (width64bits + Z.of_nat (length sq)))
        (width64bits + width16bits + Z.of_nat (length key) + width16bits)
        columns.

Definition encodeRow (key : list byte) (columns : list sequence) : list byte :=
  bytes.le_bytes 8 (rowLengthOf key columns mod 2 ^ 64)
  ++ bytes.le_bytes 2 (Z.of_nat (length key) mod 2 ^ 16)
  ++ key
  ++ bytes.le_bytes 2 (Z.of_nat (length columns) mod 2 ^ 16)
  ++ concat (map (fun sq => bytes.le_bytes 8 (Z.of_nat (length sq) mod 2 ^ 64)) columns)
  ++ concat columns.

(** The closure [write] of [processFlushes]: [cout] is the list of the
    rows written so far, each the bytes of one row. *)
Definition write (key : list byte) (columns : list sequence)
    (cout : go (list (list byte))) : go (list (list byte)) :=
  out ← cout;
  '(columns, hasActiveSequence) ←
    foldl (fun acc '(i, sq) =>
             '(columns, hasActive) ← acc;
             match Fields !! i with
             | None => Panic "index out of range"
             | Some f =>
                 let sq := truncate sq (EncodedWidth (FExpr f)) Resolution truncateBefore in
                 Done (<[i := sq]> columns,
                       hasActive || negb (bool_decide (sq = [])))
             end)
          (Done (columns, false)) (imap pair columns);
  if negb hasActiveSequence then
    (* all sequences expired, remove key *)
    Done out
  else
    (* rowLength|keylength|key|numcolumns|col1len|col2len|...|lastcollen|col1|col2|...|lastcol *)
    Done (out ++ [encodeRow key columns]).






(** The header that [processFlushes] writes in front of the rows. *)
Definition headerBytes : list byte :=
  let fieldStrings := map FString Fields in
  list_byte_of_string (golib.Join fieldStrings ",").

Definition header : list byte :=
  let headerLength := Z.of_nat (length headerBytes) mod 2 ^ 32 in
  bytes.le_bytes 4 headerLength ++ headerBytes.

(** The stream that a flush leaves in the new file: the header, then the
    rows in the order written or, on a sorting flush, in the order [emsort]
    gives them. *)
Definition flushed (emsort : list (list byte) -> list (list byte)) (sort : bool)
    (rows : list (list byte)) : list byte :=
  header ++ concat (if sort then emsort rows else rows).

End FileStore.

End fileStore.

Module rowStore.

Section RowStore.
(** Modelled from the spec: the memstore type [tree] of package zenodb is
    not among the sources; its [copy] is taken as given, and on a nil tree
    it dereferences the pointer, as [bytetree.Tree.Copy] does. *)
Context {tree fileStore : Type}.
Variable copy : tree -> tree.

Record rowStore := mkRowStore {
  memStores : gmap Z tree;
  fileStore_ : fileStore;
  IncludeMemStoreInQuery : bool
}.

(** The part of [rowStore.iterate] under the read lock: the file store and
    the memstores handed to [fileStore.iterate]; [None] is a nil pointer. *)
Definition snapshot (rs : rowStore) : go (fileStore * list (option tree)) :=
  let fs := fileStore_ rs in
  let len := Z.of_nat (size (memStores rs)) in
  let memStoresToInclude :=
    if negb (IncludeMemStoreInQuery rs) then len - 1 else len in
  if memStoresToInclude <? 0 then Panic "makeslice: cap out of range" else
  memStoresCopy ←
    foldl (fun acc i =>
             memStoresCopy ← acc;
             let onCurrentMemStore := bool_decide (Z.of_nat i = len - 1) in
             let ms := memStores rs !! Z.of_nat i in
             ms ← (if onCurrentMemStore then
                     match ms with
                     | Some t => Done (Some (copy t))
                     | None => Panic "invalid memory address or nil pointer dereference"
                     end
                   else Done ms);
             Done (memStoresCopy ++ [ms]))
          (Done []) (seq 0 (Z.to_nat memStoresToInclude));
  Done (fs, memStoresCopy).

(** The deletion of a flushed memstore at the end of [processFlushes]. *)
Definition flushed (rs : rowStore) (idx : Z) (newFileStore : fileStore) : rowStore :=
  mkRowStore (delete idx (memStores rs)) newFileStore (IncludeMemStoreInQuery rs).

(** The retirement of the current memstore in [processInserts]. *)
Definition retire (rs : rowStore) (memStoreIdx : Z) (fresh : tree) : rowStore :=
  mkRowStore (<[memStoreIdx + 1 := fresh]> (memStores rs)) (fileStore_ rs)
             (IncludeMemStoreInQuery rs).

End RowStore.

End rowStore.

(** ** Concrete inputs for the examples *)

Module scenario.
Import fileStore.

(** A table with the fields [a] and [b], and its earlier schema with the
    field [a] alone. *)
Definition fa : Field (Expr:=unit) := mkField "a" tt "SUM(a)".
Definition fb : Field (Expr:=unit) := mkField "b" tt "SUM(b)".

Definition keyK : list byte := ["k"%byte].

(** The file of a flush under the earlier schema: one row with the key [k]
    and one column. *)
Definition oldRows : go (list (list byte)) :=
  write (Duration:=unit) (Time:=unit) (fun s _ _ _ => s) (fun _ => 9)
        [fa] tt tt keyK [["1"; "2"; "3"]%byte] (Done []).

Definition oldFile : list byte :=
  match oldRows with
  | Done rows => flushed [fa] (fun rows => rows) false rows
  | Panic _ => []
  end.

Definition fileName : string := "filestore_00000000000000000001_2.dat".

(** A memstore filled under the schema of two fields: the entry for [k]
    has two columns. *)
Definition memStore : bytetree.Tree :=
  snd (bytetree.Update (Field:=Field) (TSParams:=list byte) (Metadata:=unit)
         (Duration:=unit) (Time:=unit)
         (fun cur vals _ _ _ _ => cur ++ vals) (fun s => Z.of_nat (length s))
         [fa; fb] tt tt bytetree.New keyK ["9"%byte] tt).

(** A callback that records the rows it is given. *)
Definition record (key : list byte) (columns : list sequence)
    (s : list (list byte * list sequence)) : list (list byte * list sequence) :=
  s ++ [(key, columns)].

End scenario.

Module scenario2.
Import fileStore.




End scenario2.

(** Scenario S1: SUM(FIELD("a")) at a resolution of one minute, and the
    four points of the scenario applied to the empty sequence. *)
Module scenarioS1.

Definition minute : Z := 60 * 1000000000.

Definition e : exprsum.sum expr.field := exprsum.SUM (expr.FIELD "a").

Definition point (a : float64) : expr.Params :=
  bytemapParams.Get {[ "a" := bytemap.VFloat a ]}.

Definition update (s : list byte) (ts : Z) (a : float) (truncateBefore : Z)
  : go (list byte) :=
  sequence.update (Metadata:=unit) s ts (point (f64.of_float a)) tt e minute
                  truncateBefore.

Definition run (E truncateBefore : Z) : go (list byte) :=
  s ← update [] E 1 truncateBefore;
  s ← update s (E + 2 * minute) 2 truncateBefore;
  s ← update s (E - 1 * minute) 3 truncateBefore;
  update s (E - 3 * minute) 4 truncateBefore.


End scenarioS1.

(** Two keys, one a prefix of the other, and a memstore with a removal
    mark. *)
Module scenarioTree.
Import bytetree.

Definition abc : list byte := ["a"; "b"; "c"]%byte.
Definition ab : list byte := ["a"; "b"]%byte.

(** A callback that keeps every node and records what it is given. *)
Definition collect (key : list byte) (data : list Sequence)
    (s : list (list byte * list Sequence)) : bool * list (list byte * list Sequence) :=
  (true, s ++ [(key, data)]).

(** A callback that removes every node it is given. *)
Definition drop_all (key : list byte) (data : list Sequence) (s : unit) : bool * unit :=
  (false, s).

(** The memstore of [scenario], every key of it removed for the context 7. *)
Definition marked : Tree :=
  match Walk drop_all scenario.memStore 7 tt with
  | Some (bt, _) => bt
  | None => scenario.memStore
  end.

End scenarioTree.

From Stdlib Require DecimalString.

(** ** The searches of the radix tree, seen from outside

    Notions for the statements about [Remove], [Update] and [Walk]: the
    pointer to the node that the search for a key ends at, the key that the
    labels on the way to a pointer spell, and the entries that a tree
    holds. *)

Module radix.
Import bytetree.

(** The search of [Remove] (the loop [nodeLoop]) among the edges [es],
    the first of which has the index [j]. *)
Definition locateIn (locate : node -> list byte -> option path) :=
  fix scan (key : list byte) (j : nat) (es : list edge) {struct es} : option path :=
    match es with
    | [] => None
    | e :: es' =>
        let labelLength := List.length (label e) in
        let keyLength := List.length key in
        let i := commonPrefix (label e) key in
        if (i =? keyLength)%nat && (keyLength =? labelLength)%nat then Some [j]
        else if (i =? labelLength)%nat && (labelLength <? keyLength)%nat then
          (fun p => j :: p) <$> locate (target e) (drop labelLength key)
        else scan key (S j) es'
    end.

(** The pointer to the node that [Remove] finds for [key] below [n]. *)
Fixpoint locate (n : node) (key : list byte) {struct n} : option path :=
  match n with
  | mkNode _ es _ _ => locateIn locate key 0%nat es
  end.

(** The search of [doUpdate] as far as it ends at a node that exists: the
    pointer to the node updated in place, or [None] where [doUpdate] splits
    an edge or adds one. *)
Definition hitIn (hit : node -> list byte -> option path) :=
  fix scan (key : list byte) (j : nat) (es : list edge) {struct es} : option path :=
    match es with
    | [] => None
    | e :: es' =>
        let labelLength := List.length (label e) in
        let keyLength := List.length key in
        let i := commonPrefix (label e) key in
        if (i =? keyLength)%nat && (keyLength =? labelLength)%nat then Some [j]
        else if (i =? labelLength)%nat && (labelLength <? keyLength)%nat then
          (fun p => j :: p) <$> hit (target e) (drop labelLength key)
        else if (0 <? i)%nat then None
        else scan key (S j) es'
    end.

Fixpoint hit (n : node) (key : list byte) {struct n} : option path :=
  match n with
  | mkNode _ es _ _ => hitIn hit key 0%nat es
  end.

(** An edge that both searches pass by for [key]. *)
Definition passed (key : list byte) (e : edge) : Prop :=
  commonPrefix (label e) key = 0%nat /\ label e <> [].

(** [Remove] in terms of the pointer: the data of the node found and the
    mark set on it, or nil. *)
Definition removeAt (ctx : Z) (n : node) (key : list byte) : list Sequence * node :=
  match locate n key with
  | Some p =>
      match deref n p with
      | Some t =>
          if wasRemovedFor t ctx then ([], n)
          else (data t, store (fun c => doRemoveFor c ctx) n p)
      | None => ([], n)
      end
  | None => ([], n)
  end.

(** The labels on the way from [n] to the pointer [p], one after the
    other. *)
Fixpoint pathKey (n : node) (p : path) {struct p} : list byte :=
  match p with
  | [] => []
  | i :: p' =>
      match edges n !! i with
      | Some e => label e ++ pathKey (target e) p'
      | None => []
      end
  end.

(** The entries of the tree below [n]: the key and the data of every node
    whose data is not nil, parents first. *)
Fixpoint entries (n : node) : list (list byte * list Sequence) :=
  match n with
  | mkNode k es d _ =>
      (if bool_decide (d = []) then [] else [(k, d)])
      ++ (fix below (es : list edge) : list (list byte * list Sequence) :=
            match es with
            | [] => []
            | e :: es' => entries (target e) ++ below es'
            end) es
  end.

(** The entries not removed for [ctx]. *)
Fixpoint visible (ctx : Z) (n : node) : list (list byte * list Sequence) :=
  match n with
  | mkNode k es d r =>
      (if bool_decide (d = []) || wasRemovedFor n ctx then [] else [(k, d)])
      ++ (fix below (es : list edge) : list (list byte * list Sequence) :=
            match es with
            | [] => []
            | e :: es' => visible ctx (target e) ++ below es'
            end) es
  end.

Section Updated.
Context {Field TSParams Metadata Duration Time : Type}.
Variable SequenceUpdate :
  Sequence -> TSParams -> Metadata -> Field -> Duration -> Time -> Sequence.
Variable fields : list Field.
Variable resolution : Duration.
Variable truncateBefore : Time.

(** The data that [node.doUpdate] leaves in a node whose data was [old]:
    as many sequences as there are fields at least, the sequence of every
    field updated. *)
Definition updatedData (vals : TSParams) (metadata : Metadata) (old : list Sequence)
  : list Sequence :=
  imap (fun i current =>
          match fields !! i with
          | Some field =>
              SequenceUpdate current vals metadata field resolution truncateBefore
          | None => current
          end)
       (if (List.length old <? List.length fields)%nat
        then old ++ replicate (List.length fields - List.length old) []
        else old).

End Updated.

Definition visibleAt (ctx : Z) (rt : node) (p : path) : list (list byte * list Sequence) :=
  match deref rt p with
  | Some n => visible ctx n
  | None => []
  end.

End radix.

(** ** More of the Go library *)

Module golib2.

(** [int64(z)] and [int(z)]: the wrap-around of 64-bit signed arithmetic. *)
Definition int64 (z : Z) : Z := (z + 2 ^ 63) mod 2 ^ 64 - 2 ^ 63.

(** [bytes.Compare(a, b)] *)
Fixpoint Compare (a b : list byte) : Z :=
  match a, b with
  | [], [] => 0
  | [], _ :: _ => -1
  | _ :: _, [] => 1
  | x :: a', y :: b' =>
      if bytes.to_Z x <? bytes.to_Z y then -1
      else if bytes.to_Z y <? bytes.to_Z x then 1
      else Compare a' b'
  end.

(** The verb [%d] of [fmt.Sprintf]. *)
Definition Sprintf_d (z : Z) : string :=
  DecimalString.NilZero.string_of_int (Z.to_int z).

(** [s], with zeros in front up to the width [w]. *)
Definition pad0 (w : nat) (s : string) : string :=
  string_of_list_ascii (replicate (w - String.length s) "0"%char) +:+ s.

(** The verb [%020d]: the sign, if any, counts in the width. *)
Definition Sprintf_020d (z : Z) : string :=
  let digits := DecimalString.NilZero.string_of_uint (N.to_uint (Z.to_N (Z.abs z))) in
  if z <? 0 then "-" +:+ pad0 19 digits else pad0 20 digits.

End golib2.

(** ** The flusher (rowstore.go, [processFlushes]) *)

Module processFlushes.
Import binaryEncoding.

(** The closure [chunk] handed to [emsort]: the next row of the reader [r],
    its length in front, the error returned, and what is left of the
    reader. A short read leaves the bytes missing as zeros. *)
Definition chunk (r : list byte) : go (list byte * option string * list byte) :=
  match golib.ReadUint r 8 with
  | golib.EOF => Done ([], Some "EOF", r)
  | golib.ErrUnexpectedEOF => Done ([], Some "unexpected EOF", [])
  | golib.ReadOk rowLength r =>
      if 2 ^ 63 <=? rowLength then Panic "makeslice: len out of range" else
      let _row := bytes.make rowLength in
      _row ← PutUint64 _row rowLength;
      row ← bytes.from width64bits _row;
      match golib.ReadFull r (length row) with
      | golib.ReadOk read r => Done (take 8 _row ++ read, None, r)
      | golib.EOF => Done (_row, Some "EOF", r)
      | golib.ErrUnexpectedEOF =>
          Done (take 8 _row ++ r ++ drop (length r) row, Some "unexpected EOF", [])
      end
  end.

(** The closure [less] handed to [emsort]. *)
Definition less (a b : list byte) : bool := golib2.Compare a b <? 0.

(** The name of the file that a flush leaves: [filepath.Join] of the
    directory and the name built by [fmt.Sprintf]. ([filepath.Join] also
    cleans the directory part, which the base name does not depend on.) *)
Definition newFileStoreName (dir : string) (unixNano : Z) : string :=
  dir +:+ "/" +:+
  ("filestore_" +:+ golib2.Sprintf_020d unixNano +:+ "_"
   +:+ golib2.Sprintf_d fileStore.CurrentFileVersion +:+ ".dat").

End processFlushes.

(** ** The inserter (rowstore.go, [processInserts]) *)

Module processInserts.

Section ProcessInserts.
(** Modelled from the spec: the memstore type [tree] of package zenodb is
    not among the sources; [newByteTree], [length], [bytes] and [update] are
    taken as given. Durations are counts of nanoseconds. *)
Context {tree Key Vals Time : Type}.
Variable newByteTree : tree.
Variable length bytes : tree -> Z.
Variable update : tree -> Time -> Key -> Vals -> tree.

(** [rs.opts] *)
Variable maxMemStoreBytes minFlushLatency maxFlushLatency : Z.

Record flushRequest := mkFlushRequest { idx : Z; memstore : tree; sort : bool }.

(** The local variables of [processInserts] and what it shares with the
    other goroutines: the map [rs.memStores], the requests sent on
    [rs.flushes] so far, and how many of them [processFlushes] has
    finished. The timer is kept as the duration it was last reset to. *)
Record state := mkState {
  memStores : gmap Z tree;
  memStoreIdx : Z;
  currentMemStore : tree;
  flushIdx : Z;
  flushTimer : Z;
  sent : list flushRequest;
  finished : nat
}.

Definition hour : Z := 3600 * 1000000000.

(** The state before the loop. *)
Definition init : state :=
  mkState {[ 0 := newByteTree ]} 0 newByteTree 0 maxFlushLatency [] 0.

(** The closure [flush]. *)
Definition flush (st : state) : state :=
  (* Temporarily disable flush timer while we're flushing *)
  let flushTimer := 100000 * hour in
  if length (currentMemStore st) =? 0 then
    (* nothing to flush *)
    mkState (memStores st) (memStoreIdx st) (currentMemStore st) (flushIdx st)
            flushTimer (sent st) (finished st)
  else
    let shouldSort := Z.rem (flushIdx st) 10 =? 0 in
    let fr := mkFlushRequest (memStoreIdx st) (currentMemStore st) shouldSort in
    let flushIdx := golib2.int64 (flushIdx st + 1) in
    let currentMemStore := newByteTree in
    let memStoreIdx := golib2.int64 (memStoreIdx st + 1) in
    mkState (<[memStoreIdx := currentMemStore]> (memStores st)) memStoreIdx
            currentMemStore flushIdx flushTimer (sent st ++ [fr]) (finished st).

(** The wait that the timer is reset to when a flush has finished. *)
Definition flushWait (flushDuration : Z) : Z :=
  let flushWait := golib2.int64 (flushDuration * 10) in
  if maxFlushLatency <? flushWait then maxFlushLatency
  else if flushWait <? minFlushLatency then minFlushLatency
  else flushWait.

(** What the goroutines of the row store do to that state: the three
    cases of the [select] of [processInserts], and the deletion of a
    flushed memstore at the end of a round of [processFlushes], which takes
    the requests in the order sent. *)
Inductive event : Type :=
| Insert (truncateBefore : Time) (key : Key) (vals : Vals)
| TimerFired
| FlushFinished (flushDuration : Z)
| Flushed.

Definition step (st : state) (ev : event) : state :=
  match ev with
  | Insert truncateBefore key vals =>
      (* the memstore updated is the one that rs.memStores points to *)
      let current := update (currentMemStore st) truncateBefore key vals in
      let st := mkState (<[memStoreIdx st := current]> (memStores st)) (memStoreIdx st)
                        current (flushIdx st) (flushTimer st) (sent st) (finished st) in
      if maxMemStoreBytes <=? bytes current then flush st else st
  | TimerFired => flush st
  | FlushFinished flushDuration =>
      mkState (memStores st) (memStoreIdx st) (currentMemStore st) (flushIdx st)
              (flushWait flushDuration) (sent st) (finished st)
  | Flushed =>
      match sent st !! finished st with
      | Some req =>
          mkState (delete (idx req) (memStores st)) (memStoreIdx st)
                  (currentMemStore st) (flushIdx st) (flushTimer st) (sent st)
                  (S (finished st))
      | None => st
      end
  end.

Definition run (evs : list event) : state := foldl step init evs.

(** What holds of the state after [n] events. *)
Definition inv (n : nat) (st : state) : Prop :=
  (List.length (sent st) <= n)%nat
  /\ memStoreIdx st = Z.of_nat (List.length (sent st))
  /\ flushIdx st = Z.of_nat (List.length (sent st))
  /\ (finished st <= List.length (sent st))%nat
  /\ memStores st !! memStoreIdx st = Some (currentMemStore st)
  /\ (forall k, is_Some (memStores st !! k)
                <-> Z.of_nat (finished st) <= k <= memStoreIdx st)
  /\ (forall i fr, sent st !! i = Some fr ->
        idx fr = Z.of_nat i
        /\ sort fr = (Z.of_nat i mod 10 =? 0)
        /\ length (memstore fr) <> 0
        /\ ((finished st <= i)%nat -> memStores st !! idx fr = Some (memstore fr))).


End ProcessInserts.

End processInserts.

(** ** The files of the directory (rowstore.go, [openRowStore] and
    [removeOldFiles]) *)

Module rowStoreFiles.

Section Files.
(** [os.FileInfo], as far as it is used; [Sub] is [time.Time.Sub], in
    nanoseconds, and [Join] is [filepath.Join]. *)
Context {Time : Type}.
Variable Sub : Time -> Time -> Z.
Variable Join : string -> string -> string.

Record FileInfo := mkFileInfo { Name : string; ModTime : Time }.

Definition minute : Z := 60 * 1000000000.

(** [openRowStore]: the file that the row store starts from, given the
    listing of the directory. *)
Definition existingFileName (dir : string) (files : list FileInfo) : string :=
  if (0 <? List.length files)%nat then
    match files !! (List.length files - 1)%nat with
    | Some file => Join dir (Name file)
    | None => ""
    end
  else "".

(** One round of [removeOldFiles]: the names handed to [os.Remove], in
    order, given the listing of the directory ([nil] where [ReadDir]
    failed) and the clock reading [now]. *)
Definition removeOldFiles (dir : string) (files : list FileInfo) (now : Time)
  : list string :=
  foldl (fun removed i =>
           match files !! i with
           | Some file =>
               let name := Join dir (Name file) in
               (* To be safe, we wait a little before deleting files *)
               if 5 * minute <? Sub now (ModTime file) then removed ++ [name]
               else removed
           | None => removed
           end)
        [] (seq 0 (Z.to_nat (Z.of_nat (List.length files) - 1))).

(** A file modified more than five minutes ago. *)
Definition old (now : Time) (file : FileInfo) : bool :=
  5 * minute <? Sub now (ModTime file).

End Files.

End rowStoreFiles.

(** ** The columns that the pass over the memstores is to deliver *)

Module walkPass.
Import fileStore.

Section WalkPass.
Context {Expr Duration Time : Type}.
Variable merge : sequence -> sequence -> Expr -> Duration -> Time -> sequence.
Variable Fields : list (Field (Expr:=Expr)).
Variable Resolution : Duration.
Variable truncateBefore : Time.

(** The column [i] of [columns] after the iterations before [upto]: merged
    with the column [i] of [columns2] where there is one. *)
Definition mergedUpTo (upto : nat) (columns2 : list sequence) (i : nat) (c : sequence)
  : sequence :=
  if (i <? upto)%nat then
    match columns2 !! i, Fields !! i with
    | Some c2, Some f => merge c c2 (FExpr f) Resolution truncateBefore
    | _, _ => c
    end
  else c.

(** The columns of an entry merged with those of a later memstore: column
    by column, then the columns that the later memstore has more. *)
Definition mergedColumns (columns columns2 : list sequence) : list sequence :=
  imap (mergedUpTo (List.length columns) columns2) columns
  ++ drop (List.length columns) columns2.

End WalkPass.

End walkPass.

(** ** Package math *)

Module math.

(** [math.IsNaN]: [f != f]. The bits of a NaN that a float64 addition
    leaves are the hardware's choice among its operands' payloads; the
    statements about sums are made for operands that are no NaN. *)
Definition IsNaN (f : float64) : bool := negb (f64.eqb f f).

End math.

(** * Facts about bytes and fixed-width integers *)

Lemma byte_to_Z_range (b : byte) : 0 <= bytes.to_Z b < 256.
Proof.
  unfold bytes.to_Z. pose proof (Byte.to_N_bounded b) as Hb.
  lia.
Qed.

Lemma byte_of_to_Z (b : byte) : bytes.of_Z (bytes.to_Z b) = b.
Proof.
  unfold bytes.of_Z. pose proof (byte_to_Z_range b) as Hr.
  rewrite Z.mod_small by lia. unfold bytes.to_Z.
  rewrite N2Z.id, Byte.of_to_N. reflexivity.
Qed.

Lemma byte_to_of_Z (z : Z) : bytes.to_Z (bytes.of_Z z) = z mod 256.
Proof.
  unfold bytes.of_Z, bytes.to_Z.
  pose proof (Z.mod_pos_bound z 256 ltac:(lia)) as Hm.
  destruct (Byte.of_N (Z.to_N (z mod 256))) as [b|] eqn:Hb.
  - apply Byte.to_of_N in Hb. rewrite Hb. lia.
  - exfalso. apply Byte.of_N_None_iff in Hb. lia.
Qed.

Lemma le_bytes_length n z : length (bytes.le_bytes n z) = n.
Proof. revert z. induction n as [|n IH]; intros z; simpl; [done | by rewrite IH]. Qed.

Lemma le_value_range bs : 0 <= bytes.le_value bs < 256 ^ Z.of_nat (length bs).
Proof.
  induction bs as [|b bs IH]; [simpl; lia |].
  cbn [bytes.le_value length]. rewrite Nat2Z.inj_succ, Z.pow_succ_r by lia.
  pose proof (byte_to_Z_range b). lia.
Qed.

Lemma le_value_bytes n z : bytes.le_value (bytes.le_bytes n z) = z mod 256 ^ Z.of_nat n.
Proof.
  revert z. induction n as [|n IH]; intros z.
  - simpl. by rewrite Z.mod_1_r.
  - cbn [bytes.le_bytes bytes.le_value]. rewrite IH, byte_to_of_Z.
    rewrite Nat2Z.inj_succ, Z.pow_succ_r by lia.
    rewrite Z.rem_mul_r by lia. lia.
Qed.

Lemma le_bytes_value bs : bytes.le_bytes (length bs) (bytes.le_value bs) = bs.
Proof.
  induction bs as [|b bs IH]; [done |].
  cbn [length bytes.le_bytes bytes.le_value].
  pose proof (byte_to_Z_range b) as Hb.
  f_equal.
  - unfold bytes.of_Z.
    replace ((bytes.to_Z b + 256 * bytes.le_value bs) mod 256) with (bytes.to_Z b).
    + unfold bytes.to_Z. by rewrite N2Z.id, Byte.of_to_N.
    + rewrite (Z.mul_comm 256), Z.mod_add by lia. by rewrite Z.mod_small.
  - replace ((bytes.to_Z b + 256 * bytes.le_value bs) / 256) with (bytes.le_value bs); [done |].
    rewrite (Z.mul_comm 256), Z.div_add by lia.
    rewrite (Z.div_small (bytes.to_Z b)) by lia. lia.
Qed.

Lemma le_value_bytes_small n z :
  0 <= z < 256 ^ Z.of_nat n -> bytes.le_value (bytes.le_bytes n z) = z.
Proof. intros Hz. rewrite le_value_bytes. by apply Z.mod_small. Qed.

(** * Facts about float64 *)

Lemma SFadd_comm (x y : spec_float) : SF64add x y = SF64add y x.
Proof.
  unfold SF64add, SFadd.
  destruct x as [sx|sx| |sx mx ex], y as [sy|sy| |sy my ey];
    try reflexivity; try (destruct sx, sy; reflexivity).
  rewrite (Z.min_comm ex ey). f_equal. apply Z.add_comm.
Qed.

Lemma float_add_comm (x y : float) : (x + y)%float = (y + x)%float.
Proof. apply Prim2SF_inj. rewrite !add_spec. apply SFadd_comm. Qed.

Lemma f64_add_comm (x y : float64) : f64.add x y = f64.add y x.
Proof. unfold f64.add. by rewrite float_add_comm. Qed.

Lemma digits2_pos_bound (m : positive) : Z.pos m < 2 ^ Z.pos (digits2_pos m).
Proof.
  induction m as [m IH|m IH|]; cbn [digits2_pos].
  - rewrite Pos2Z.inj_succ, Z.pow_succ_r by lia. lia.
  - rewrite Pos2Z.inj_succ, Z.pow_succ_r by lia. lia.
  - simpl. lia.
Qed.

Lemma bounded_binary64 (m : positive) (e : Z) :
  bounded prec emax m e = true ->
  Z.pos m < 2 ^ 53 /\ -1074 <= e <= 971.
Proof.
  unfold bounded, canonical_mantissa, fexp, emin, prec, emax.
  intros [Hc He]%andb_true_iff.
  apply Z.eqb_eq in Hc. apply Z.leb_le in He.
  pose proof (digits2_pos_bound m) as Hd.
  assert (Z.pos (digits2_pos m) <= 53) as Hle by lia.
  split; [|lia].
  eapply Z.lt_le_trans; [exact Hd |].
  apply Z.pow_le_mono_r; lia.
Qed.

Lemma f64_encode_range (f : float) : 0 <= f64.encode f < 2 ^ 64.
Proof.
  unfold f64.encode. pose proof (Prim2SF_valid f) as Hv.
  destruct (Prim2SF f) as [s|s| |s m e]; unfold f64.sign_bit.
  - destruct s; lia.
  - destruct s; lia.
  - lia.
  - cbn [SpecFloat.valid_binary] in Hv. apply bounded_binary64 in Hv as [Hm He].
    destruct (Z.ltb_spec (Z.pos m) (2 ^ 52)); destruct s; nia.
Qed.

Lemma f64_add_range (x y : float64) : 0 <= f64.add x y < 2 ^ 64.
Proof. apply f64_encode_range. Qed.

(** * AVG *)

Lemma bytes_from_ok (i : Z) (s : list byte) :
  0 <= i <= Z.of_nat (length s) -> bytes.from i s = Done (drop (Z.to_nat i) s).
Proof.
  intros Hi. unfold bytes.from.
  destruct (Z.leb_spec 0 i), (Nat.leb_spec (Z.to_nat i) (length s)); simpl; done || lia.
Qed.

Lemma bytes_from_short (i : Z) (s : list byte) :
  Z.of_nat (length s) < i -> bytes.from i s = Panic "slice bounds out of range".
Proof.
  intros Hi. unfold bytes.from.
  destruct (Z.leb_spec 0 i), (Nat.leb_spec (Z.to_nat i) (length s)); simpl; done || lia.
Qed.

Ltac expose_bytes b :=
  do 17 (destruct b as [|? b]; [simpl in *; lia |]).

Lemma avg_load_short (b : list byte) :
  (length b < 17)%nat -> expr.load b = Panic "slice bounds out of range".
Proof.
  intros Hb. unfold expr.load. rewrite (bytes_from_short (binaryEncoding.width64bits * 2 + 1)); [reflexivity |].
  unfold binaryEncoding.width64bits. lia.
Qed.

Lemma avg_load_set (b : list byte) :
  (17 <= length b)%nat -> b !! 0%nat = Some Byte.x01 ->
  expr.load b =
    Done (bytes.le_value (take 8 (drop 1 b)), bytes.le_value (take 8 (drop 9 b)),
          true, drop 17 b).
Proof.
  intros Hb H0. unfold expr.load.
  expose_bytes b. simpl in H0. injection H0 as ->.
  reflexivity.
Qed.

Lemma avg_load_unset (b : list byte) :
  (17 <= length b)%nat -> b !! 0%nat <> Some Byte.x01 ->
  expr.load b = Done (f64.zero, f64.zero, false, drop 17 b).
Proof.
  intros Hb H0. unfold expr.load.
  expose_bytes b. simpl in H0.
  cbv -[Byte.eqb bytes.le_value drop]. destruct (Byte.eqb b0 "001") eqn:Heq; [|reflexivity].
  apply Byte.byte_dec_bl in Heq. congruence.
Qed.

Lemma avg_save_ok (b : list byte) (count total : float64) :
  (17 <= length b)%nat ->
  expr.save b count total = Done (expr.encoded count total (drop 17 b), drop 17 b).
Proof.
  intros Hb. unfold expr.save.
  expose_bytes b. reflexivity.
Qed.

Lemma avg_load_encoded (c t : float64) (rest : list byte) :
  0 <= c < 2 ^ 64 -> 0 <= t < 2 ^ 64 ->
  expr.load (expr.encoded c t rest) = Done (c, t, true, rest).
Proof.
  intros Hc Ht.
  rewrite avg_load_set.
  - unfold expr.encoded.
    replace (take 8 (drop 1 _)) with (bytes.le_bytes 8 c).
    2:{ cbn [drop]; rewrite ?drop_0. rewrite take_app_length'; [done | by rewrite le_bytes_length]. }
    replace (take 8 (drop 9 _)) with (bytes.le_bytes 8 t).
    2:{ change 9%nat with (1 + 8)%nat. rewrite <- drop_drop. cbn [drop]; rewrite ?drop_0.
        rewrite drop_app_length' by (by rewrite le_bytes_length).
        rewrite take_app_length'; [done | by rewrite le_bytes_length]. }
    replace (drop 17 _) with rest.
    2:{ change 17%nat with (1 + (8 + 8))%nat. rewrite <- !drop_drop. cbn [drop]; rewrite ?drop_0.
        rewrite drop_app_length' by (by rewrite le_bytes_length).
        rewrite drop_app_length' by (by rewrite le_bytes_length). done. }
    rewrite !le_value_bytes_small by (change (256 ^ Z.of_nat 8) with (2 ^ 64); lia).
    reflexivity.
  - unfold expr.encoded. cbn [length]. rewrite !length_app, !le_bytes_length. lia.
  - reflexivity.
Qed.

Lemma avg_load_inv (b : list byte) c t s r :
  expr.load b = Done (c, t, s, r) ->
  (17 <= length b)%nat /\ r = drop 17 b /\ 0 <= c < 2 ^ 64 /\ 0 <= t < 2 ^ 64.
Proof.
  intros Hl.
  destruct (Nat.lt_ge_cases (length b) 17) as [Hs|Hs].
  { rewrite avg_load_short in Hl by done. discriminate. }
  split; [done |].
  destruct (decide (b !! 0%nat = Some Byte.x01)) as [H0|H0].
  - rewrite avg_load_set in Hl by done. injection Hl as <- <- <- <-.
    split; [done |].
    pose proof (le_value_range (take 8 (drop 1 b))) as H1.
    pose proof (le_value_range (take 8 (drop 9 b))) as H2.
    rewrite length_take, length_drop in H1, H2.
    replace (8 `min` (length b - 1))%nat with 8%nat in H1 by lia.
    replace (8 `min` (length b - 9))%nat with 8%nat in H2 by lia.
    change (256 ^ Z.of_nat 8) with (2 ^ 64) in *. done.
  - rewrite avg_load_unset in Hl by done. injection Hl as <- <- <- <-.
    split; [done |]. unfold f64.zero. lia.
Qed.

Lemma avg_merged_eq {E} (e : expr.avg E) (d x y : list byte) cx tx sx rx cy ty sy ry :
  (17 <= length d)%nat ->
  expr.load x = Done (cx, tx, sx, rx) ->
  expr.load y = Done (cy, ty, sy, ry) ->
  expr.merged e d x y =
    Done (match sx, sy with
          | false, false => d
          | false, true => expr.encoded cy ty (drop 17 d)
          | true, false => expr.encoded cx tx (drop 17 d)
          | true, true =>
              expr.encoded (f64.add cx cy) (f64.add tx ty) (drop 17 d)
          end).
Proof.
  intros Hd Hx Hy. unfold expr.merged, expr.merge. rewrite Hx, Hy.
  destruct sx, sy; cbn [mbind go_bind negb]; rewrite ?avg_save_ok by done;
    try reflexivity.
  rewrite (bytes_from_ok (binaryEncoding.width64bits * 2 + 1));
    [reflexivity | unfold binaryEncoding.width64bits; lia].
Qed.

Lemma bytes_make_length (w : Z) : length (bytes.make w) = Z.to_nat w.
Proof. unfold bytes.make. apply length_replicate. Qed.

Lemma avg_load_zeroed (w : Z) :
  17 <= w ->
  expr.load (bytes.make w) =
    Done (f64.zero, f64.zero, false, drop 17 (bytes.make w)).
Proof.
  intros Hw. apply avg_load_unset.
  - rewrite bytes_make_length. lia.
  - unfold bytes.make. destruct (Z.to_nat w) as [|n] eqn:Hn; [lia |]. simpl. congruence.
Qed.

Lemma avg_encoded_length c t rest :
  length (expr.encoded c t rest) = (17 + length rest)%nat.
Proof.
  unfold expr.encoded. cbn [length]. rewrite !length_app, !le_bytes_length. lia.
Qed.

(** C5. The encoded width of AVG over any wrapped expression is
    16 + the wrapped width + 1; [get] on a state that was set with count [c]
    and total [t] yields [t / c], and 0 when [c == 0]; [get] on a state that
    was not set yields (0, false). *)
Theorem avg_width_and_get {Metadata E : Type} `{!expr.Expr (Metadata:=Metadata) E}
    (e : expr.avg E) :
  expr.encodedWidth e = 16 + expr.EncodedWidth (expr.wrapped e) + 1
  /\ (forall (c t : float64) (rest : list byte),
        0 <= c < 2 ^ 64 -> 0 <= t < 2 ^ 64 ->
        expr.get e (expr.encoded c t rest) =
          Done (if f64.eqb c f64.zero then f64.zero else f64.div t c, true, rest))
  /\ (forall b : list byte,
        (17 <= length b)%nat -> b !! 0%nat <> Some Byte.x01 ->
        expr.get e b = Done (f64.zero, false, drop 17 b)).
Proof.
  split; [|split].
  - unfold expr.encodedWidth, binaryEncoding.width64bits. lia.
  - intros c t rest Hc Ht. unfold expr.get.
    rewrite avg_load_encoded by done. reflexivity.
  - intros b Hb H0. unfold expr.get.
    rewrite avg_load_unset by done. reflexivity.
Qed.

(** C4 (amended). AVG's merge into a zeroed destination is commutative
    provided that, when both states are set, none of their counts and
    totals is a NaN; if exactly one side was set the destination holds that
    side's count and total; if neither was set the destination is left as
    it was, unset. The two groupings of a three-way merge agree whenever at
    least one of the three states is unset; when all three are set the
    counts and totals are added in float64 in the order of the grouping. *)
Theorem avg_merge_laws {E : Type} (e : expr.avg E) (w : Z) (x y z : list byte)
    (cx tx : float64) (sx : bool) (rx : list byte)
    (cy ty : float64) (sy : bool) (ry : list byte)
    (cz tz : float64) (sz : bool) (rz : list byte) :
  17 <= w ->
  expr.load x = Done (cx, tx, sx, rx) ->
  expr.load y = Done (cy, ty, sy, ry) ->
  expr.load z = Done (cz, tz, sz, rz) ->
  let d := bytes.make w in
  ((sx && sy = true ->
    math.IsNaN cx || math.IsNaN tx || math.IsNaN cy || math.IsNaN ty = false) ->
   expr.merged e d x y = expr.merged e d y x)
  /\ (sx && sy && sz = false ->
      expr.merge3_left e d x y z = expr.merge3_right e d x y z)
  /\ (sx && sy && sz = true ->
      expr.merge3_left e d x y z =
        Done (expr.encoded (f64.add (f64.add cx cy) cz)
                           (f64.add (f64.add tx ty) tz) (drop 17 d))
      /\ expr.merge3_right e d x y z =
        Done (expr.encoded (f64.add cx (f64.add cy cz))
                           (f64.add tx (f64.add ty tz)) (drop 17 d)))
  /\ (sx = true -> sy = false ->
      exists d', expr.merged e d x y = Done d'
                 /\ expr.load d' = Done (cx, tx, true, drop 17 d))
  /\ (sx = false -> sy = true ->
      exists d', expr.merged e d x y = Done d'
                 /\ expr.load d' = Done (cy, ty, true, drop 17 d))
  /\ (sx = false -> sy = false ->
      expr.merged e d x y = Done d
      /\ expr.load d = Done (f64.zero, f64.zero, false, drop 17 d)).
Proof.
  intros Hw Hx Hy Hz d.
  assert (Hd : (17 <= length d)%nat) by (unfold d; rewrite bytes_make_length; lia).
  pose proof (avg_load_zeroed w Hw) as Hld. fold d in Hld.
  destruct (avg_load_inv _ _ _ _ _ Hx) as (_ & _ & Hcx & Htx).
  destruct (avg_load_inv _ _ _ _ _ Hy) as (_ & _ & Hcy & Hty).
  destruct (avg_load_inv _ _ _ _ _ Hz) as (_ & _ & Hcz & Htz).
  pose proof (f64_add_range cx cy) as Hcxy. pose proof (f64_add_range tx ty) as Htxy.
  pose proof (f64_add_range cy cz) as Hcyz. pose proof (f64_add_range ty tz) as Htyz.
  assert (Hen : forall c t, 0 <= c < 2 ^ 64 -> 0 <= t < 2 ^ 64 ->
            expr.load (expr.encoded c t (drop 17 d)) = Done (c, t, true, drop 17 d))
    by (intros; by apply avg_load_encoded).
  split; [|split; [|split; [|split; [|split]]]].
  - intros _.
    rewrite (avg_merged_eq e d x y _ _ _ _ _ _ _ _ Hd Hx Hy).
    rewrite (avg_merged_eq e d y x _ _ _ _ _ _ _ _ Hd Hy Hx).
    destruct sx, sy; try reflexivity.
    by rewrite (f64_add_comm cx cy), (f64_add_comm tx ty).
  - intros Hs. unfold expr.merge3_left, expr.merge3_right.
    rewrite (avg_merged_eq e d x y _ _ _ _ _ _ _ _ Hd Hx Hy).
    rewrite (avg_merged_eq e d y z _ _ _ _ _ _ _ _ Hd Hy Hz).
    cbn [mbind go_bind].
    destruct sx, sy, sz; try discriminate Hs;
      repeat first
        [ erewrite (avg_merged_eq e d _ _ _ _ _ _ _ _ _ _ Hd);
          [| eassumption || (apply Hen; assumption) ..]
        | reflexivity ].
  - intros Hs. unfold expr.merge3_left, expr.merge3_right.
    rewrite (avg_merged_eq e d x y _ _ _ _ _ _ _ _ Hd Hx Hy).
    rewrite (avg_merged_eq e d y z _ _ _ _ _ _ _ _ Hd Hy Hz).
    cbn [mbind go_bind].
    destruct sx, sy, sz; try discriminate Hs. split.
    + erewrite (avg_merged_eq e d _ _ _ _ _ _ _ _ _ _ Hd);
        [| by apply Hen | eassumption].
      reflexivity.
    + erewrite (avg_merged_eq e d _ _ _ _ _ _ _ _ _ _ Hd);
        [| eassumption | by apply Hen].
      reflexivity.
  - intros -> ->. eexists. split.
    + apply (avg_merged_eq e d x y _ _ _ _ _ _ _ _ Hd Hx Hy).
    + by apply Hen.
  - intros -> ->. eexists. split.
    + apply (avg_merged_eq e d x y _ _ _ _ _ _ _ _ Hd Hx Hy).
    + by apply Hen.
  - intros -> ->. split; [|done].
    apply (avg_merged_eq e d x y _ _ _ _ _ _ _ _ Hd Hx Hy).
Qed.

(** A concrete AVG over a field, with two set states of 17 bytes: count 1
    and total 2, count 1 and total 3. *)
Example avg_merge_laws_witness :
  let e : expr.avg expr.field := {| expr.wrapped := expr.FIELD "a" |} in
  let x := expr.encoded f64.one 0x4000000000000000 [] in
  let y := expr.encoded f64.one 0x4008000000000000 [] in
  expr.merged e (bytes.make 17) x y = expr.merged e (bytes.make 17) y x.
Proof.
  intros e x y.
  refine (proj1 (avg_merge_laws e 17 x y x
                   f64.one 0x4000000000000000 true []
                   f64.one 0x4008000000000000 true []
                   f64.one 0x4000000000000000 true [] _ _ _ _) _).
  - lia.
  - reflexivity.
  - reflexivity.
  - reflexivity.
  - intros _. vm_compute. reflexivity.
Defined.

(** C4, as stated, fails: with three set states of count 1 and totals 0.1,
    0.2 and 0.3 the two groupings of the merge leave different totals,
    0.6000000000000001 and 0.6. *)
Example avg_merge_not_associative :
  let e : expr.avg expr.field := {| expr.wrapped := expr.FIELD "a" |} in
  let d := bytes.make 17 in
  let x := expr.encoded f64.one 0x3FB999999999999A [] in
  let y := expr.encoded f64.one 0x3FC999999999999A [] in
  let z := expr.encoded f64.one 0x3FD3333333333333 [] in
  Z.of_nat (length x) = expr.encodedWidth (Metadata:=unit) e
  /\ expr.merge3_left e d x y z =
       Done (expr.encoded 0x4008000000000000 0x3FE3333333333334 [])
  /\ expr.merge3_right e d x y z =
       Done (expr.encoded 0x4008000000000000 0x3FE3333333333333 [])
  /\ expr.merge3_left e d x y z <> expr.merge3_right e d x y z.
Proof.
  cbv zeta. split; [reflexivity |]. split; [vm_compute; reflexivity |].
  split; [vm_compute; reflexivity |].
  vm_compute. discriminate.
Qed.

Example avg_width_and_get_witness :
  let e : expr.avg expr.field := {| expr.wrapped := expr.FIELD "a" |} in
  expr.get e (expr.encoded 0x4000000000000000 0x402C000000000000 []) =
    Done (if f64.eqb 0x4000000000000000 f64.zero then f64.zero
          else f64.div 0x402C000000000000 0x4000000000000000, true, []).
Proof.
  intros e.
  refine (proj1 (proj2 (avg_width_and_get (Metadata:=unit) e)) _ _ [] _ _); lia.
Defined.

(** Count 2 and total 14 average to 7; a zero count yields 0. *)
Example avg_get_7 :
  expr.get (E:=expr.field) {| expr.wrapped := expr.FIELD "a" |}
    (expr.encoded 0x4000000000000000 0x402C000000000000 []) =
  Done (0x401C000000000000, true, [])
  /\ f64.decode 0x401C000000000000 = 7%float
  /\ expr.calc f64.zero 0x402C000000000000 = f64.zero.
Proof. vm_compute. auto. Qed.

(** * bytemapParams *)

(** C10. [bytemapParams.Get] returns (0, false) for a field that is absent
    from the byte map, and (v, true) for a field stored with the float64
    value [v]. *)
Theorem bytemapParams_Get_spec (bmp : gmap string bytemap.value) (field : string) :
  (bmp !! field = None -> bytemapParams.Get bmp field = Done (f64.zero, false))
  /\ (forall v : float64,
        bmp !! field = Some (bytemap.VFloat v) ->
        bytemapParams.Get bmp field = Done (v, true)).
Proof.
  unfold bytemapParams.Get, bytemap.Get. split.
  - intros ->. reflexivity.
  - intros v ->. reflexivity.
Qed.

Example bytemapParams_Get_witness :
  bytemapParams.Get {[ "a" := bytemap.VFloat 0x401199999999999A ]} "b"
    = Done (f64.zero, false)
  /\ bytemapParams.Get {[ "a" := bytemap.VFloat 0x401199999999999A ]} "a"
    = Done (0x401199999999999A, true).
Proof.
  split.
  - apply (proj1 (bytemapParams_Get_spec _ "b")). reflexivity.
  - apply (proj2 (bytemapParams_Get_spec _ "a")). reflexivity.
Defined.

(** A value of another type makes the type assertion panic; a stored nil
    reads as absent. *)
Lemma bytemapParams_Get_other (bmp : gmap string bytemap.value) (field : string) :
  (bmp !! field = Some bytemap.VNil ->
   bytemapParams.Get bmp field = Done (f64.zero, false))
  /\ (forall s, bmp !! field = Some (bytemap.VString s) ->
      bytemapParams.Get bmp field =
        Panic "interface conversion: interface {} is not float64").
Proof.
  unfold bytemapParams.Get, bytemap.Get. split.
  - intros ->. reflexivity.
  - intros s ->. reflexivity.
Qed.

(** * The file store and the row store *)

Section MergeFileColumns.
Context {Expr Duration Time : Type}.
Variable merge : fileStore.sequence -> fileStore.sequence -> Expr -> Duration -> Time -> fileStore.sequence.
Variable Fields : list (fileStore.Field (Expr:=Expr)).
Variable Resolution : Duration.
Variable truncateBefore : Time.

Let step (shouldInclude : option (Z -> bool)) (columns2 : list fileStore.sequence)
    (acc : go (list fileStore.sequence * bool)) (i : nat) :=
  '(columns, includes) ← acc;
  inc ← fileStore.call shouldInclude (Z.of_nat i);
  if inc : bool then
    if (length columns2 <=? i)%nat then Done (columns, includes)
    else if (length columns <=? i)%nat then Panic "index out of range"
    else
      match Fields !! i with
      | Some f =>
          let c := default [] (columns !! i) in
          let c2 := default [] (columns2 !! i) in
          Done (<[i := merge c c2 (fileStore.FExpr f) Resolution truncateBefore]> columns,
                includes)
      | None => Panic "index out of range"
      end
  else Done (columns, includes).

Lemma mergeFileColumns_unfold sh columns columns2 inc :
  fileStore.mergeFileColumns merge Fields Resolution truncateBefore sh columns columns2 inc
  = foldl (step sh columns2) (Done (columns, inc))
          (seq 0 (max (length columns) (length columns2))).
Proof. reflexivity. Qed.

Lemma step_foldl_panic sh columns2 msg l :
  foldl (step sh columns2) (Panic msg) l = Panic msg.
Proof. induction l as [|i l IH]; [done |]. simpl. exact IH. Qed.

(** With every field included, a memstore entry with more columns than the
    row read from the file always ends the merge in a panic: the
    assignment [columns[i] = seq2] is out of range at [i = len(columns)]. *)
Lemma mergeFileColumns_wider_panics columns columns2 inc :
  (length columns < length columns2)%nat ->
  fileStore.mergeFileColumns merge Fields Resolution truncateBefore
    (Some (fun _ => true)) columns columns2 inc
  = Panic "index out of range".
Proof.
  intros Hlt. rewrite mergeFileColumns_unfold.
  replace (max (length columns) (length columns2)) with
    (length columns + (1 + (length columns2 - length columns - 1)))%nat by lia.
  rewrite !seq_app, !foldl_app. cbn [seq foldl Nat.add].
  set (n := length columns).
  assert (Hinv : foldl (step (Some (fun _ => true)) columns2) (Done (columns, inc)) (seq 0 n)
                 = Panic "index out of range"
                 \/ exists c b, foldl (step (Some (fun _ => true)) columns2)
                                  (Done (columns, inc)) (seq 0 n) = Done (c, b)
                                /\ length c = n).
  { generalize (seq 0 n). intros l.
    assert (Hgen : forall acc,
               (acc = Panic "index out of range"
                \/ exists c b, acc = Done (c, b) /\ length c = n) ->
               foldl (step (Some (fun _ => true)) columns2) acc l
                 = Panic "index out of range"
               \/ exists c b, foldl (step (Some (fun _ => true)) columns2) acc l
                                = Done (c, b) /\ length c = n).
    { induction l as [|i l IH]; intros acc Hacc; [exact Hacc |].
      cbn [foldl]. apply IH.
      destruct Hacc as [-> | (c & b & -> & Hc)]; [by left |].
      unfold step. cbn [mbind go_bind fileStore.call].
      destruct (length columns2 <=? i)%nat; [right; eauto |].
      destruct (length c <=? i)%nat; [by left |].
      destruct (Fields !! i); [| by left].
      right. eexists _, _. split; [reflexivity |]. by rewrite length_insert. }
    apply Hgen. right. eauto. }
  destruct Hinv as [-> | (c & b & -> & Hc)].
  - change (step (Some (fun _ => true)) columns2 (Panic "index out of range") n)
      with (Panic (A:=list fileStore.sequence * bool) "index out of range").
    apply step_foldl_panic.
  - replace (step (Some (fun _ => true)) columns2 (Done (c, b)) n)
      with (Panic (A:=list fileStore.sequence * bool) "index out of range").
    + apply step_foldl_panic.
    + unfold step. cbn [mbind go_bind fileStore.call Nat.add].
      destruct (Nat.leb_spec (length columns2) n); [lia |].
      destruct (Nat.leb_spec (length c) n); [done | lia].
Qed.

End MergeFileColumns.

(** C1 (the code at the failing input). An old file written under the
    schema [a] holds a row for the key [k] with one column; the memstore
    holds an entry for [k] with two columns, filled after the field [b] was
    added. [fileStore.iterate] over the two panics instead of delivering
    the row with the extra column. *)
Example iterate_wider_memstore_entry_panics :
  fileStore.iterate (Duration:=unit) (Time:=unit) (fun a b _ _ _ => a ++ b)
    [scenario.fa; scenario.fb] tt tt 77 scenario.record
    scenario.fileName (fileStore.Opened scenario.oldFile)
    [scenario.memStore] [] []
  = Panic "index out of range"
  /\ fst (bytetree.Remove scenario.memStore 77 scenario.keyK) = [["9"]; ["9"]]%byte
  /\ fileStore.iterate (Duration:=unit) (Time:=unit) (fun a b _ _ _ => a ++ b)
       [scenario.fa; scenario.fb] tt tt 77 scenario.record
       scenario.fileName (fileStore.Opened scenario.oldFile) [] [] []
     = Done ([(scenario.keyK, [["1"; "2"; "3"]%byte])], [], None).
Proof. vm_compute. auto. Qed.

(** ** Unknown fields in a query *)

Section ShouldInclude.
Context {Expr : Type}.

Lemma existsb_name (fields : list string) (name : string) :
  existsb (fun f => bool_decide (f = name)) fields = true <-> name ∈ fields.
Proof.
  rewrite existsb_exists. split.
  - intros (f & Hin & Heq). apply bool_decide_eq_true in Heq. subst f.
    by apply list_elem_of_In.
  - intros Hin. exists name. split; [by apply list_elem_of_In |].
    by apply bool_decide_eq_true.
Qed.

Lemma buildShouldInclude_none (fields : list string)
    (candidates : list (fileStore.Field (Expr:=Expr))) :
  fields <> [] ->
  (forall f, f ∈ fields -> f ∉ map fileStore.Name candidates) ->
  fileStore.buildShouldInclude fields candidates
  = (None, Some "Non of specified fields exists on table!").
Proof.
  intros Hne Hnone. unfold fileStore.buildShouldInclude.
  destruct fields as [|f0 fields]; [done |]. cbn [length Nat.eqb].
  set (sel := fun '(i, field) => _).
  assert (Hnil : omap sel (imap pair candidates) = []).
  { assert (Hall : forall x, x ∈ imap pair candidates -> sel x = None).
    { intros [i field] Hin. unfold sel.
      destruct (existsb _ _) eqn:Hex; [|done].
      apply existsb_exists in Hex as (f & Hf & Heq).
      apply bool_decide_eq_true in Heq. subst f.
      exfalso. apply (Hnone (fileStore.Name field)).
      - by apply list_elem_of_In.
      - apply list_elem_of_fmap. exists field. split; [done |].
        apply elem_of_lookup_imap in Hin as (j & y & Hy & Hj).
        injection Hy as -> ->. by eapply list_elem_of_lookup_2. }
    induction (imap pair candidates) as [|x l IH]; [done |].
    cbn [omap list_omap]. rewrite (Hall x) by left.
    apply IH. intros y Hy. apply Hall. by right. }
  rewrite Hnil. reflexivity.
Qed.

Lemma buildShouldInclude_named (fields : list string)
    (candidates : list (fileStore.Field (Expr:=Expr))) :
  fields = [] \/ (exists f, f ∈ fields /\ f ∈ map fileStore.Name candidates) ->
  exists sh, fileStore.buildShouldInclude fields candidates = (Some sh, None).
Proof.
  intros [-> | (f & Hf & Hc)]; [by eexists |].
  unfold fileStore.buildShouldInclude.
  destruct fields as [|f0 fields]; [by apply elem_of_nil in Hf |]. cbn [length Nat.eqb].
  set (sel := fun '(i, field) => _).
  apply list_elem_of_fmap in Hc as (field & -> & Hin).
  apply list_elem_of_lookup in Hin as [i Hi].
  assert (Hel : Z.of_nat i ∈ omap sel (imap pair candidates)).
  { apply list_elem_of_omap. exists (i, field). split.
    - apply elem_of_lookup_imap. by exists i, field.
    - unfold sel. by rewrite (proj2 (existsb_name _ _) Hf). }
  destruct (omap sel (imap pair candidates)) as [|x xs]; [by apply elem_of_nil in Hel |].
  by eexists.
Qed.

Lemma buildShouldInclude_error (fields : list string)
    (candidates : list (fileStore.Field (Expr:=Expr))) (sh : option (Z -> bool))
    (err : string) :
  fileStore.buildShouldInclude fields candidates = (sh, Some err) ->
  err = "Non of specified fields exists on table!".
Proof.
  unfold fileStore.buildShouldInclude.
  destruct (length fields =? 0)%nat; [done |].
  destruct (length _ =? 0)%nat; [| done].
  by intros [= _ <-].
Qed.

End ShouldInclude.

Section ReadRowsErrors.
Context {Expr Duration Time St : Type}.
Variable merge : fileStore.sequence -> fileStore.sequence -> Expr -> Duration -> Time -> fileStore.sequence.
Variable Fields : list (fileStore.Field (Expr:=Expr)).
Variable Resolution : Duration.
Variable truncateBefore : Time.
Variable ctx : Z.
Variable onRow : list byte -> list fileStore.sequence -> St -> St.

(** The errors that the loop over the rows of the file returns are those
    of reading a row. *)
Lemma readRows_errors (fuel : nat) :
  forall (r : list byte) (shF shM : option (Z -> bool))
         (memStores : list bytetree.Tree) (s : St)
         (s' : St) (memStores' : list bytetree.Tree) (e : string),
    fileStore.readRows merge Fields Resolution truncateBefore ctx onRow
      fuel r shF shM memStores s = Done (s', memStores', Some e) ->
    e = "Unexpected error reading row length"
    \/ e = "Unexpected error while reading row".
Proof.
  induction fuel as [|fuel IH]; intros r shF shM memStores s s' memStores' e Hrows;
    [discriminate Hrows |].
  cbn [fileStore.readRows] in Hrows.
  destruct (golib.ReadUint r 8) as [rowLength r1| |].
  - destruct (2 ^ 63 <=? rowLength); [done |].
    destruct (rowLength <? binaryEncoding.width64bits); [done |].
    destruct (golib.ReadFull r1 _) as [row r2| |].
    + destruct (fileStore.readRow row shF) as [[[key columns] includes]|msg];
        [| done].
      cbn [mbind go_bind] in Hrows.
      destruct (foldl _ _ _) as [[[columns' includes'] memStores1]|msg]; [| done].
      cbn [mbind go_bind] in Hrows.
      by eapply IH.
    + injection Hrows as _ _ <-. by right.
    + injection Hrows as _ _ <-. by right.
  - done.
  - injection Hrows as _ _ <-. by left.
Qed.

End ReadRowsErrors.

(** C8 (amended). When the file exists and its header is read and
    reconciled with the table, an [iterate] with a non-empty list of
    fields that names no field of the table, or no field of the header of
    the file, returns the error "Non of specified fields exists on table!"
    before any row is delivered: the state of the callback and the
    memstores are as they were. In every other case, that of an empty
    list and that of a list naming a field of the table and a field of the
    header, [iterate] does not return this error, whatever other names the
    list holds. *)
Theorem iterate_no_known_field_error {Expr Duration Time St : Type}
    (merge : fileStore.sequence -> fileStore.sequence -> Expr -> Duration -> Time -> fileStore.sequence)
    (Fields : list (fileStore.Field (Expr:=Expr))) (Resolution : Duration)
    (truncateBefore : Time) (ctx : Z)
    (onRow : list byte -> list fileStore.sequence -> St -> St)
    (filename : string) (r : list byte) (memStores : list bytetree.Tree)
    (fields : list string) (s : St)
    (fileFields : list (fileStore.Field (Expr:=Expr))) (rows : list byte) :
  fileStore.readHeader Fields filename r = Done (inl (fileFields, rows)) ->
  (fields <> [] ->
   (forall f, f ∈ fields -> f ∉ map fileStore.Name Fields)
   \/ (forall f, f ∈ fields -> f ∉ map fileStore.Name fileFields) ->
   fileStore.iterate merge Fields Resolution truncateBefore ctx onRow
     filename (fileStore.Opened r) memStores fields s
   = Done (s, memStores, Some "Non of specified fields exists on table!"))
  /\ (fields = []
      \/ ((exists f, f ∈ fields /\ f ∈ map fileStore.Name Fields)
          /\ (exists f, f ∈ fields /\ f ∈ map fileStore.Name fileFields)) ->
      forall (s' : St) (memStores' : list bytetree.Tree),
        fileStore.iterate merge Fields Resolution truncateBefore ctx onRow
          filename (fileStore.Opened r) memStores fields s
        <> Done (s', memStores', Some "Non of specified fields exists on table!")).
Proof.
  intros Hhdr. split.
  - intros Hne Hnone. unfold fileStore.iterate.
    rewrite Hhdr. cbn [mbind go_bind].
    destruct (fileStore.buildShouldInclude fields Fields) as [shM [err|]] eqn:HM.
    { by rewrite (buildShouldInclude_error _ _ _ _ HM). }
    destruct Hnone as [Hnone | Hnone].
    { rewrite (buildShouldInclude_none fields Fields Hne Hnone) in HM. discriminate HM. }
    by rewrite (buildShouldInclude_none fields fileFields Hne Hnone).
  - intros Hnamed s' memStores'. unfold fileStore.iterate.
    rewrite Hhdr. cbn [mbind go_bind].
    destruct (buildShouldInclude_named fields Fields) as [shM ->];
      [destruct Hnamed as [-> | [H _]]; [by left | by right] |].
    destruct (buildShouldInclude_named fields fileFields) as [shF ->];
      [destruct Hnamed as [-> | [_ H]]; [by left | by right] |].
    destruct (fileStore.readRows _ _ _ _ _ _ _ _ _ _ _ _)
      as [[[s1 memStores1] [e|]]|msg] eqn:Hrows; cbn [mbind go_bind]; [| | done].
    + intros [= _ _ ->].
      by destruct (readRows_errors _ _ _ _ _ _ _ _ _ _ _ _ _ _ _ Hrows).
    + by destruct (fileStore.walkMemStores _ _ _ _ _ _ _ _ _) as [[memStores2 s2]|msg].
Qed.

(** The table has the fields [a] and [b], the header of the file names
    [a] alone: a query for [b] is refused, with the memstore untouched. *)
Example iterate_no_known_field_error_witness :
  fileStore.iterate (Duration:=unit) (Time:=unit) (fun a b _ _ _ => a ++ b)
    [scenario.fa; scenario.fb] tt tt 77 scenario.record
    scenario.fileName (fileStore.Opened scenario.oldFile)
    [scenario.memStore] ["b"] []
  = Done ([], [scenario.memStore], Some "Non of specified fields exists on table!").
Proof.
  refine (proj1 (iterate_no_known_field_error (Duration:=unit) (Time:=unit)
                   (fun a b _ _ _ => a ++ b) [scenario.fa; scenario.fb] tt tt 77
                   scenario.record scenario.fileName scenario.oldFile
                   [scenario.memStore] ["b"] [] [scenario.fa]
                   (drop 10 scenario.oldFile) _) _ _).
  - vm_compute. reflexivity.
  - discriminate.
  - right. intros f Hf. apply list_elem_of_singleton in Hf as ->.
    vm_compute. intros Hin. repeat (apply elem_of_cons in Hin as [Hin|Hin]; [discriminate Hin |]).
    by apply elem_of_nil in Hin.
Defined.

(** A name that is no field of the table is refused in the same way. *)
Example iterate_bogus_field_error :
  fileStore.iterate (Duration:=unit) (Time:=unit) (fun a b _ _ _ => a ++ b)
    [scenario.fa; scenario.fb] tt tt 77 scenario.record
    scenario.fileName (fileStore.Opened scenario.oldFile)
    [scenario.memStore] ["bogus"] []
  = Done ([], [scenario.memStore], Some "Non of specified fields exists on table!").
Proof. vm_compute. reflexivity. Qed.

(** C8, as stated, fails: the list [a; bogus] contains a name that is not
    a field of the table, and [iterate] returns no error and delivers the
    row. *)
Example iterate_unknown_field_no_error :
  "bogus" ∈ ["a"; "bogus"]
  /\ ("bogus" ∉ map fileStore.Name [scenario.fa; scenario.fb])
  /\ fileStore.iterate (Duration:=unit) (Time:=unit) (fun a b _ _ _ => a ++ b)
       [scenario.fa; scenario.fb] tt tt 77 scenario.record
       scenario.fileName (fileStore.Opened scenario.oldFile) [] ["a"; "bogus"] []
     = Done ([(scenario.keyK, [["1"; "2"; "3"]%byte])], [], None).
Proof.
  split; [set_solver |]. split.
  - cbn. intros Hin. repeat (apply elem_of_cons in Hin as [Hin|Hin]; [discriminate Hin |]).
    by apply elem_of_nil in Hin.
  - vm_compute. reflexivity.
Qed.

(** Without a file the fields are not looked at: no error is returned and
    the rows of the memstore are delivered. *)
Example iterate_without_file_checks_nothing :
  exists memStores,
    fileStore.iterate (Duration:=unit) (Time:=unit) (fun a b _ _ _ => a ++ b)
      [scenario.fa; scenario.fb] tt tt 77 scenario.record
      "" fileStore.NotExist [scenario.memStore] ["bogus"] []
    = Done ([(scenario.keyK, [["9"]; ["9"]]%byte)], memStores, None).
Proof. eexists. vm_compute. reflexivity. Qed.

(** ** The snapshot of [rowStore.iterate] *)

(** C7 (the code at the failing inputs). The memstores are looked up under
    the keys 0, 1, ..., not under the generations present in the map. Once
    the flush of generation 0 has deleted it, the lookup of key 0 yields a
    nil tree: with the memstore included in queries the copy of the nil
    tree panics; with generations 1 (flushing) and 2 (current) in the map
    the flushing memstore is not handed over, or is handed over as a copy
    while the current one is left out. Before any deletion the snapshot is
    the older memstore uncopied and the current one copied. *)
Theorem snapshot_after_flush {tree fileStore : Type} (copy : tree -> tree)
    (fs fs' : fileStore) (a b c : tree) :
  let rs0 := rowStore.mkRowStore {[ 0 := a ]} fs true in
  let rs1 := rowStore.flushed (rowStore.retire rs0 0 b) 0 fs' in
  let rs2 := rowStore.retire rs1 1 c in
  rowStore.memStores rs1 = {[ 1 := b ]}
  /\ rowStore.snapshot copy rs1
     = Panic "invalid memory address or nil pointer dereference"
  /\ rowStore.memStores rs2 = {[ 1 := b; 2 := c ]}
  /\ rowStore.snapshot copy rs2 = Done (fs', [None; Some (copy b)])
  /\ rowStore.snapshot copy
       (rowStore.mkRowStore (rowStore.memStores rs2) fs' false)
     = Done (fs', [None])
  /\ rowStore.snapshot copy (rowStore.retire rs0 0 b)
     = Done (fs, [Some a; Some (copy b)]).
Proof.
  cbv zeta. repeat split; vm_compute; reflexivity.
Qed.

(** * The radix tree *)

Section TreeFacts.
Import bytetree.

(** An induction principle that reaches the targets of the edges. *)
Lemma node_ind' (P : node -> Prop) :
  (forall k es d r, Forall (fun e => P (target e)) es -> P (mkNode k es d r)) ->
  forall n, P n.
Proof.
  intros Hstep.
  fix IH 1. intros [k es d r]. apply Hstep.
  induction es as [|[l t] es IHes]; constructor; [apply IH | exact IHes].
Qed.

Lemma size_eq (n : node) :
  size n = S (foldr (fun e acc => size (target e) + acc)%nat O (edges n)).
Proof.
  destruct n as [k es d r]. cbn [size edges]. f_equal.
  induction es as [|[l t] es IH]; [done |]. cbn [foldr target]. by rewrite <- IH.
Qed.

Lemma strip_eq (n : node) :
  strip n = mkNode (key n) (map stripEdge (edges n)) (data n) [].
Proof.
  destruct n as [k es d r]. cbn [strip key edges data]. f_equal.
  induction es as [|[l t] es IH]; [done |].
  cbn [map stripEdge label target]. by rewrite <- IH.
Qed.

(** ** Reading and writing through paths *)

Lemma deref_app (rt : node) (p t : path) :
  deref rt (p ++ t) = deref rt p ≫= fun n => deref n t.
Proof.
  revert rt. induction p as [|i p IH]; intros rt; [reflexivity |].
  cbn [app deref]. destruct (edges rt !! i) as [e|]; [|reflexivity]. cbn. apply IH.
Qed.

Lemma deref_store_eq (f : node -> node) (rt : node) (p : path) :
  deref (store f rt p) p = f <$> deref rt p.
Proof.
  revert rt. induction p as [|i p IH]; intros rt; [reflexivity |].
  cbn [store deref edges]. rewrite list_lookup_alter_eq.
  destruct (edges rt !! i) as [e|]; [|reflexivity]. cbn. apply IH.
Qed.

Lemma incomparable_cons i p r :
  incomparable (i :: p) (i :: r) -> incomparable p r.
Proof.
  intros [H1 H2]. split; intros Hp; [apply H1 | apply H2]; by apply prefix_cons.
Qed.

Lemma deref_store_incomparable (f : node -> node) (rt : node) (p r : path) :
  incomparable p r -> deref (store f rt p) r = deref rt r.
Proof.
  revert rt r. induction p as [|i p IH]; intros rt r Hinc.
  { destruct Hinc as [H _]. exfalso. apply H. apply prefix_nil. }
  destruct r as [|j r].
  { destruct Hinc as [_ H]. exfalso. apply H. apply prefix_nil. }
  cbn [store deref edges].
  destruct (decide (i = j)) as [->|Hij].
  - rewrite list_lookup_alter_eq. destruct (edges rt !! j) as [e|]; [|reflexivity]. cbn.
    apply IH. by eapply incomparable_cons.
  - by rewrite list_lookup_alter_ne.
Qed.

Lemma store_store_eq (f g : node -> node) (rt : node) (p : path) :
  store g (store f rt p) p = store (fun c => g (f c)) rt p.
Proof.
  revert rt. induction p as [|i p IH]; intros rt; [reflexivity |].
  cbn [store key edges data removedFor]. f_equal.
  rewrite list_alter_alter_eq. apply list_alter_ext; [|done].
  intros e _. cbn. f_equal. apply IH.
Qed.

Lemma store_app (g : node -> node) (rt : node) (p t : path) :
  store g rt (p ++ t) = store (fun c => store g c t) rt p.
Proof.
  revert rt. induction p as [|i p IH]; intros rt; [reflexivity |].
  cbn [app store]. f_equal. apply list_alter_ext; [|done].
  intros e _. f_equal. apply IH.
Qed.

Lemma store_ext (f g : node -> node) (rt : node) (p : path) (c : node) :
  deref rt p = Some c -> f c = g c -> store f rt p = store g rt p.
Proof.
  revert rt. induction p as [|i p IH]; intros rt Hc Hfg.
  { cbn in *. by injection Hc as ->. }
  cbn [store deref] in *. f_equal.
  destruct (edges rt !! i) as [e|] eqn:He; [|done]. cbn in Hc.
  apply list_alter_ext; [|done].
  intros e' He'. rewrite He in He'. injection He' as <-. f_equal. by apply IH.
Qed.

Lemma store_commute (f g : node -> node) (rt : node) (p r : path) :
  incomparable p r ->
  store f (store g rt p) r = store g (store f rt r) p.
Proof.
  revert rt r. induction p as [|i p IH]; intros rt r Hinc.
  { destruct Hinc as [H _]. exfalso. apply H. apply prefix_nil. }
  destruct r as [|j r].
  { destruct Hinc as [_ H]. exfalso. apply H. apply prefix_nil. }
  cbn [store key edges data removedFor]. f_equal.
  destruct (decide (i = j)) as [->|Hij].
  - rewrite !list_alter_alter_eq. apply list_alter_ext; [|done].
    intros e _. cbn. f_equal. apply IH. by eapply incomparable_cons.
  - apply list_alter_alter_ne. congruence.
Qed.


(** ** Queues of pointers *)

Lemma incomparable_sym (p r : path) : incomparable p r -> incomparable r p.
Proof. intros [H1 H2]. by split. Qed.

Lemma antichain_tail (p : path) (Q : list path) : antichain (p :: Q) -> antichain Q.
Proof.
  intros HQ i j a b Hi Hj Hij. apply (HQ (S i) (S j)); [done | done | lia].
Qed.

Lemma antichain_head (p r : path) (Q : list path) :
  antichain (p :: Q) -> r ∈ Q -> incomparable p r.
Proof.
  intros HQ [j Hj]%list_elem_of_lookup. split.
  - apply (HQ O (S j)); [done | done | lia].
  - apply (HQ (S j) O); [done | done | lia].
Qed.

Lemma prefix_snoc_inv (a p : path) (k : nat) :
  a `prefix_of` p ++ [k] -> a = p ++ [k] \/ a `prefix_of` p.
Proof.
  intros [t Ht]. destruct t as [|x t _] using rev_ind.
  - left. by rewrite app_nil_r in Ht.
  - right. rewrite app_assoc in Ht. apply app_inj_tail in Ht as [Ht _].
    by exists t.
Qed.

Lemma targets_lookup (p : path) (n : node) (i : nat) (r : path) :
  targets p n !! i = Some r -> r = p ++ [i] /\ (i < length (edges n))%nat.
Proof.
  unfold targets. rewrite list_lookup_imap.
  destruct (edges n !! i) as [e|] eqn:He; [|done].
  intros [= <-]. split; [done |]. by eapply lookup_lt_Some.
Qed.

Lemma antichain_step (p : path) (Q : list path) (n : node) :
  antichain (p :: Q) -> antichain (Q ++ targets p n).
Proof.
  intros HQ i j a b Hi Hj Hij Hpre.
  apply lookup_app_Some in Hi as [Hi | [Hli Hi]];
    apply lookup_app_Some in Hj as [Hj | [Hlj Hj]].
  - by apply (antichain_tail _ _ HQ i j a b).
  - apply targets_lookup in Hj as [-> _].
    apply prefix_snoc_inv in Hpre as [-> | Hpre].
    + apply (HQ O (S i) p (p ++ [j - length Q]%nat)); [done | done | lia |].
      by apply prefix_app_r.
    + by apply (HQ (S i) O a p).
  - apply targets_lookup in Hi as [-> _].
    apply (HQ O (S j) p b); [done | done | lia |].
    by eapply prefix_app_l.
  - apply targets_lookup in Hi as [-> _]. apply targets_lookup in Hj as [-> _].
    apply prefix_app_inv in Hpre. apply prefix_cons_inv_1 in Hpre. lia.
Qed.

Lemma deref_target (rt : node) (p : path) (n : node) (i : nat) :
  deref rt p = Some n ->
  deref rt (p ++ [i]) = target <$> edges n !! i.
Proof.
  intros Hn. rewrite deref_app, Hn. cbn.
  by destruct (edges n !! i).
Qed.

Lemma sizeAt_targets (rt : node) (p : path) (n : node) :
  deref rt p = Some n ->
  S (sum_list_with (sizeAt rt) (targets p n)) = size n.
Proof.
  intros Hn. rewrite size_eq. f_equal.
  assert (Hgen : forall es k, (forall i e, es !! i = Some e -> edges n !! (k + i)%nat = Some e) ->
            sum_list_with (sizeAt rt) (imap (fun i _ => p ++ [k + i]%nat) es)
            = foldr (fun e acc => (size (target e) + acc)%nat) O es).
  { induction es as [|e es IH]; intros k Hes; [done |].
    cbn [imap sum_list_with foldr]. f_equal.
    - unfold sizeAt. rewrite (deref_target _ _ _ _ Hn).
      rewrite (Hes O e eq_refl). done.
    - rewrite <- (IH (S k)).
      + f_equal. apply imap_ext. intros i x _. cbn. do 2 f_equal. lia.
      + intros i x Hx. replace (S k + i)%nat with (k + S i)%nat by lia. by apply Hes. }
  apply (Hgen (edges n) O). intros i e He. done.
Qed.

End TreeFacts.

Section CopyFacts.
Import bytetree.

(** ** The loop of [Copy] *)

Lemma copyEdge_fold (p q : path) (es : list edge) :
  forall (k : nat) (cp : node) (nodes nodeCopies : list path) (c : node),
    deref cp q = Some c -> length (edges c) = k ->
    foldl (copyEdge p q) (Some (cp, nodes, nodeCopies))
          (imap (fun i e => ((k + i)%nat, e)) es)
    = Some (store (attach (map shallow es)) cp q,
            nodes ++ imap (fun i _ => p ++ [(k + i)%nat]) es,
            nodeCopies ++ imap (fun i _ => q ++ [(k + i)%nat]) es).
Proof.
  induction es as [|e es IH]; intros k cp nodes nodeCopies c Hc Hk.
  - cbn [imap map foldl]. rewrite !app_nil_r. do 3 f_equal.
    symmetry. erewrite (store_ext _ (fun c => c)); [| exact Hc |].
    + clear. revert cp. induction q as [|i q IH]; intros cp; [done |].
      cbn [store]. destruct cp as [k es d r]. cbn. f_equal.
      apply list_alter_id. intros [l t]. cbn. f_equal. apply IH.
    + destruct c. unfold attach. cbn. by rewrite app_nil_r.
  - cbn [imap map foldl]. unfold copyEdge at 2. cbn [mbind option_bind fst snd].
    rewrite Hc. cbn [mbind option_bind].
    erewrite (imap_ext _ (fun i e0 => ((S k + i)%nat, e0))); cycle 1.
    { intros i x _. cbn. f_equal. lia. }
    erewrite (IH (S k)); cycle 1.
    { rewrite deref_store_eq, Hc. reflexivity. }
    { cbn. rewrite length_app. cbn. lia. }
    rewrite store_store_eq. f_equal. f_equal; [f_equal |].
    + eapply store_ext; [exact Hc |]. unfold attach. cbn.
      by rewrite <- app_assoc.
    + rewrite <- app_assoc. f_equal. cbn. rewrite Nat.add_0_r. f_equal.
      apply imap_ext. intros i x _. cbn. do 2 f_equal. lia.
    + rewrite <- app_assoc. f_equal. cbn. rewrite Nat.add_0_r, Hk. f_equal.
      apply imap_ext. intros i x _. cbn. do 2 f_equal. lia.
Qed.

Lemma graft_commute (src : node) (p : path) (h : node -> node) (rest : list path) :
  (forall r, r ∈ rest -> incomparable p r) ->
  forall cp, foldl (graft src) (store h cp p) rest
             = store h (foldl (graft src) cp rest) p.
Proof.
  induction rest as [|r rest IH]; intros Hinc cp; [done |].
  cbn [foldl]. unfold graft at 2 4.
  destruct (deref src r) as [n|].
  - rewrite (store_commute _ h cp p r) by (apply Hinc; left).
    apply IH. intros r' Hr'. apply Hinc. by right.
  - apply IH. intros r' Hr'. apply Hinc. by right.
Qed.

Lemma graft_deref_other (src : node) (p : path) (rest : list path) :
  (forall r, r ∈ rest -> incomparable p r) ->
  forall cp, deref (foldl (graft src) cp rest) p = deref cp p.
Proof.
  induction rest as [|r rest IH]; intros Hinc cp; [done |].
  cbn [foldl]. rewrite IH by (intros r' Hr'; apply Hinc; by right).
  unfold graft. destruct (deref src r) as [n|]; [|done].
  apply deref_store_incomparable. apply incomparable_sym. apply Hinc. left.
Qed.

Lemma graft_children (src Z : node) (p : path) (n c : node) :
  deref src p = Some n -> deref Z p = Some c -> edges c = [] ->
  foldl (graft src) (store (attach (map shallow (edges n))) Z p) (targets p n)
  = store (attach (map stripEdge (edges n))) Z p.
Proof.
  intros Hn Hc Hec.
  set (h := fun (D T : list edge) (c : node) =>
              mkNode (key c) (map stripEdge D ++ map shallow T) (data c) (removedFor c)).
  assert (Haux : forall T D, edges n = D ++ T ->
            foldl (graft src) (store (h D T) Z p)
                  (imap (fun i _ => p ++ [(length D + i)%nat]) T)
            = store (h (D ++ T) []) Z p).
  { induction T as [|e T IH]; intros D HDT.
    - cbn [imap foldl]. by rewrite app_nil_r.
    - cbn [imap foldl]. rewrite Nat.add_0_r.
      unfold graft at 2. rewrite (deref_target _ _ _ _ Hn), HDT.
      rewrite lookup_app_r by lia. rewrite Nat.sub_diag. cbn [lookup list_lookup fmap option_fmap option_map].
      rewrite store_app, store_store_eq.
      rewrite (store_ext _ (h (D ++ [e]) T) Z p c Hc).
      + erewrite imap_ext; [rewrite (IH (D ++ [e])) |].
        * by rewrite <- app_assoc.
        * by rewrite <- app_assoc.
        * intros i x _. cbn. rewrite length_app. cbn. do 2 f_equal. lia.
      + unfold h. cbn [store key edges data removedFor map]. f_equal.
        replace (length D) with (length (map stripEdge D) + 0)%nat
          by (rewrite length_map; lia).
        rewrite alter_app_r. cbn [alter list_alter].
        rewrite map_app, <- app_assoc. cbn [map app]. do 2 f_equal.
        unfold shallow, stripEdge. cbn [label target store]. f_equal.
        rewrite (strip_eq (target e)). unfold attach. cbn. reflexivity. }
  unfold targets.
  rewrite (store_ext _ (h [] (edges n)) Z p c Hc)
    by (unfold attach, h; rewrite Hec; reflexivity).
  rewrite (store_ext (attach (map stripEdge (edges n))) (h (edges n) []) Z p c Hc)
    by (unfold attach, h; rewrite Hec, app_nil_r; reflexivity).
  apply (Haux (edges n) []). reflexivity.
Qed.

Lemma copy_loop_graft (src : node) (fuel : nat) :
  forall (cp : node) (Q : list path),
    antichain Q ->
    (forall p, p ∈ Q -> is_Some (deref src p)) ->
    (forall p, p ∈ Q -> exists c, deref cp p = Some c /\ edges c = []) ->
    (sum_list_with (sizeAt src) Q <= fuel)%nat ->
    copy_loop fuel src cp Q Q = Some (foldl (graft src) cp Q).
Proof.
  induction fuel as [|fuel IH]; intros cp Q HQ Hsrc Hcp Hfuel.
  - destruct Q as [|p Q]; [done |]. exfalso.
    destruct (Hsrc p) as [n Hn]; [left |].
    cbn [sum_list_with] in Hfuel. unfold sizeAt at 1 in Hfuel. rewrite Hn in Hfuel.
    rewrite size_eq in Hfuel. lia.
  - destruct Q as [|p rest]; [done |].
    destruct (Hsrc p) as [n Hn]; [left |].
    destruct (Hcp p) as (c & Hc & Hec); [left |].
    cbn [copy_loop]. rewrite Hn. cbn [mbind option_bind head tail].
    pose proof (copyEdge_fold p p (edges n) O cp rest rest c Hc) as Hfold.
    rewrite Hec in Hfold. specialize (Hfold eq_refl).
    cbn [Nat.add] in Hfold. change (imap (fun i e => (i, e)) (edges n))
      with (imap pair (edges n)) in Hfold.
    rewrite Hfold. cbn [mbind option_bind].
    fold (targets p n).
    assert (Hinc : forall r, r ∈ rest -> incomparable p r)
      by (intros r Hr; by eapply antichain_head).
    rewrite IH.
    + f_equal. rewrite foldl_app.
      rewrite graft_commute by done.
      rewrite (graft_children src _ p n c Hn); [| by rewrite graft_deref_other | done].
      rewrite <- graft_commute by done.
      cbn [foldl]. unfold graft at 3. by rewrite Hn.
    + by apply antichain_step.
    + intros r [Hr | Hr]%elem_of_app.
      * apply Hsrc. by right.
      * apply list_elem_of_lookup in Hr as [i Hi].
        apply targets_lookup in Hi as [-> Hi].
        rewrite (deref_target _ _ _ _ Hn).
        destruct (lookup_lt_is_Some_2 (edges n) i Hi) as [e ->]. by eexists.
    + intros r [Hr | Hr]%elem_of_app.
      * rewrite deref_store_incomparable by (by apply Hinc).
        apply Hcp. by right.
      * apply list_elem_of_lookup in Hr as [i Hi].
        apply targets_lookup in Hi as [-> Hi].
        rewrite deref_app, deref_store_eq, Hc. cbn.
        rewrite Hec. cbn. rewrite list_lookup_fmap.
        destruct (lookup_lt_is_Some_2 (edges n) i Hi) as [e ->]. cbn.
        eexists. split; reflexivity.
    + rewrite sum_list_with_app.
      cbn [sum_list_with] in Hfuel. unfold sizeAt at 1 in Hfuel. rewrite Hn in Hfuel.
      pose proof (sizeAt_targets src p n Hn). lia.
Qed.

End CopyFacts.

Section WalkFacts.
Import bytetree.

(** ** What a write through a pointer leaves as it was *)

Lemma deref_store_obs {A : Type} (g : node -> A) (f : node -> node)
    (rt : node) (p q : path) :
  (forall k es es' d r, length es = length es' ->
                        g (mkNode k es d r) = g (mkNode k es' d r)) ->
  (forall c, edges (f c) = edges c) ->
  (q = p -> forall c, g (f c) = g c) ->
  g <$> deref (store f rt p) q = g <$> deref rt q.
Proof.
  intros Hg Hf. revert rt q. induction p as [|i p IH]; intros rt q Hq.
  - destruct q as [|j q]; cbn [store deref].
    + cbn. f_equal. by apply Hq.
    + by rewrite Hf.
  - destruct q as [|j q]; cbn [store deref edges].
    + cbn. f_equal. destruct rt as [k es d r]. cbn.
      apply Hg. by rewrite length_alter.
    + destruct (decide (i = j)) as [->|Hij].
      * rewrite list_lookup_alter_eq. destruct (edges rt !! j) as [e|]; [|done].
        cbn. apply IH. intros ->. by apply Hq.
      * by rewrite list_lookup_alter_ne.
Qed.

Lemma foldr_size_alter (F : edge -> edge) (es : list edge) (i : nat) :
  (forall e, es !! i = Some e -> size (target (F e)) = size (target e)) ->
  foldr (fun e acc => (size (target e) + acc)%nat) O (alter F i es)
  = foldr (fun e acc => (size (target e) + acc)%nat) O es.
Proof.
  revert i. induction es as [|e es IH]; intros i HF; [done |].
  destruct i as [|i]; cbn.
  - by rewrite (HF e).
  - f_equal. apply IH. intros e' He'. by apply HF.
Qed.

Lemma deref_store_size (f : node -> node) (rt : node) (p q : path) :
  (forall c, edges (f c) = edges c) ->
  size <$> deref (store f rt p) q = size <$> deref rt q.
Proof.
  intros Hf. revert rt q. induction p as [|i p IH]; intros rt q.
  - destruct q as [|j q]; cbn [store deref].
    + cbn [fmap option_fmap option_map]. f_equal. by rewrite !size_eq, Hf.
    + by rewrite Hf.
  - destruct q as [|j q]; cbn [store deref edges].
    + cbn [fmap option_fmap option_map]. f_equal. rewrite !size_eq. cbn [edges]. f_equal.
      apply foldr_size_alter. intros e _. cbn.
      specialize (IH (target e) []). cbn in IH. by injection IH.
    + destruct (decide (i = j)) as [->|Hij].
      * rewrite list_lookup_alter_eq. destruct (edges rt !! j) as [e|]; [|done].
        cbn. apply IH.
      * by rewrite list_lookup_alter_ne.
Qed.

Lemma doRemoveFor_edges (ctx : Z) (c : node) : edges (doRemoveFor c ctx) = edges c.
Proof. unfold doRemoveFor. by destruct (ctx =? 0). Qed.

Lemma imap_index_only {A B : Type} (es1 es2 : list A) :
  length es1 = length es2 ->
  forall g : nat -> B,
    imap (fun i _ => g i) es1 = imap (fun i _ => g i) es2.
Proof.
  revert es2. induction es1 as [|e1 es1 IH]; intros [|e2 es2] Hlen g; try done.
  cbn [imap]. f_equal.
  change (imap (fun i _ => (fun j => g (Datatypes.S j)) i) es1
          = imap (fun i _ => (fun j => g (Datatypes.S j)) i) es2).
  apply IH. cbn in Hlen. lia.
Qed.

Lemma targets_length (p : path) (n1 n2 : node) :
  length (edges n1) = length (edges n2) -> targets p n1 = targets p n2.
Proof.
  intros Hlen. unfold targets.
  apply (imap_index_only _ _ Hlen (fun i => p ++ [i])).
Qed.

Lemma sum_list_with_eq {A : Type} (f g : A -> nat) (l : list A) :
  (forall x, f x = g x) -> sum_list_with f l = sum_list_with g l.
Proof. intros Hfg. induction l as [|x l IH]; [done |]. cbn. by rewrite Hfg, IH. Qed.

Lemma sizeAt_store (f : node -> node) (rt : node) (p q : path) :
  (forall c, edges (f c) = edges c) ->
  sizeAt (store f rt p) q = sizeAt rt q.
Proof.
  intros Hf. unfold sizeAt. pose proof (deref_store_size f rt p q Hf) as H.
  destruct (deref (store f rt p) q), (deref rt q); cbn in H; congruence.
Qed.

(** ** The loop of [Walk] *)

Section Loop.
Context {S : Type}.
Variable fn : list byte -> list Sequence -> S -> bool * S.

(** The tree after the visit of the node at [p]. *)
Lemma visit_cases (ctx : Z) (rt : node) (p : path) (n : node) (s : S) :
  exists (b : bool) (s' : S),
    visit fn ctx rt p n s
    = (if b then store (fun n => doRemoveFor n ctx) rt p else rt, s').
Proof.
  unfold visit.
  destruct (negb (bool_decide (data n = []))); [| by exists false; eauto].
  destruct (negb (wasRemovedFor n ctx)); [| by exists false; eauto].
  destruct (fn (key n) (data n) s) as [keep s'].
  destruct (negb keep); [by exists true; eauto | by exists false; eauto].
Qed.

Lemma walk_loop_cons (fuel : nat) (ctx : Z) (rt : node) (p : path)
    (Q : list path) (s : S) (n : node) :
  deref rt p = Some n ->
  exists rt' s',
    walk_loop fn (Datatypes.S fuel) ctx rt (p :: Q) s
      = walk_loop fn fuel ctx rt' (Q ++ targets p n) s'
    /\ (rt' = rt \/ rt' = store (fun n => doRemoveFor n ctx) rt p).
Proof.
  intros Hn. cbn [walk_loop]. rewrite Hn. cbn [mbind option_bind].
  destruct (visit_cases ctx rt p n s) as (b & s' & ->).
  destruct b; by eauto.
Qed.

Lemma walk_loop_total (fuel : nat) :
  forall (ctx : Z) (rt : node) (Q : list path) (s : S),
    (forall p, p ∈ Q -> is_Some (deref rt p)) ->
    (sum_list_with (sizeAt rt) Q <= fuel)%nat ->
    is_Some (walk_loop fn fuel ctx rt Q s).
Proof.
  induction fuel as [|fuel IH]; intros ctx rt Q s Hval Hfuel.
  - destruct Q as [|p Q]; [by eexists |]. exfalso.
    destruct (Hval p) as [n Hn]; [left |].
    cbn [sum_list_with] in Hfuel. unfold sizeAt at 1 in Hfuel. rewrite Hn in Hfuel.
    rewrite size_eq in Hfuel. lia.
  - destruct Q as [|p Q]; [by eexists |].
    destruct (Hval p) as [n Hn]; [left |].
    destruct (walk_loop_cons fuel ctx rt p Q s n Hn) as (rt' & s' & -> & Hrt').
    assert (Hsz : forall q, sizeAt rt' q = sizeAt rt q).
    { intros q. destruct Hrt' as [-> | ->]; [done |].
      apply sizeAt_store. intros c. apply doRemoveFor_edges. }
    assert (Hsome : forall q, is_Some (deref rt q) -> is_Some (deref rt' q)).
    { intros q Hq. destruct Hrt' as [-> | ->]; [done |].
      pose proof (deref_store_size (fun n => doRemoveFor n ctx) rt p q
                    (doRemoveFor_edges ctx)) as H.
      destruct Hq as [x Hx]. rewrite Hx in H.
      destruct (deref (store _ rt p) q); [by eexists | done]. }
    apply IH.
    + intros r [Hr | Hr]%elem_of_app; apply Hsome.
      * apply Hval. by right.
      * apply list_elem_of_lookup in Hr as [i Hi].
        apply targets_lookup in Hi as [-> Hi].
        rewrite (deref_target _ _ _ _ Hn).
        destruct (lookup_lt_is_Some_2 (edges n) i Hi) as [e ->]. by eexists.
    + rewrite (sum_list_with_eq _ (sizeAt rt)) by (intros; apply Hsz).
      rewrite sum_list_with_app.
      cbn [sum_list_with] in Hfuel. unfold sizeAt at 1 in Hfuel. rewrite Hn in Hfuel.
      pose proof (sizeAt_targets rt p n Hn). lia.
Qed.

Lemma visit_sim (ctx1 ctx2 : Z) (rt1 rt2 : node) (p : path) (n1 n2 : node) (s : S) :
  seen n1 = seen n2 ->
  wasRemovedFor n1 ctx1 = wasRemovedFor n2 ctx2 ->
  exists (b : bool) (s' : S),
    visit fn ctx1 rt1 p n1 s
    = (if b then store (fun n => doRemoveFor n ctx1) rt1 p else rt1, s')
    /\ visit fn ctx2 rt2 p n2 s
    = (if b then store (fun n => doRemoveFor n ctx2) rt2 p else rt2, s').
Proof.
  unfold seen, visit. intros [= Hd Hk _] <-. rewrite <- Hd in *.
  destruct (bool_decide (data n1 = [])); cbn [negb]; [by exists false; eauto |].
  rewrite <- Hk.
  destruct (negb (wasRemovedFor n1 ctx1)); [| by exists false; eauto].
  destruct (fn (key n1) (data n1) s) as [keep s'].
  destruct (negb keep); [by exists true; eauto | by exists false; eauto].
Qed.

Lemma seen_store (ctx : Z) (rt : node) (p q : path) :
  seen <$> deref (store (fun n => doRemoveFor n ctx) rt p) q = seen <$> deref rt q.
Proof.
  apply deref_store_obs.
  - intros k es es' d r Hlen. unfold seen. cbn. by rewrite Hlen.
  - apply doRemoveFor_edges.
  - intros _ c. unfold seen, doRemoveFor. by destruct (ctx =? 0).
Qed.

Lemma wasRemovedFor_store (ctx ctx' : Z) (rt : node) (p q : path) :
  q <> p ->
  (fun n => wasRemovedFor n ctx') <$> deref (store (fun n => doRemoveFor n ctx) rt p) q
  = (fun n => wasRemovedFor n ctx') <$> deref rt q.
Proof.
  intros Hq. apply deref_store_obs.
  - done.
  - apply doRemoveFor_edges.
  - done.
Qed.

Lemma walk_loop_sim (fuel : nat) :
  forall (ctx1 ctx2 : Z) (rt1 rt2 : node) (Q : list path) (s : S),
    (forall q, seen <$> deref rt1 q = seen <$> deref rt2 q) ->
    antichain Q ->
    (forall p q, p ∈ Q -> p `prefix_of` q ->
       (fun n => wasRemovedFor n ctx1) <$> deref rt1 q
       = (fun n => wasRemovedFor n ctx2) <$> deref rt2 q) ->
    snd <$> walk_loop fn fuel ctx1 rt1 Q s = snd <$> walk_loop fn fuel ctx2 rt2 Q s.
Proof.
  induction fuel as [|fuel IH]; intros ctx1 ctx2 rt1 rt2 Q s Hseen HQ Hrem.
  - by destruct Q.
  - destruct Q as [|p Q]; [done |].
    cbn [walk_loop].
    pose proof (Hseen p) as Hp. pose proof (Hrem p p) as Hrp.
    destruct (deref rt1 p) as [n1|], (deref rt2 p) as [n2|]; try done.
    cbn [mbind option_bind]. cbn [fmap option_fmap option_map] in Hp, Hrp.
    assert (Hp' : seen n1 = seen n2) by congruence. clear Hp. rename Hp' into Hp.
    specialize (Hrp ltac:(left) ltac:(done)). injection Hrp as Hrp.
    destruct (visit_sim ctx1 ctx2 rt1 rt2 p n1 n2 s Hp Hrp) as (b & s' & -> & ->).
    rewrite (targets_length p n1 n2) by (unfold seen in Hp; congruence).
    assert (Hne : forall p' q, p' ∈ Q ++ targets p n2 -> p' `prefix_of` q -> q <> p).
    { intros p' q [Hp' | Hp']%elem_of_app Hpre ->.
      - destruct (antichain_head p p' Q HQ Hp') as [_ H]. by apply H.
      - apply list_elem_of_lookup in Hp' as [i Hi].
        apply targets_lookup in Hi as [-> _]. by apply prefix_snoc_not in Hpre. }
    assert (Hold : forall p' q, p' ∈ Q ++ targets p n2 -> p' `prefix_of` q ->
              (fun n => wasRemovedFor n ctx1) <$> deref rt1 q
              = (fun n => wasRemovedFor n ctx2) <$> deref rt2 q).
    { intros p' q [Hp' | Hp']%elem_of_app Hpre.
      - apply (Hrem p'); [by right | done].
      - apply list_elem_of_lookup in Hp' as [i Hi].
        apply targets_lookup in Hi as [-> _].
        apply (Hrem p); [left | by eapply prefix_app_l]. }
    apply IH.
    + intros q. destruct b; [| apply Hseen]. by rewrite !seen_store.
    + by apply antichain_step.
    + intros p' q Hp' Hpre. destruct b; [| by eapply Hold].
      rewrite !wasRemovedFor_store by (by eapply Hne). by eapply Hold.
Qed.

End Loop.

End WalkFacts.

Section CopyTheorems.
Import bytetree.

(** ** The copy *)

Lemma deref_strip (n : node) (q : path) : deref (strip n) q = strip <$> deref n q.
Proof.
  revert n. induction q as [|i q IH]; intros n; [done |].
  rewrite strip_eq. cbn [deref edges]. rewrite list_lookup_fmap.
  destruct (edges n !! i) as [e|]; [|done]. cbn. apply IH.
Qed.

Lemma deref_stripRoot (n : node) (q : path) :
  q <> [] -> deref (stripRoot n) q = strip <$> deref n q.
Proof.
  intros Hq. destruct q as [|i q]; [done |].
  unfold stripRoot. rewrite strip_eq. cbn [deref edges]. rewrite list_lookup_fmap.
  destruct (edges n !! i) as [e|]; [|done]. cbn. apply deref_strip.
Qed.

Lemma size_strip (n : node) : size (strip n) = size n.
Proof.
  induction n as [k es d r IH] using node_ind'.
  rewrite strip_eq, !size_eq. cbn [edges]. f_equal.
  induction IH as [|e es He _ IHes]; [done |].
  cbn [map foldr]. rewrite IHes. f_equal. exact He.
Qed.

Lemma size_stripRoot (n : node) : size (stripRoot n) = size n.
Proof. rewrite <- (size_strip n). by rewrite !size_eq. Qed.

Lemma seen_strip (n : node) : seen (strip n) = seen n.
Proof. rewrite strip_eq. unfold seen. cbn. by rewrite length_map. Qed.

Lemma wasRemovedFor_strip (n : node) (ctx : Z) : wasRemovedFor (strip n) ctx = false.
Proof. rewrite strip_eq. unfold wasRemovedFor. cbn. by destruct (ctx =? 0). Qed.

Lemma wasRemovedFor_0 (n : node) : wasRemovedFor n 0 = false.
Proof. reflexivity. Qed.

Lemma Copy_strip (bt : Tree) :
  Copy bt = Some (mkTree (stripRoot (root bt)) (tbytes bt) (tlength bt)).
Proof.
  unfold Copy. rewrite copy_loop_graft.
  - cbn [mbind option_bind foldl]. unfold graft. cbn [deref].
    do 2 f_equal. unfold stripRoot. by rewrite strip_eq.
  - intros [|i] [|j] p r Hp Hr Hij; done.
  - intros p ->%list_elem_of_singleton. by eexists.
  - intros p ->%list_elem_of_singleton. by eexists.
  - cbn. unfold sizeAt. cbn. lia.
Qed.

Lemma Walk_total {S : Type} (fn : list byte -> list Sequence -> S -> bool * S)
    (bt : Tree) (ctx : Z) (s : S) :
  is_Some (Walk fn bt ctx s).
Proof.
  unfold Walk.
  destruct (walk_loop_total fn (size (root bt)) ctx (root bt) [[]] s) as [[rt s'] ->].
  - intros p ->%list_elem_of_singleton. by eexists.
  - cbn. unfold sizeAt. cbn. lia.
  - by eexists.
Qed.

Lemma Walk_snd {S : Type} (fn : list byte -> list Sequence -> S -> bool * S)
    (bt : Tree) (ctx : Z) (s : S) :
  snd <$> Walk fn bt ctx s
  = snd <$> walk_loop fn (size (root bt)) ctx (root bt) [[]] s.
Proof.
  unfold Walk. destruct (walk_loop _ _ _ _ _ _) as [[rt s']|]; reflexivity.
Qed.

Lemma Walk_copy {S : Type} (fn : list byte -> list Sequence -> S -> bool * S)
    (bt : Tree) (ctx : Z) (s : S) :
  data (root bt) = [] ->
  snd <$> Walk fn (mkTree (stripRoot (root bt)) (tbytes bt) (tlength bt)) ctx s
  = snd <$> Walk fn bt 0 s.
Proof.
  intros Hroot. rewrite !Walk_snd. cbn [root]. rewrite size_stripRoot.
  apply walk_loop_sim.
  - intros [|i q].
    + cbn. f_equal. unfold seen, stripRoot. rewrite strip_eq, Hroot. cbn.
      by rewrite length_map.
    + rewrite deref_stripRoot by done.
      destruct (deref (root bt) (i :: q)) as [m|]; [|done]. cbn.
      by rewrite seen_strip.
  - intros [|i] [|j] p r Hp Hr Hij; done.
  - intros p [|i q] _ _.
    + cbn. f_equal. unfold wasRemovedFor. cbn. by destruct (ctx =? 0).
    + rewrite deref_stripRoot by done.
      destruct (deref (root bt) (i :: q)) as [m|]; [|done]. cbn.
      by rewrite wasRemovedFor_strip.
Qed.

(** ** [Remove] on a copy *)

Lemma remove_loop_strip (ctx : Z) (n : node) :
  forall (k' : list byte) (d' : list Sequence) (r' : list Z) (key : list byte),
    fst (remove_loop ctx (mkNode k' (map stripEdge (edges n)) d' r') key)
    = fst (remove_loop 0 n key).
Proof.
  induction n as [k es d r IH] using node_ind'.
  intros k' d' r' key. cbn [remove_loop edges].
  match goal with
  | |- fst match ?scan1 (map stripEdge es) with _ => _ end
       = fst match ?scan2 es with _ => _ end =>
      assert (Hscan : fst <$> scan1 (map stripEdge es) = fst <$> scan2 es)
  end.
  { induction IH as [|[lbl tgt] es He _ IHes]; [done |].
    cbn [map stripEdge label target].
    destruct ((commonPrefix lbl key =? length key)%nat
              && (length key =? length lbl)%nat).
    { rewrite wasRemovedFor_strip, wasRemovedFor_0. cbn. by rewrite strip_eq. }
    destruct ((commonPrefix lbl key =? length lbl)%nat
              && (length lbl <? length key)%nat).
    { cbn [target] in He. specialize (He (bytetree.key tgt) (data tgt) [] (drop (length lbl) key)).
      rewrite <- strip_eq in He.
      destruct (remove_loop ctx (strip tgt) (drop (length lbl) key)) as [res1 t1].
      destruct (remove_loop 0 tgt (drop (length lbl) key)) as [res2 t2].
      cbn in He. subst res2. reflexivity. }
    match goal with
    | |- fst <$> (?a ≫= _) = fst <$> (?b ≫= _) =>
        destruct a as [[res1 es1]|], b as [[res2 es2]|]; cbn in *; congruence
    end. }
  match goal with
  | |- fst match ?a with _ => _ end = fst match ?b with _ => _ end =>
      destruct a as [[res1 es1]|], b as [[res2 es2]|]; cbn in *; congruence
  end.
Qed.

Lemma Remove_copy (bt : Tree) (ctx : Z) (k : list byte) :
  fst (Remove (mkTree (stripRoot (root bt)) (tbytes bt) (tlength bt)) ctx k)
  = fst (Remove bt 0 k).
Proof.
  unfold Remove. cbn [root].
  pose proof (remove_loop_strip ctx (root bt) [] [] [] k) as H.
  unfold stripRoot. rewrite strip_eq. cbn [edges].
  destruct (remove_loop ctx _ k) as [res1 t1], (remove_loop 0 (root bt) k) as [res2 t2].
  cbn in *. done.
Qed.

(** C9. [Copy] returns a tree with the same byte and length counters and,
    below its fresh root, the same keys, labels and data as the tree
    copied, in the same shape, with no mark of removal. A walk of the copy
    under any ctx delivers what a walk of the original delivers under the
    sentinel 0, and [Remove] on the copy under any ctx returns what it
    returns on the original under the sentinel 0: nothing is hidden in the
    copy, whatever was marked in the original. *)
Theorem Copy_spec (bt : Tree) :
  exists cp : Tree,
    Copy bt = Some cp
    /\ tbytes cp = tbytes bt /\ tlength cp = tlength bt
    /\ (forall p, p <> [] -> deref (root cp) p = strip <$> deref (root bt) p)
    /\ (forall p n, deref (root cp) p = Some n ->
          removedFor n = [] /\ forall ctx, wasRemovedFor n ctx = false)
    /\ (data (root bt) = [] ->
        forall (S : Type) (fn : list byte -> list Sequence -> S -> bool * S)
               (ctx : Z) (s : S),
          is_Some (Walk fn cp ctx s)
          /\ snd <$> Walk fn cp ctx s = snd <$> Walk fn bt 0 s)
    /\ (forall ctx k, fst (Remove cp ctx k) = fst (Remove bt 0 k)).
Proof.
  eexists. split; [apply Copy_strip |]. cbn [tbytes tlength root].
  split; [done |]. split; [done |]. split; [| split; [| split]].
  - intros p Hp. by apply deref_stripRoot.
  - intros [|i q] n.
    + cbn. intros [= <-]. split; [done |]. intros ctx.
      unfold wasRemovedFor. cbn. by destruct (ctx =? 0).
    + rewrite deref_stripRoot by done.
      destruct (deref (root bt) (i :: q)) as [m|]; [|done]. cbn. intros [= <-].
      split; [by rewrite strip_eq |]. intros ctx. apply wasRemovedFor_strip.
  - intros Hroot S fn ctx s. split; [apply Walk_total | by apply Walk_copy].
  - intros ctx k. apply Remove_copy.
Qed.

End CopyTheorems.

Section UpdateFacts.
Import bytetree scenarioTree.
Context {Field TSParams Metadata Duration Time : Type}.
Variable SequenceUpdate :
  Sequence -> TSParams -> Metadata -> Field -> Duration -> Time -> Sequence.
Variable cap : Sequence -> Z.
Variable fields : list Field.
Variable resolution : Duration.
Variable truncateBefore : Time.

Abbreviation node_doUpdate :=
  (node_doUpdate SequenceUpdate cap fields resolution truncateBefore).
Abbreviation Update := (Update SequenceUpdate cap fields resolution truncateBefore).

(** [node.doUpdate] touches the data alone, and leaves as many sequences as
    there are fields, or as there were if those were more. *)
Lemma node_doUpdate_shape (n : node) (fullKey : list byte) (vals : TSParams)
    (metadata : Metadata) :
  exists d added,
    node_doUpdate n fullKey vals metadata
    = (mkNode (key n) (edges n) d (removedFor n), added)
    /\ length d = Nat.max (length (data n)) (length fields).
Proof.
  unfold bytetree.node_doUpdate.
  set (data0 := if (_ <? _)%nat then _ else _).
  assert (Hlen : length data0 = Nat.max (length (data n)) (length fields)).
  { subst data0. destruct (Nat.ltb_spec (length (data n)) (length fields)).
    - rewrite length_app, length_replicate. lia.
    - lia. }
  revert Hlen. generalize data0 (imap pair fields) 0. clear data0.
  intros dat l. revert dat.
  induction l as [| [i field] l IH]; intros dat acc Hlen; cbn [foldl].
  - by exists dat, acc.
  - apply IH. by rewrite length_insert.
Qed.

(** C6. Whatever the fields (one at least) and the values: after the
    updates of the keys [abc] and then [ab] on a new tree, the walk under
    the context 0 calls [fn] twice, with the key nil and the data of [ab],
    and with the key [abc] and its data. The key [ab] is not among the keys
    delivered. *)
Theorem Walk_prefix_key_delivered_without_key
    (vals1 vals2 : TSParams) (metadata1 metadata2 : Metadata) :
  fields <> [] ->
  let bt1 := snd (Update New abc vals1 metadata1) in
  let bt2 := snd (Update bt1 ab vals2 metadata2) in
  exists d_ab d_abc : list Sequence,
    snd <$> Walk collect bt2 0 [] = Some [([], d_ab); (abc, d_abc)]
    /\ d_ab <> [] /\ d_abc <> []
    /\ fst (Remove bt2 0 ab) = d_ab
    /\ Length bt2 = 2.
Proof.
  intros Hfields bt1 bt2.
  destruct (node_doUpdate_shape (mkNode abc [] [] []) abc vals1 metadata1)
    as (d1 & added1 & E1 & L1).
  destruct (node_doUpdate_shape (mkNode [] [mkEdge ["c"%byte] (mkNode abc [] d1 [])] [] [])
              ab vals2 metadata2) as (d2 & added2 & E2 & L2).
  cbn [key edges data removedFor length] in *.
  assert (Hd1 : d1 <> []).
  { intros ->. destruct fields; [done | cbn in L1; lia]. }
  assert (Hd2 : d2 <> []).
  { intros ->. destruct fields; [done | cbn in L2; lia]. }
  assert (Hbt1 : exists b,
            bt1 = mkTree (mkNode [] [mkEdge abc (mkNode abc [] d1 [])] [] []) b 1).
  { subst bt1. unfold bytetree.Update, doUpdate. cbn -[bytetree.node_doUpdate].
    rewrite E1. eexists. reflexivity. }
  destruct Hbt1 as (b1 & Hbt1).
  assert (Hbt2 : exists b,
            bt2 = mkTree
                    (mkNode [] [mkEdge ab (mkNode [] [mkEdge [("c"%byte)] (mkNode abc [] d1 [])] d2 [])]
                            [] [])
                    b 2).
  { subst bt2. rewrite Hbt1. unfold bytetree.Update, doUpdate.
    cbn -[bytetree.node_doUpdate].
    rewrite !bool_decide_eq_true_2 by reflexivity.
    cbn -[bytetree.node_doUpdate]. unfold split.
    cbn -[bytetree.node_doUpdate].
    rewrite bool_decide_eq_false_2 by (intros H; apply H; reflexivity).
    rewrite E2. eexists. reflexivity. }
  destruct Hbt2 as (b2 & Hbt2).
  exists d2, d1. rewrite Hbt2.
  split; [| split; [done | split; [done | split]]].
  - unfold Walk. cbn [root size walk_loop deref mbind option_bind Nat.add].
    unfold visit at 1. cbn [data].
    rewrite bool_decide_eq_true_2 by done. cbn [negb targets edges imap app].
    cbn [walk_loop deref mbind option_bind lookup list_lookup edges target app Nat.add].
    unfold visit at 1. cbn [data].
    rewrite (bool_decide_eq_false_2 (d2 = [])) by done.
    cbn [negb wasRemovedFor Z.eqb collect key data targets edges imap app].
    cbn [walk_loop deref mbind option_bind lookup list_lookup edges target app Nat.add].
    unfold visit at 1. cbn [data].
    rewrite (bool_decide_eq_false_2 (d1 = [])) by done.
    reflexivity.
  - cbn. reflexivity.
  - reflexivity.
Qed.

End UpdateFacts.

Section TreeWitnesses.
Import bytetree scenarioTree.

Example Walk_prefix_key_witness :
  exists d_ab d_abc : list Sequence,
    snd <$> Walk collect
      (snd (Update (Field:=unit) (TSParams:=list byte) (Metadata:=unit)
              (Duration:=unit) (Time:=unit)
              (fun cur vals _ _ _ _ => cur ++ vals) (fun s => Z.of_nat (length s))
              [tt] tt tt
              (snd (Update (Field:=unit) (TSParams:=list byte) (Metadata:=unit)
                      (Duration:=unit) (Time:=unit)
                      (fun cur vals _ _ _ _ => cur ++ vals)
                      (fun s => Z.of_nat (length s)) [tt] tt tt
                      New abc ["1"%byte] tt))
              ab ["2"%byte] tt)) 0 []
    = Some [([], d_ab); (abc, d_abc)].
Proof.
  destruct (Walk_prefix_key_delivered_without_key
              (Field:=unit) (TSParams:=list byte) (Metadata:=unit)
              (Duration:=unit) (Time:=unit)
              (fun cur vals _ _ _ _ => cur ++ vals) (fun s => Z.of_nat (length s))
              [tt] tt tt ["1"%byte] ["2"%byte] tt tt)
    as (d_ab & d_abc & H & _).
  - discriminate.
  - exists d_ab, d_abc. exact H.
Defined.

(** The copy of the marked memstore shows under the context 7 what the
    memstore shows under the context 0. *)
Example Copy_spec_witness :
  data (root marked) = []
  /\ exists cp : Tree, Copy marked = Some cp
       /\ snd <$> Walk collect cp 7 [] = snd <$> Walk collect marked 0 [].
Proof.
  split; [reflexivity |].
  destruct (Copy_spec marked) as (cp & HC & _ & _ & _ & _ & HW & _).
  exists cp. split; [exact HC |].
  apply (HW eq_refl).
Defined.

End TreeWitnesses.

(** * The round trip through a file *)

Section Decoders.
Import fileStore binaryEncoding.


Lemma pow256_8 : 256 ^ Z.of_nat 8 = 2 ^ 64.
Proof. reflexivity. Qed.








Lemma length_concat_le8 (columns : list sequence) :
  length (concat (map (fun sq => bytes.le_bytes 8 (Z.of_nat (length sq) mod 2 ^ 64)) columns))
  = (8 * length columns)%nat.
Proof.
  induction columns as [|c cols IH]; [done |].
  cbn [map concat length]. rewrite length_app, le_bytes_length, IH. lia.
Qed.

Lemma rowLengthOf_eq (key : list byte) (columns : list sequence) :
  rowLengthOf key columns = Z.of_nat (length (encodeRow key columns)).
Proof.
  unfold rowLengthOf, encodeRow.
  rewrite !length_app, !le_bytes_length, length_concat_le8.
  unfold width64bits, width16bits.
  assert (Hgen : forall a, foldl (fun rowLength sq => rowLength + (8 + Z.of_nat (length sq))) a columns
                           = a + Z.of_nat (8 * length columns + length (concat columns))).
  { induction columns as [|c cols IH]; intros a; [cbn; lia |].
    cbn [foldl concat length]. rewrite IH, length_app. lia. }
  rewrite Hgen. lia.
Qed.





End Decoders.

Section RoundTrip.
Import fileStore binaryEncoding.
Context {Expr Duration Time St : Type}.
Variable merge : sequence -> sequence -> Expr -> Duration -> Time -> sequence.
Variable truncate : sequence -> Z -> Duration -> Time -> sequence.
Variable EncodedWidth : Expr -> Z.
Variable Fields : list (Field (Expr:=Expr)).
Variable Resolution : Duration.
Variable truncateBefore : Time.
Variable ctx : Z.
Variable onRow : list byte -> list sequence -> St -> St.

Lemma encodeRow_length (key : list byte) (columns : list sequence) :
  (12 <= length (encodeRow key columns))%nat.
Proof.
  unfold encodeRow. rewrite !length_app, !le_bytes_length. lia.
Qed.

Lemma ReadUint_row (key : list byte) (columns : list sequence) (rest : list byte) :
  rowLengthOf key columns < 2 ^ 63 ->
  golib.ReadUint (encodeRow key columns ++ rest) 8
  = golib.ReadOk (rowLengthOf key columns) (drop 8 (encodeRow key columns) ++ rest).
Proof.
  intros Hr. pose proof (encodeRow_length key columns) as Hlen.
  unfold golib.ReadUint, golib.ReadFull. cbn [Nat.eqb].
  rewrite length_app.
  destruct (Nat.leb_spec 8 (length (encodeRow key columns) + length rest)); [| lia].
  rewrite take_app_le, drop_app_le by lia.
  f_equal. unfold encodeRow at 1.
  rewrite take_app_length' by (by rewrite le_bytes_length).
  rewrite le_value_bytes_small; [apply Z.mod_small |]; rewrite ?pow256_8.
  - rewrite rowLengthOf_eq in *. lia.
  - apply Z.mod_pos_bound. lia.
Qed.

Lemma ReadFull_row (key : list byte) (columns : list sequence) (rest : list byte) :
  golib.ReadFull (drop 8 (encodeRow key columns) ++ rest)
    (Z.to_nat (rowLengthOf key columns - width64bits))
  = golib.ReadOk (drop 8 (encodeRow key columns)) rest.
Proof.
  pose proof (encodeRow_length key columns) as Hlen.
  rewrite rowLengthOf_eq. unfold width64bits, golib.ReadFull.
  replace (Z.to_nat (Z.of_nat (length (encodeRow key columns)) - 8))
    with (length (drop 8 (encodeRow key columns))) by (rewrite length_drop; lia).
  destruct (Nat.eqb_spec (length (drop 8 (encodeRow key columns))) 0) as [H0|_].
  { rewrite length_drop in H0. lia. }
  rewrite length_app.
  destruct (Nat.leb_spec (length (drop 8 (encodeRow key columns)))
                         (length (drop 8 (encodeRow key columns)) + length rest)); [| lia].
  by rewrite take_app_length, drop_app_length.
Qed.


(** ** What [write] emits *)



(** ** The header *)


(** ** Written, then read *)





End RoundTrip.



(** * The sequence codec on scenario S1 *)

Section SequenceFacts.
Import binaryEncoding.
Context {Metadata E : Type} `{!expr.Expr (Metadata:=Metadata) E}.
















End SequenceFacts.

Section S1.
Import scenarioS1.








End S1.

(** * More on AVG: updates, and reads after updates and merges *)

Section AvgUpdate.
Context {Metadata E : Type} `{!expr.Expr (Metadata:=Metadata) E}.
Variable e : expr.avg E.

Lemma take17_drop17 (b more' : list byte) :
  (17 <= length b)%nat -> drop 17 (take 17 b ++ more') = more'.
Proof.
  intros Hb. rewrite drop_app_length'; [done |]. rewrite length_take. lia.
Qed.

(** An update that the wrapped expression reports as made adds one to the
    count and the wrapped value to the total, whatever the flag was before
    (an unset state counts as count 0 and total 0), and marks the state as
    set. The value returned is the one that [get] reads from the state
    left. *)
Theorem avg_update_counts (b : list byte) (params : expr.Params) (metadata : Metadata)
    (c t : float64) (s : bool) (more more' remain : list byte) (v : float64) :
  expr.load b = Done (c, t, s, more) ->
  expr.Update (expr.wrapped e) more params metadata = Done (more', (remain, v, true)) ->
  let c' := f64.add c f64.one in
  let t' := f64.add t v in
  expr.update e b params metadata
    = Done (expr.encoded c' t' more', (remain, expr.calc c' t', true))
  /\ expr.get e (expr.encoded c' t' more') = Done (expr.calc c' t', true, more').
Proof.
  intros Hload Hw c' t'.
  destruct (avg_load_inv _ _ _ _ _ Hload) as (Hlen & -> & _ & _).
  split.
  - unfold expr.update. rewrite Hload. cbn [mbind go_bind]. rewrite Hw.
    cbn [mbind go_bind]. fold c' t'.
    change (Z.to_nat (binaryEncoding.width64bits * 2 + 1)) with 17%nat.
    rewrite avg_save_ok by (rewrite length_app, length_take; lia).
    cbn [mbind go_bind]. by rewrite take17_drop17.
  - unfold expr.get.
    rewrite avg_load_encoded by apply f64_add_range.
    reflexivity.
Qed.

(** An update that the wrapped expression reports as not made leaves the 17
    bytes of the count, the total and the flag as they were: an unset state
    stays unset. *)
Theorem avg_update_skipped (b : list byte) (params : expr.Params) (metadata : Metadata)
    (c t : float64) (s : bool) (more more' remain : list byte) (v : float64) :
  expr.load b = Done (c, t, s, more) ->
  expr.Update (expr.wrapped e) more params metadata = Done (more', (remain, v, false)) ->
  expr.update e b params metadata
    = Done (take 17 b ++ more', (remain, expr.calc c t, false))
  /\ (more' = more ->
      expr.update e b params metadata = Done (b, (remain, expr.calc c t, false))).
Proof.
  intros Hload Hw.
  destruct (avg_load_inv _ _ _ _ _ Hload) as (Hlen & Hmore & _ & _).
  assert (Hupd : expr.update e b params metadata
                 = Done (take 17 b ++ more', (remain, expr.calc c t, false))).
  { unfold expr.update. rewrite Hload. cbn [mbind go_bind]. rewrite Hw. reflexivity. }
  split; [exact Hupd |].
  intros ->. rewrite Hupd, Hmore, take_drop. reflexivity.
Qed.

(** The merge of two set states reads back as the total of the totals over
    the count of the counts. *)
Theorem avg_merge_get (d x y : list byte)
    (cx tx : float64) (rx : list byte) (cy ty : float64) (ry : list byte) :
  (17 <= length d)%nat ->
  expr.load x = Done (cx, tx, true, rx) ->
  expr.load y = Done (cy, ty, true, ry) ->
  exists d' : list byte,
    expr.merged e d x y = Done d'
    /\ expr.get e d'
       = Done (expr.calc (f64.add cx cy) (f64.add tx ty), true, drop 17 d).
Proof.
  intros Hd Hx Hy. eexists. split.
  - rewrite (avg_merged_eq e d x y _ _ _ _ _ _ _ _ Hd Hx Hy). reflexivity.
  - unfold expr.get. rewrite avg_load_encoded by apply f64_add_range. reflexivity.
Qed.

(** A state of fewer than 17 bytes cannot be read: [get], [update] and
    [merge] panic on it, set or not. *)
Theorem avg_short_state_panics (b : list byte) :
  (length b < 17)%nat ->
  expr.get e b = Panic "slice bounds out of range"
  /\ (forall params metadata,
        expr.update e b params metadata = Panic "slice bounds out of range")
  /\ (forall d y, expr.merge e d b y = Panic "slice bounds out of range").
Proof.
  intros Hb. pose proof (avg_load_short b Hb) as Hload.
  split; [| split].
  - unfold expr.get. by rewrite Hload.
  - intros. unfold expr.update. by rewrite Hload.
  - intros. unfold expr.merge. by rewrite Hload.
Qed.

End AvgUpdate.

Section AvgWitnesses.
Let e : expr.avg expr.field := {| expr.wrapped := expr.FIELD "a" |}.
Let params : expr.Params := bytemapParams.Get {[ "a" := bytemap.VFloat 0x4000000000000000 ]}.
Let none : expr.Params := bytemapParams.Get ∅.

Example avg_update_counts_witness :
  expr.update (Metadata:=unit) e (bytes.make 17) params tt
    = Done (expr.encoded (f64.add f64.zero f64.one) (f64.add f64.zero 0x4000000000000000) [],
            ([], expr.calc (f64.add f64.zero f64.one) (f64.add f64.zero 0x4000000000000000),
             true)).
Proof.
  apply (avg_update_counts (Metadata:=unit) e (bytes.make 17) params tt
           f64.zero f64.zero false [] [] [] 0x4000000000000000); reflexivity.
Defined.

Example avg_update_skipped_witness :
  expr.update (Metadata:=unit) e (bytes.make 17) none tt
    = Done (bytes.make 17, ([], expr.calc f64.zero f64.zero, false)).
Proof.
  apply (avg_update_skipped (Metadata:=unit) e (bytes.make 17) none tt
           f64.zero f64.zero false [] [] [] f64.zero); reflexivity.
Defined.

Example avg_merge_get_witness :
  exists d' : list byte,
    expr.merged e (bytes.make 17)
      (expr.encoded f64.one 0x4000000000000000 [])
      (expr.encoded f64.one 0x4010000000000000 []) = Done d'
    /\ expr.get e d'
       = Done (expr.calc (f64.add f64.one f64.one)
                         (f64.add 0x4000000000000000 0x4010000000000000), true, []).
Proof.
  apply (avg_merge_get e (bytes.make 17) _ _
           f64.one 0x4000000000000000 [] f64.one 0x4010000000000000 []).
  - vm_compute. lia.
  - reflexivity.
  - reflexivity.
Defined.

Example avg_short_state_panics_witness :
  expr.get e (bytes.make 16) = Panic "slice bounds out of range".
Proof.
  apply (avg_short_state_panics (Metadata:=unit) e (bytes.make 16)).
  vm_compute. lia.
Defined.

End AvgWitnesses.

(** * The search by key *)

Section Locate.
Import bytetree radix.

Lemma node_eta (n : node) : mkNode (key n) (edges n) (data n) (removedFor n) = n.
Proof. by destruct n. Qed.

Lemma edge_eta (e : edge) : mkEdge (label e) (target e) = e.
Proof. by destruct e. Qed.

Lemma locate_eq (n : node) (key : list byte) :
  locate n key = locateIn locate key 0%nat (edges n).
Proof. by destruct n. Qed.

Lemma store_cons (f : node -> node) (n : node) (i : nat) (p : path) :
  store f n (i :: p)
  = mkNode (key n)
           (alter (fun e => mkEdge (label e) (store f (target e) p)) i (edges n))
           (data n) (removedFor n).
Proof. reflexivity. Qed.

Lemma store_id (f : node -> node) (rt : node) (p : path) :
  (forall c, f c = c) -> store f rt p = rt.
Proof.
  intros Hf. revert rt. induction p as [|i p IH]; intros rt; [apply Hf |].
  rewrite store_cons. rewrite list_alter_id; [apply node_eta |].
  intros e. rewrite IH. apply edge_eta.
Qed.

Lemma alter_middle {A : Type} (f : A -> A) (pre : list A) (x : A) (post : list A) :
  alter f (length pre) (pre ++ x :: post) = pre ++ f x :: post.
Proof.
  replace (length pre) with (length pre + 0)%nat by lia.
  by rewrite alter_app_r.
Qed.

Lemma commonPrefix_le (l k : list byte) :
  (commonPrefix l k <= length l)%nat /\ (commonPrefix l k <= length k)%nat.
Proof.
  revert k. induction l as [|a l IH]; intros [|b k]; cbn; try lia.
  case_bool_decide; cbn; [| lia]. destruct (IH k). lia.
Qed.

Lemma commonPrefix_label (l k : list byte) :
  commonPrefix l k = length l -> k = l ++ drop (length l) k.
Proof.
  revert k. induction l as [|a l IH]; intros [|b k]; cbn; try done.
  case_bool_decide as Hab; [| done]. intros [= Hc]. subst b. f_equal. by apply IH.
Qed.

Lemma commonPrefix_exact (l k : list byte) :
  commonPrefix l k = length k -> length k = length l -> l = k.
Proof.
  intros H1 H2.
  assert (H3 : commonPrefix l k = length l) by lia.
  apply commonPrefix_label in H3.
  rewrite drop_ge, app_nil_r in H3 by lia. done.
Qed.

(** [Remove] is the search for the pointer, followed by the mark. *)
Lemma remove_loop_locate (ctx : Z) (n : node) :
  forall key : list byte, remove_loop ctx n key = removeAt ctx n key.
Proof.
  induction n as [k es d r IH] using node_ind'.
  intros key. unfold removeAt. cbn [remove_loop locate].
  match goal with
  | |- match ?scan es with _ => _ end = _ => set (rscan := scan)
  end.
  assert (Hscan : forall pre,
    match rscan es with
    | Some (res, es') => (res, mkNode k (pre ++ es') d r)
    | None => ([], mkNode k (pre ++ es) d r)
    end
    = match locateIn locate key (length pre) es with
      | Some p =>
          match deref (mkNode k (pre ++ es) d r) p with
          | Some t =>
              if wasRemovedFor t ctx then ([], mkNode k (pre ++ es) d r)
              else (data t, store (fun c => doRemoveFor c ctx) (mkNode k (pre ++ es) d r) p)
          | None => ([], mkNode k (pre ++ es) d r)
          end
      | None => ([], mkNode k (pre ++ es) d r)
      end).
  { induction IH as [|[lbl tgt] es He _ IHes]; intros pre; [done |].
    cbn [rscan locateIn label target].
    destruct ((commonPrefix lbl key =? length key)%nat
              && (length key =? length lbl)%nat).
    { cbn [deref edges mbind option_bind].
      rewrite list_lookup_middle by done. cbn [mbind option_bind target deref].
      destruct (wasRemovedFor tgt ctx); [done |].
      rewrite store_cons. cbn [bytetree.key edges data removedFor].
      rewrite alter_middle. reflexivity. }
    destruct ((commonPrefix lbl key =? length lbl)%nat
              && (length lbl <? length key)%nat).
    { cbn [target] in He. rewrite He. unfold removeAt.
      destruct (locate tgt (drop (length lbl) key)) as [p'|]; [| done].
      cbn [fmap option_fmap option_map deref edges mbind option_bind].
      rewrite list_lookup_middle by done. cbn [mbind option_bind target].
      destruct (deref tgt p') as [t|]; [| done].
      destruct (wasRemovedFor t ctx); [done |].
      rewrite store_cons. cbn [bytetree.key edges data removedFor].
      rewrite alter_middle. reflexivity. }
    specialize (IHes (pre ++ [mkEdge lbl tgt])).
    rewrite length_app in IHes. cbn [length] in IHes.
    replace (length pre + 1)%nat with (S (length pre)) in IHes by lia.
    rewrite <- !app_assoc in IHes. cbn [app] in IHes.
    rewrite <- IHes.
    destruct (rscan es) as [[res es']|]; cbn [mbind option_bind].
    - by rewrite <- app_assoc.
    - done. }
  exact (Hscan []).
Qed.

Lemma Remove_locate (bt : Tree) (ctx : Z) (k : list byte) :
  Remove bt ctx k
  = (fst (removeAt ctx (root bt) k),
     mkTree (snd (removeAt ctx (root bt) k)) (tbytes bt) (tlength bt)).
Proof.
  unfold Remove. rewrite remove_loop_locate. by destruct (removeAt ctx (root bt) k).
Qed.

(** The search looks at the labels only. *)
Lemma locateIn_ext (key : list byte) (es1 es2 : list edge) :
  Forall2 (fun e1 e2 => label e1 = label e2
                        /\ forall key, locate (target e1) key = locate (target e2) key)
          es1 es2 ->
  forall j, locateIn locate key j es1 = locateIn locate key j es2.
Proof.
  induction 1 as [|e1 e2 es1 es2 [Hl Ht] _ IH]; intros j; [done |].
  cbn [locateIn]. rewrite Hl, Ht, IH. reflexivity.
Qed.

Lemma locate_store (f : node -> node) (p : path) :
  (forall c, edges (f c) = edges c) ->
  forall (n : node) (key : list byte), locate (store f n p) key = locate n key.
Proof.
  intros Hf. induction p as [|i p IH]; intros n key.
  - cbn [store]. by rewrite !locate_eq, Hf.
  - rewrite store_cons, !locate_eq. cbn [edges].
    apply locateIn_ext.
    apply Forall2_same_length_lookup_2; [by rewrite length_alter |].
    intros j e1 e2 H1 H2.
    destruct (decide (j = i)) as [-> | Hne].
    + rewrite list_lookup_alter_eq, H2 in H1. injection H1 as <-.
      cbn [label target]. split; [done | apply IH].
    + rewrite list_lookup_alter_ne in H1 by done. by simplify_eq.
Qed.

Lemma locateIn_spec (key : list byte) (k : list byte) (d : list Sequence) (r : list Z)
    (es : list edge) :
  Forall (fun e => forall key p, locate (target e) key = Some p ->
                                 p <> [] /\ is_Some (deref (target e) p)
                                 /\ pathKey (target e) p = key) es ->
  forall (pre : list edge) (p : path),
    locateIn locate key (length pre) es = Some p ->
    p <> [] /\ is_Some (deref (mkNode k (pre ++ es) d r) p)
    /\ pathKey (mkNode k (pre ++ es) d r) p = key.
Proof.
  induction 1 as [|[lbl tgt] es He _ IHes]; intros pre p; [done |].
  cbn [locateIn label target].
  destruct ((commonPrefix lbl key =? length key)%nat
            && (length key =? length lbl)%nat) eqn:Hexact.
  { intros [= <-]. split; [done |].
    cbn [deref pathKey edges mbind option_bind].
    rewrite list_lookup_middle by done. cbn [mbind option_bind label target].
    split; [by eexists |].
    apply andb_prop in Hexact as [H1%Nat.eqb_eq H2%Nat.eqb_eq].
    rewrite app_nil_r. by apply commonPrefix_exact. }
  destruct ((commonPrefix lbl key =? length lbl)%nat
            && (length lbl <? length key)%nat) eqn:Hdesc.
  { destruct (locate tgt (drop (length lbl) key)) as [p'|] eqn:Hp'; [| done].
    intros [= <-]. split; [done |].
    cbn [deref pathKey edges mbind option_bind].
    rewrite list_lookup_middle by done. cbn [mbind option_bind label target].
    destruct (He _ _ Hp') as (_ & Hsome & Hkey). cbn [target] in *.
    split; [done |]. rewrite Hkey.
    apply andb_prop in Hdesc as [H1%Nat.eqb_eq _].
    symmetry. by apply commonPrefix_label. }
  intros Hp. specialize (IHes (pre ++ [mkEdge lbl tgt]) p).
  rewrite length_app in IHes. cbn [length] in IHes.
  replace (length pre + 1)%nat with (S (length pre)) in IHes by lia.
  rewrite <- !app_assoc in IHes. by apply IHes.
Qed.

(** The pointer found leads to a node below the root, and the labels on
    the way spell the key. *)
Lemma locate_spec (n : node) :
  forall (key : list byte) (p : path),
    locate n key = Some p ->
    p <> [] /\ is_Some (deref n p) /\ pathKey n p = key.
Proof.
  induction n as [k es d r IH] using node_ind'.
  intros key p Hp. cbn [locate] in Hp.
  exact (locateIn_spec key k d r es IH [] p Hp).
Qed.

Lemma locate_inj (n : node) (k1 k2 : list byte) (p : path) :
  locate n k1 = Some p -> locate n k2 = Some p -> k1 = k2.
Proof.
  intros H1 H2.
  destruct (locate_spec n k1 p H1) as (_ & _ & <-).
  by destruct (locate_spec n k2 p H2) as (_ & _ & <-).
Qed.

Lemma wasRemovedFor_doRemoveFor (c : node) (ctx ctx' : Z) :
  wasRemovedFor (doRemoveFor c ctx) ctx'
  = wasRemovedFor c ctx' || (negb (ctx =? 0) && (ctx =? ctx')).
Proof.
  unfold wasRemovedFor, doRemoveFor.
  destruct (Z.eqb_spec ctx' 0) as [-> | H0].
  - destruct (Z.eqb_spec ctx 0) as [-> | Hc]; cbn; [done |].
    destruct (Z.eqb_spec ctx 0); [done |]. cbn. done.
  - destruct (Z.eqb_spec ctx 0) as [-> | Hc]; cbn.
    + by rewrite orb_false_r.
    + rewrite existsb_app. cbn. by rewrite orb_false_r.
Qed.

End Locate.

(** * Removal under a context *)

Section RemoveFacts.
Import bytetree radix.

Lemma strip_store (f : node -> node) (p : path) :
  (forall c, strip (f c) = strip c) ->
  forall n, strip (store f n p) = strip n.
Proof.
  intros Hf. induction p as [|i p IH]; intros n; [apply Hf |].
  rewrite store_cons, !strip_eq. cbn [key edges data].
  f_equal. apply list_eq. intros j. rewrite !list_lookup_fmap.
  destruct (decide (j = i)) as [-> | Hne].
  - rewrite list_lookup_alter_eq. destruct (edges n !! i) as [e|]; [| done].
    cbn. unfold stripEdge. cbn [label target]. by rewrite IH.
  - by rewrite list_lookup_alter_ne.
Qed.

Lemma strip_doRemoveFor (c : node) (ctx : Z) : strip (doRemoveFor c ctx) = strip c.
Proof. unfold doRemoveFor. destruct (ctx =? 0); [done |]. by rewrite !strip_eq. Qed.

(** What a removal under [ctx] leaves at the pointer [q], as far as a
    removal for [ctx'] looks at it. *)
Lemma deref_removed (ctx ctx' : Z) (n : node) (p q : path) :
  q <> p \/ ctx' <> ctx ->
  (fun t => (wasRemovedFor t ctx', data t))
    <$> deref (store (fun c => doRemoveFor c ctx) n p) q
  = (fun t => (wasRemovedFor t ctx', data t)) <$> deref n q.
Proof.
  intros Hne. apply deref_store_obs.
  - done.
  - apply doRemoveFor_edges.
  - intros -> c. destruct Hne as [? | Hne]; [done |].
    rewrite wasRemovedFor_doRemoveFor.
    destruct (Z.eqb_spec ctx ctx'); [congruence |].
    rewrite andb_false_r, orb_false_r.
    unfold doRemoveFor. by destruct (ctx =? 0).
Qed.

(** A key removed under a context other than 0 is gone for that context:
    the next [Remove] of it under the context returns nil and changes
    nothing. *)
Theorem Remove_once (bt : Tree) (ctx : Z) (k : list byte) :
  ctx <> 0 ->
  Remove (snd (Remove bt ctx k)) ctx k = ([], snd (Remove bt ctx k)).
Proof.
  intros Hctx. rewrite (Remove_locate bt). cbn [snd].
  set (n1 := snd (removeAt ctx (root bt) k)).
  rewrite Remove_locate. cbn [fst snd root tbytes tlength].
  assert (H : removeAt ctx n1 k = ([], n1)); [| by rewrite H].
  subst n1. unfold removeAt.
  destruct (locate (root bt) k) as [p|] eqn:Hp; cbn [snd]; [| by rewrite Hp].
  destruct (deref (root bt) p) as [t|] eqn:Ht; cbn [snd]; [| by rewrite Hp, Ht].
  destruct (wasRemovedFor t ctx) eqn:Hrem; cbn [snd]; [by rewrite Hp, Ht, Hrem |].
  rewrite locate_store by apply doRemoveFor_edges. rewrite Hp.
  rewrite deref_store_eq, Ht. cbn [fmap option_fmap option_map].
  rewrite wasRemovedFor_doRemoveFor, Z.eqb_refl.
  destruct (Z.eqb_spec ctx 0); [done |]. by rewrite orb_true_r.
Qed.

(** A removal is seen under its own context and for its own key only:
    what [Remove] returns under another context, or for another key, is
    what it returned before. *)
Theorem Remove_frame (bt : Tree) (ctx ctx' : Z) (k k' : list byte) :
  ctx' <> ctx \/ k' <> k ->
  fst (Remove (snd (Remove bt ctx k)) ctx' k') = fst (Remove bt ctx' k').
Proof.
  intros Hne. rewrite (Remove_locate bt ctx). cbn [snd].
  rewrite !Remove_locate. cbn [fst snd root tbytes tlength].
  set (n1 := snd (removeAt ctx (root bt) k)).
  assert (Hn1 : n1 = root bt
                \/ exists p, locate (root bt) k = Some p
                              /\ n1 = store (fun c => doRemoveFor c ctx) (root bt) p).
  { subst n1. unfold removeAt.
    destruct (locate (root bt) k) as [p|] eqn:Hp; [| by left].
    destruct (deref (root bt) p) as [t|] eqn:Ht; [| by left].
    destruct (wasRemovedFor t ctx) eqn:Hrem; [by left |]. right. by exists p. }
  destruct Hn1 as [-> | (p & Hp & ->)]; [done |].
  unfold removeAt.
  rewrite locate_store by apply doRemoveFor_edges.
  destruct (locate (root bt) k') as [q|] eqn:Hq; [| done].
  assert (Hqp : q <> p \/ ctx' <> ctx).
  { destruct Hne as [? | Hk]; [by right | left].
    intros ->. apply Hk. by eapply locate_inj. }
  pose proof (deref_removed ctx ctx' (root bt) p q Hqp) as Hobs.
  destruct (deref (store _ (root bt) p) q) as [t1|], (deref (root bt) q) as [t2|];
    cbn in Hobs; try done.
  injection Hobs as -> ->. by destruct (wasRemovedFor t2 ctx').
Qed.


(** [Remove] changes nothing but marks of removal: the counters, and the
    keys, labels, data and shape of the tree, stay as they were. *)
Theorem Remove_only_marks (bt : Tree) (ctx : Z) (k : list byte) :
  strip (root (snd (Remove bt ctx k))) = strip (root bt)
  /\ tbytes (snd (Remove bt ctx k)) = tbytes bt
  /\ tlength (snd (Remove bt ctx k)) = tlength bt.
Proof.
  rewrite Remove_locate. cbn [snd root tbytes tlength]. split; [| done].
  unfold removeAt.
  destruct (locate (root bt) k) as [p|]; [| done].
  destruct (deref (root bt) p) as [t|]; [| done].
  destruct (wasRemovedFor t ctx); [done |]. cbn [snd].
  apply strip_store. intros c. apply strip_doRemoveFor.
Qed.

End RemoveFacts.

Section RemoveWitnesses.
Import bytetree.

Example Remove_once_witness :
  Remove (snd (Remove scenario.memStore 7 scenario.keyK)) 7 scenario.keyK
  = ([], snd (Remove scenario.memStore 7 scenario.keyK)).
Proof. apply (Remove_once scenario.memStore 7 scenario.keyK). discriminate. Defined.

Example Remove_frame_witness :
  fst (Remove (snd (Remove scenario.memStore 7 scenario.keyK)) 8 scenario.keyK)
  = fst (Remove scenario.memStore 8 scenario.keyK).
Proof.
  apply (Remove_frame scenario.memStore 7 8 scenario.keyK scenario.keyK).
  left. discriminate.
Defined.

End RemoveWitnesses.

(** * What a walk delivers *)

Section Visible.
Import bytetree radix scenarioTree.

Lemma visible_eq (ctx : Z) (n : node) :
  visible ctx n
  = (if bool_decide (data n = []) || wasRemovedFor n ctx then []
     else [(key n, data n)])
    ++ concat (map (fun e => visible ctx (target e)) (edges n)).
Proof.
  destruct n as [k es d r]. cbn [visible key data edges]. f_equal.
  induction es as [|e es IH]; [done |]. cbn [map concat]. by rewrite <- IH.
Qed.

Lemma entries_eq (n : node) :
  entries n
  = (if bool_decide (data n = []) then [] else [(key n, data n)])
    ++ concat (map (fun e => entries (target e)) (edges n)).
Proof.
  destruct n as [k es d r]. cbn [entries key data edges]. f_equal.
  induction es as [|e es IH]; [done |]. cbn [map concat]. by rewrite <- IH.
Qed.

Lemma visible_0 (n : node) : visible 0 n = entries n.
Proof.
  induction n as [k es d r IH] using node_ind'.
  rewrite visible_eq, entries_eq, wasRemovedFor_0, orb_false_r.
  cbn [edges]. f_equal. f_equal.
  induction IH as [|e es He _ IHes]; [done |]. cbn [map]. by rewrite He, IHes.
Qed.

Lemma visibleAt_targets (ctx : Z) (rt : node) (p : path) (n : node) :
  deref rt p = Some n ->
  concat (map (visibleAt ctx rt) (targets p n))
  = concat (map (fun e => visible ctx (target e)) (edges n)).
Proof.
  intros Hn. f_equal. apply list_eq. intros i. unfold targets.
  rewrite !list_lookup_fmap, list_lookup_imap.
  unfold visibleAt.
  destruct (edges n !! i) as [e|] eqn:He; cbn; [| done].
  by rewrite (deref_target _ _ _ _ Hn), He.
Qed.

Lemma visit_collect (ctx : Z) (rt : node) (p : path) (n : node)
    (s : list (list byte * list Sequence)) :
  visit collect ctx rt p n s
  = (rt, s ++ (if bool_decide (data n = []) || wasRemovedFor n ctx then []
               else [(key n, data n)])).
Proof.
  unfold visit, collect.
  destruct (bool_decide (data n = [])); cbn; [by rewrite app_nil_r |].
  destruct (wasRemovedFor n ctx); cbn; [by rewrite app_nil_r | done].
Qed.

Lemma walk_loop_collect (fuel : nat) :
  forall (ctx : Z) (rt : node) (Q : list path) (s : list (list byte * list Sequence)),
    (forall p, p ∈ Q -> is_Some (deref rt p)) ->
    (sum_list_with (sizeAt rt) Q <= fuel)%nat ->
    exists l,
      walk_loop collect fuel ctx rt Q s = Some (rt, l)
      /\ l ≡ₚ s ++ concat (map (visibleAt ctx rt) Q).
Proof.
  induction fuel as [|fuel IH]; intros ctx rt Q s Hval Hfuel.
  - destruct Q as [|p Q].
    { exists s. split; [done |]. cbn. by rewrite app_nil_r. }
    exfalso. destruct (Hval p) as [n Hn]; [left |].
    cbn [sum_list_with] in Hfuel. unfold sizeAt at 1 in Hfuel. rewrite Hn in Hfuel.
    rewrite size_eq in Hfuel. lia.
  - destruct Q as [|p Q].
    { exists s. split; [done |]. cbn. by rewrite app_nil_r. }
    destruct (Hval p) as [n Hn]; [left |].
    cbn [walk_loop]. rewrite Hn. cbn [mbind option_bind].
    rewrite visit_collect.
    destruct (IH ctx rt (Q ++ targets p n)
                (s ++ (if bool_decide (data n = []) || wasRemovedFor n ctx then []
                       else [(key n, data n)]))) as (l & Hl & Hperm).
    + intros r [Hr | Hr]%elem_of_app.
      * apply Hval. by right.
      * apply list_elem_of_lookup in Hr as [i Hi].
        apply targets_lookup in Hi as [-> Hi].
        rewrite (deref_target _ _ _ _ Hn).
        destruct (lookup_lt_is_Some_2 (edges n) i Hi) as [e ->]. by eexists.
    + rewrite sum_list_with_app.
      cbn [sum_list_with] in Hfuel. unfold sizeAt at 1 in Hfuel. rewrite Hn in Hfuel.
      pose proof (sizeAt_targets rt p n Hn). lia.
    + exists l. split; [exact Hl |]. rewrite Hperm.
      rewrite map_app, concat_app, (visibleAt_targets _ _ _ _ Hn).
      assert (Hvp : visibleAt ctx rt p = visible ctx n) by (unfold visibleAt; by rewrite Hn).
      cbn [map concat]. rewrite Hvp, (visible_eq ctx n).
      rewrite <- !app_assoc. apply Permutation_app_head. apply Permutation_app_head.
      apply Permutation_app_comm.
Qed.

Lemma Walk_collect_visible (bt : Tree) (ctx : Z) :
  exists l : list (list byte * list Sequence),
    Walk collect bt ctx [] = Some (bt, l) /\ l ≡ₚ visible ctx (root bt).
Proof.
  destruct (walk_loop_collect (size (root bt)) ctx (root bt) [[]] []) as (l & Hl & Hperm).
  - intros p ->%list_elem_of_singleton. by eexists.
  - cbn. unfold sizeAt. cbn. lia.
  - exists l. unfold Walk. rewrite Hl. cbn [mbind option_bind].
    cbn in Hperm. unfold visibleAt in Hperm. cbn in Hperm. rewrite app_nil_r in Hperm.
    split; [by destruct bt | done].
Qed.

(** Under any context, a walk whose callback keeps every node calls it
    once for every node that holds data and is not removed for the
    context, with that node's key and data, and leaves the tree as it
    was. Under the context 0 those are all the nodes that hold data. *)
Theorem Walk_delivers_visible (bt : Tree) (ctx : Z) :
  exists l : list (list byte * list Sequence),
    Walk collect bt ctx [] = Some (bt, l)
    /\ l ≡ₚ visible ctx (root bt)
    /\ (ctx = 0 -> l ≡ₚ entries (root bt)).
Proof.
  destruct (Walk_collect_visible bt ctx) as (l & Hl & Hperm).
  exists l. split; [done |]. split; [done |].
  intros ->. by rewrite <- visible_0.
Qed.

End Visible.

(** * What a walk changes *)

Section WalkMarks.
Import bytetree radix.

Lemma wasRemovedFor_store_other (ctx ctx' : Z) (rt : node) (p q : path) :
  ctx' <> ctx ->
  (fun n => wasRemovedFor n ctx') <$> deref (store (fun n => doRemoveFor n ctx) rt p) q
  = (fun n => wasRemovedFor n ctx') <$> deref rt q.
Proof.
  intros Hne. apply deref_store_obs.
  - done.
  - apply doRemoveFor_edges.
  - intros _ c. rewrite wasRemovedFor_doRemoveFor.
    destruct (Z.eqb_spec ctx ctx'); [congruence |].
    by rewrite andb_false_r, orb_false_r.
Qed.

Lemma locate_strip (n : node) : forall key, locate (strip n) key = locate n key.
Proof.
  induction n as [k es d r IH] using node_ind'. intros key.
  rewrite strip_eq, !locate_eq. cbn [edges].
  apply locateIn_ext.
  induction IH as [|e es He _ IHes]; [constructor |].
  cbn [map]. constructor; [| exact IHes].
  unfold stripEdge. cbn [label target]. split; [done | apply He].
Qed.

Lemma locate_same_strip (n1 n2 : node) (key : list byte) :
  strip n1 = strip n2 -> locate n1 key = locate n2 key.
Proof. intros H. by rewrite <- (locate_strip n1), H, locate_strip. Qed.

(** The marks for [ctx] and the data decide what is visible. *)
Lemma visible_ext (ctx : Z) (n1 : node) :
  forall n2,
    (forall q, seen <$> deref n2 q = seen <$> deref n1 q) ->
    (forall q, (fun n => wasRemovedFor n ctx) <$> deref n2 q
               = (fun n => wasRemovedFor n ctx) <$> deref n1 q) ->
    visible ctx n2 = visible ctx n1.
Proof.
  induction n1 as [k es d r IH] using node_ind'. intros n2 Hseen Hrem.
  rewrite (visible_eq ctx n2), (visible_eq ctx (mkNode k es d r)).
  pose proof (Hseen []) as H0. cbn in H0. injection H0 as Hd Hk Hlen.
  pose proof (Hrem []) as H1. cbn in H1. injection H1 as Hr.
  cbn [data key edges] in *. rewrite Hd in Hk |- *. rewrite Hr.
  f_equal.
  { destruct (bool_decide (d = [])); [done |]. cbn. by rewrite Hk. }
  f_equal. apply list_eq. intros i. rewrite !list_lookup_fmap.
  destruct (es !! i) as [e1|] eqn:He1.
  - destruct (lookup_lt_is_Some_2 (edges n2) i) as [e2 He2].
    { rewrite Hlen. by eapply lookup_lt_Some. }
    rewrite He2. cbn. f_equal.
    rewrite Forall_lookup in IH. apply (IH i e1 He1).
    + intros q. specialize (Hseen (i :: q)). cbn in Hseen.
      by rewrite He1, He2 in Hseen.
    + intros q. specialize (Hrem (i :: q)). cbn in Hrem.
      by rewrite He1, He2 in Hrem.
  - rewrite (lookup_ge_None_2 (edges n2)); [done |].
    rewrite Hlen. by apply lookup_ge_None_1.
Qed.

Lemma visible_nil (ctx : Z) (n : node) :
  (forall q n', deref n q = Some n' -> data n' <> [] -> wasRemovedFor n' ctx = true) ->
  visible ctx n = [].
Proof.
  induction n as [k es d r IH] using node_ind'. intros Hall.
  rewrite visible_eq. cbn [data key edges].
  assert (Hown : bool_decide (d = []) || wasRemovedFor (mkNode k es d r) ctx = true).
  { case_bool_decide as Hd; [done |]. cbn. by apply (Hall [] _ eq_refl). }
  rewrite Hown. cbn [app].
  rewrite Forall_lookup in IH.
  assert (Hkids : Forall (fun l => l = []) (map (fun e => visible ctx (target e)) es)).
  { apply Forall_lookup. intros i l. rewrite list_lookup_fmap.
    destruct (es !! i) as [e|] eqn:He; [| done]. intros [= <-].
    apply (IH i e He). intros q n' Hq. apply (Hall (i :: q)). cbn. by rewrite He. }
  induction Hkids as [|l ls -> _ IHl]; [done | exact IHl].
Qed.

Section AnyCallback.
Context {S : Type}.
Variable fn : list byte -> list Sequence -> S -> bool * S.

(** A walk under [ctx] changes nothing but marks for [ctx], which it only
    adds; under the context 0 it changes nothing. *)
Lemma walk_loop_marks (fuel : nat) :
  forall (ctx : Z) (rt : node) (Q : list path) (s : S) (rt' : node) (s' : S),
    walk_loop fn fuel ctx rt Q s = Some (rt', s') ->
    strip rt' = strip rt
    /\ (forall q, seen <$> deref rt' q = seen <$> deref rt q)
    /\ (forall q ctx', ctx' <> ctx ->
          (fun n => wasRemovedFor n ctx') <$> deref rt' q
          = (fun n => wasRemovedFor n ctx') <$> deref rt q)
    /\ (forall q n n', deref rt q = Some n -> wasRemovedFor n ctx = true ->
          deref rt' q = Some n' -> wasRemovedFor n' ctx = true)
    /\ (ctx = 0 -> rt' = rt).
Proof.
  induction fuel as [|fuel IH]; intros ctx rt Q s rt' s' Hwalk.
  - destruct Q; [| done]. injection Hwalk as <- <-.
    repeat split; try done. intros q n n' Hn Hm Hn'. congruence.
  - destruct Q as [|p Q].
    { injection Hwalk as <- <-.
      repeat split; try done. intros q n n' Hn Hm Hn'. congruence. }
    destruct (deref rt p) as [n|] eqn:Hn; [| by cbn in Hwalk; rewrite Hn in Hwalk].
    destruct (walk_loop_cons fn fuel ctx rt p Q s n Hn) as (rt1 & s1 & Heq & Hrt1).
    rewrite Heq in Hwalk.
    destruct (IH _ _ _ _ _ _ Hwalk) as (Hstrip & Hseen & Hother & Hkeep & Hzero).
    destruct Hrt1 as [-> | ->]; [by repeat split |].
    split; [| split; [| split; [| split]]].
    + rewrite Hstrip. apply strip_store. intros c. apply strip_doRemoveFor.
    + intros q. by rewrite Hseen, seen_store.
    + intros q ctx' Hne. by rewrite Hother, wasRemovedFor_store_other.
    + intros q m m' Hm Hmark Hm'.
      pose proof (seen_store ctx rt p q) as Hs. rewrite Hm in Hs.
      destruct (deref (store (fun n => doRemoveFor n ctx) rt p) q) as [m1|] eqn:Hm1;
        [| done].
      apply (Hkeep q m1 m'); [done | | done].
      destruct (decide (q = p)) as [-> | Hqp].
      * rewrite deref_store_eq, Hm in Hm1. injection Hm1 as <-.
        by rewrite wasRemovedFor_doRemoveFor, Hmark.
      * pose proof (wasRemovedFor_store ctx ctx rt p q Hqp) as Hw.
        rewrite Hm1, Hm in Hw. cbn in Hw. congruence.
    + intros ->. rewrite Hzero by done. by apply store_id.
Qed.

(** A walk changes nothing but marks of removal for its own context: the
    counters and the keys, labels, data and shape of the tree stay, what a
    walk or a [Remove] under another context sees stays, and under the
    context 0 the tree stays as it was. *)
Theorem Walk_only_marks (bt : Tree) (ctx : Z) (s : S) (bt' : Tree) (s' : S) :
  Walk fn bt ctx s = Some (bt', s') ->
  strip (root bt') = strip (root bt)
  /\ tbytes bt' = tbytes bt /\ tlength bt' = tlength bt
  /\ (forall ctx', ctx' <> ctx ->
        visible ctx' (root bt') = visible ctx' (root bt)
        /\ forall k, fst (Remove bt' ctx' k) = fst (Remove bt ctx' k))
  /\ (ctx = 0 -> bt' = bt).
Proof.
  unfold Walk. intros Hwalk.
  destruct (walk_loop fn (size (root bt)) ctx (root bt) [[]] s) as [[rt' s1]|] eqn:Hloop;
    [| done].
  cbn in Hwalk. injection Hwalk as <- <-. cbn [root tbytes tlength].
  destruct (walk_loop_marks _ _ _ _ _ _ _ Hloop) as (Hstrip & Hseen & Hother & _ & Hzero).
  split; [done |]. split; [done |]. split; [done |]. split.
  - intros ctx' Hne. split.
    + apply visible_ext; [done |]. intros q. by apply Hother.
    + intros k. rewrite !Remove_locate. cbn [fst root]. unfold removeAt.
      rewrite (locate_same_strip rt' (root bt) k Hstrip).
      destruct (locate (root bt) k) as [p|]; [| done].
      specialize (Hseen p). specialize (Hother p ctx' Hne).
      destruct (deref rt' p) as [t1|], (deref (root bt) p) as [t2|]; cbn in *; try done.
      injection Hother as ->. injection Hseen as Hd _ _.
      destruct (wasRemovedFor t2 ctx'); [done |]. by cbn.
  - intros Hc. rewrite Hzero by done. by destruct bt.
Qed.

End AnyCallback.

Section DroppingCallback.
Context {S : Type}.
Variable fn : list byte -> list Sequence -> S -> bool * S.
Hypothesis fn_drops : forall k d s, fst (fn k d s) = false.
Variable ctx : Z.
Hypothesis ctx_not_0 : ctx <> 0.

Lemma visit_drop (rt : node) (p : path) (n : node) (s : S) :
  deref rt p = Some n ->
  exists rt1 s1,
    visit fn ctx rt p n s = (rt1, s1)
    /\ (rt1 = rt \/ rt1 = store (fun n => doRemoveFor n ctx) rt p)
    /\ exists n1, deref rt1 p = Some n1
                  /\ (data n1 = [] \/ wasRemovedFor n1 ctx = true).
Proof.
  intros Hn. unfold visit.
  case_bool_decide as Hd; cbn [negb].
  { exists rt, s. split; [done |]. split; [by left |]. exists n. by split; [| left]. }
  destruct (wasRemovedFor n ctx) eqn:Hrem; cbn [negb].
  { exists rt, s. split; [done |]. split; [by left |]. exists n. by split; [| right]. }
  pose proof (fn_drops (key n) (data n) s) as Hf.
  destruct (fn (key n) (data n) s) as [keep s1]. cbn in Hf. subst keep. cbn [negb].
  eexists _, s1. split; [done |]. split; [by right |].
  exists (doRemoveFor n ctx). rewrite deref_store_eq, Hn. split; [done |]. right.
  rewrite wasRemovedFor_doRemoveFor, Z.eqb_refl.
  destruct (Z.eqb_spec ctx 0); [done |]. by rewrite orb_true_r.
Qed.

Lemma walk_loop_drop (fuel : nat) :
  forall (rt : node) (Q : list path) (s : S) (rt' : node) (s' : S),
    walk_loop fn fuel ctx rt Q s = Some (rt', s') ->
    forall q n', deref rt' q = Some n' -> data n' <> [] ->
                 (exists p, p ∈ Q /\ p `prefix_of` q) ->
                 wasRemovedFor n' ctx = true.
Proof.
  induction fuel as [|fuel IH]; intros rt Q s rt' s' Hwalk q n' Hq Hdata (p0 & Hin & Hpre).
  - destruct Q; [by apply elem_of_nil in Hin | done].
  - destruct Q as [|p Q]; [by apply elem_of_nil in Hin |].
    cbn [walk_loop] in Hwalk.
    destruct (deref rt p) as [n|] eqn:Hn; [| done]. cbn [mbind option_bind] in Hwalk.
    destruct (visit_drop rt p n s Hn) as (rt1 & s1 & Hv & Hrt1 & n1 & Hn1 & Hmark).
    rewrite Hv in Hwalk.
    assert (Hseen1 : forall r, seen <$> deref rt1 r = seen <$> deref rt r).
    { intros r. destruct Hrt1 as [-> | ->]; [done | apply seen_store]. }
    destruct (walk_loop_marks fn _ _ _ _ _ _ _ Hwalk) as (_ & Hseen & _ & Hkeep & _).
    apply elem_of_cons in Hin as [-> | Hin].
    2:{ apply (IH _ _ _ _ _ Hwalk q n' Hq Hdata). exists p0. split; [| done].
        apply elem_of_app. by left. }
    destruct Hpre as [t ->]. destruct t as [|i t].
    + rewrite app_nil_r in Hq.
      pose proof (Hseen p) as Hs. rewrite Hq, Hn1 in Hs. cbn in Hs.
      injection Hs as Hd _ _.
      destruct Hmark as [Hnil | Hmark]; [congruence |].
      by apply (Hkeep p n1 n').
    + apply (IH _ _ _ _ _ Hwalk _ n' Hq Hdata). exists (p ++ [i]). split.
      * apply elem_of_app. right.
        rewrite deref_app in Hq.
        destruct (deref rt' p) as [np|] eqn:Hnp; [| done]. cbn in Hq.
        destruct (edges np !! i) as [e|] eqn:He; [| done].
        pose proof (Hseen p) as Hs. rewrite Hnp, Hseen1, Hn in Hs. cbn in Hs.
        injection Hs as _ _ Hlen.
        destruct (lookup_lt_is_Some_2 (edges n) i) as [e0 He0].
        { rewrite <- Hlen. by eapply lookup_lt_Some. }
        unfold targets. by apply (elem_of_lookup_imap_2 (fun i _ => p ++ [i]) _ e0).
      * exists t. by rewrite <- app_assoc.
Qed.

(** After a walk under a context other than 0 whose callback returns
    false for every node, nothing is left for that context: no node is
    visible under it, so that the next walk under it calls its callback
    for no node, and [Remove] under it returns nil for every key. *)
Theorem Walk_drop_all (bt : Tree) (s : S) :
  exists (bt' : Tree) (s' : S),
    Walk fn bt ctx s = Some (bt', s')
    /\ visible ctx (root bt') = []
    /\ Walk scenarioTree.collect bt' ctx [] = Some (bt', [])
    /\ forall k, fst (Remove bt' ctx k) = [].
Proof.
  destruct (Walk_total fn bt ctx s) as [[bt' s'] Hwalk].
  exists bt', s'. split; [done |].
  unfold Walk in Hwalk.
  destruct (walk_loop fn (size (root bt)) ctx (root bt) [[]] s) as [[rt' s1]|] eqn:Hloop;
    [| done].
  cbn in Hwalk. injection Hwalk as <- <-. cbn [root].
  assert (Hall : forall q n', deref rt' q = Some n' -> data n' <> [] ->
                              wasRemovedFor n' ctx = true).
  { intros q n' Hq Hd. apply (walk_loop_drop _ _ _ _ _ _ Hloop q n' Hq Hd).
    exists []. split; [by left | apply prefix_nil]. }
  assert (Hvis : visible ctx rt' = []) by (by apply visible_nil).
  split; [done |]. split.
  - destruct (Walk_collect_visible (mkTree rt' (tbytes bt) (tlength bt)) ctx)
      as (l & Hl & Hperm).
    cbn [root] in Hperm. rewrite Hvis in Hperm.
    apply Permutation_nil_r in Hperm. by subst l.
  - intros k. rewrite Remove_locate. cbn [fst root]. unfold removeAt.
    destruct (locate rt' k) as [p|]; [| done].
    destruct (deref rt' p) as [t|] eqn:Ht; [| done].
    destruct (wasRemovedFor t ctx) eqn:Hrem; [done |]. cbn [fst].
    destruct (decide (data t = [])) as [Hd | Hd]; [done |].
    by rewrite (Hall p t Ht Hd) in Hrem.
Qed.

End DroppingCallback.
End WalkMarks.

Section WalkWitnesses.
Import bytetree radix scenarioTree.

Example Walk_only_marks_witness :
  strip (root marked) = strip (root scenario.memStore)
  /\ tbytes marked = tbytes scenario.memStore
  /\ tlength marked = tlength scenario.memStore
  /\ (forall ctx', ctx' <> 7 ->
        visible ctx' (root marked) = visible ctx' (root scenario.memStore)
        /\ forall k, fst (Remove marked ctx' k) = fst (Remove scenario.memStore ctx' k))
  /\ (7 = 0 -> marked = scenario.memStore).
Proof.
  apply (Walk_only_marks drop_all scenario.memStore 7 tt marked tt).
  reflexivity.
Defined.

Example Walk_drop_all_witness :
  exists (bt' : Tree) (s' : unit),
    Walk drop_all scenario.memStore 7 tt = Some (bt', s')
    /\ visible 7 (root bt') = []
    /\ Walk collect bt' 7 [] = Some (bt', [])
    /\ forall k, fst (Remove bt' 7 k) = [].
Proof.
  apply (Walk_drop_all drop_all).
  - reflexivity.
  - discriminate.
Defined.

End WalkWitnesses.

(** * Updates and the search by key *)

Section CommonPrefix.
Import bytetree.

Lemma commonPrefix_refl (k : list byte) : commonPrefix k k = length k.
Proof.
  induction k as [|a k IH]; [done |]. cbn. rewrite bool_decide_eq_true_2 by done.
  by rewrite IH.
Qed.

Lemma commonPrefix_take (l k : list byte) :
  commonPrefix (take (commonPrefix l k) l) k = commonPrefix l k.
Proof.
  revert k. induction l as [|a l IH]; intros [|b k]; cbn; try done.
  case_bool_decide as Hab; [| done]. cbn. rewrite bool_decide_eq_true_2 by done.
  by rewrite IH.
Qed.

Lemma commonPrefix_drop (l k : list byte) :
  commonPrefix (drop (commonPrefix l k) l) (drop (commonPrefix l k) k) = 0%nat.
Proof.
  revert k. induction l as [|a l IH]; intros [|b k]; cbn; try done.
  case_bool_decide as Hab; cbn; [apply IH |].
  by rewrite bool_decide_eq_false_2.
Qed.

Lemma length_take_commonPrefix (l k : list byte) :
  length (take (commonPrefix l k) l) = commonPrefix l k.
Proof. rewrite length_take. destruct (commonPrefix_le l k). lia. Qed.

End CommonPrefix.

Section UpdateSearch.
Import bytetree radix.
Context {Field TSParams Metadata Duration Time : Type}.
Variable SequenceUpdate :
  Sequence -> TSParams -> Metadata -> Field -> Duration -> Time -> Sequence.
Variable cap : Sequence -> Z.
Variable fields : list Field.
Variable resolution : Duration.
Variable truncateBefore : Time.

Abbreviation node_doUpdate :=
  (node_doUpdate SequenceUpdate cap fields resolution truncateBefore).
Abbreviation update_loop :=
  (update_loop SequenceUpdate cap fields resolution truncateBefore).
Abbreviation Update := (Update SequenceUpdate cap fields resolution truncateBefore).
Abbreviation updatedData :=
  (updatedData SequenceUpdate fields resolution truncateBefore).

(** The loop over the fields updates the sequence of every field once. *)
Lemma doUpdate_fold (vals : TSParams) (metadata : Metadata) (fs : list Field) :
  forall (j : nat) (dat : list Sequence) (acc : Z),
    fst (foldl (fun '(dat, bytesAdded) '(i, field) =>
                  let current := default [] (dat !! i) in
                  let previousSize := cap current in
                  let updated :=
                    SequenceUpdate current vals metadata field resolution truncateBefore in
                  (<[i := updated]> dat, bytesAdded + (cap updated - previousSize)))
               (dat, acc) (imap (fun i f => ((j + i)%nat, f)) fs))
    = imap (fun i current =>
              match (if (j <=? i)%nat then fs !! (i - j)%nat else None) with
              | Some field =>
                  SequenceUpdate current vals metadata field resolution truncateBefore
              | None => current
              end) dat.
Proof.
  induction fs as [|f fs IH]; intros j dat acc.
  - cbn. apply list_eq. intros i. rewrite list_lookup_imap.
    destruct (dat !! i); [| done]. cbn.
    by destruct (j <=? i)%nat; rewrite ?lookup_nil.
  - cbn [imap foldl]. rewrite Nat.add_0_r.
    rewrite (imap_ext _ (fun i f => ((S j + i)%nat, f)))
      by (intros; unfold compose; f_equal; lia).
    rewrite IH. apply list_eq. intros i.
    rewrite !list_lookup_imap.
    destruct (decide (i = j)) as [-> | Hne].
    + destruct (dat !! j) as [x|] eqn:Hx.
      * rewrite list_lookup_insert_eq by (by eapply lookup_lt_Some).
        cbn -[Nat.leb Nat.sub]. rewrite Nat.leb_refl, Nat.sub_diag.
        destruct (Nat.leb_spec (S j) j); [lia | done].
      * rewrite (lookup_ge_None_2 (<[j:=_]> dat)); [done |].
        rewrite length_insert. by apply lookup_ge_None_1.
    + rewrite list_lookup_insert_ne by done.
      destruct (dat !! i) as [x|]; [| done]. cbn -[Nat.leb Nat.sub]. f_equal.
      destruct (Nat.leb_spec (S j) i), (Nat.leb_spec j i); try lia; [| done].
      replace (i - j)%nat with (S (i - S j)) by lia. done.
Qed.

Lemma node_doUpdate_fst (n : node) (fullKey : list byte) (vals : TSParams)
    (metadata : Metadata) :
  fst (node_doUpdate n fullKey vals metadata)
  = mkNode (key n) (edges n) (updatedData vals metadata (data n)) (removedFor n).
Proof.
  unfold bytetree.node_doUpdate, radix.updatedData.
  set (data0 := if (_ <? _)%nat then _ else _).
  pose proof (doUpdate_fold vals metadata fields 0 data0 0) as H.
  cbn [Nat.add] in H.
  destruct (foldl _ (data0, 0) _) as [data1 added] eqn:Hfold.
  cbn [fst] in *. rewrite H. f_equal.
  apply imap_ext. intros i x _. cbn. by rewrite Nat.sub_0_r.
Qed.

Lemma node_doUpdate_edges (fullKey : list byte) (vals : TSParams) (metadata : Metadata)
    (c : node) :
  edges (fst (node_doUpdate c fullKey vals metadata)) = edges c.
Proof. by rewrite node_doUpdate_fst. Qed.

Lemma passed_spec (key : list byte) (e : edge) :
  passed key e
  <-> ((commonPrefix (label e) key =? length key)%nat
       && (length key =? length (label e))%nat = false
       /\ (commonPrefix (label e) key =? length (label e))%nat
          && (length (label e) <? length key)%nat = false
       /\ (0 <? commonPrefix (label e) key)%nat = false).
Proof.
  unfold passed. destruct (label e) as [|a l] eqn:Hl; cbn [length].
  - split; [intros [_ ?]; done |]. intros (H1 & H2 & H3). exfalso.
    cbn in *. destruct key; cbn in *; done.
  - split.
    + intros [-> _]. cbn. destruct key; cbn; done.
    + intros (_ & _ & H3). split; [| done].
      destruct (commonPrefix (a :: l) key); [done | by cbn in H3].
Qed.

Lemma hitIn_passed (key : list byte) (pre es : list edge) :
  Forall (passed key) pre ->
  forall j, hitIn hit key j (pre ++ es) = hitIn hit key (j + length pre)%nat es.
Proof.
  induction 1 as [|e pre He _ IH]; intros j; [by rewrite Nat.add_0_r |].
  cbn [app hitIn length]. apply passed_spec in He as (-> & -> & ->).
  rewrite IH. f_equal. lia.
Qed.

Lemma locateIn_passed (key : list byte) (pre es : list edge) :
  Forall (passed key) pre ->
  forall j, locateIn locate key j (pre ++ es) = locateIn locate key (j + length pre)%nat es.
Proof.
  induction 1 as [|e pre He _ IH]; intros j; [by rewrite Nat.add_0_r |].
  cbn [app locateIn length]. apply passed_spec in He as (-> & -> & _).
  rewrite IH. f_equal. lia.
Qed.

(** Where [doUpdate] updates in place, [Remove] finds the same node. *)
Lemma hit_locate (n : node) :
  forall key p, hit n key = Some p -> locate n key = Some p.
Proof.
  induction n as [k es d r IH] using node_ind'. intros key p. cbn [hit locate].
  generalize 0%nat. induction IH as [|e es He _ IHes]; intros j; [done |].
  cbn [hitIn locateIn].
  destruct (_ && _); [done |].
  destruct (_ && _).
  { destruct (hit (target e) _) as [p'|] eqn:Hp'; [| done].
    by rewrite (He _ _ Hp'). }
  destruct (0 <? _)%nat; [done | apply IHes].
Qed.

(** Where the search ends at a node that exists, [doUpdate] updates that
    node and reports no new node. *)
Lemma update_loop_hit (fullKey : list byte) (vals : TSParams) (metadata : Metadata)
    (n : node) :
  forall key p,
    hit n key = Some p ->
    exists t,
      deref n p = Some t
      /\ update_loop fullKey vals metadata n key
         = (store (fun c => fst (node_doUpdate c fullKey vals metadata)) n p,
            snd (node_doUpdate t fullKey vals metadata), false).
Proof.
  induction n as [k es d r IH] using node_ind'. intros key p Hp.
  cbn [hit] in Hp. cbn [bytetree.update_loop].
  match goal with
  | |- exists t, _ /\ match ?scan es with _ => _ end = _ => set (uscan := scan)
  end.
  assert (Hscan : forall pre p,
    hitIn hit key (length pre) es = Some p ->
    exists t es' added,
      deref (mkNode k (pre ++ es) d r) p = Some t
      /\ uscan es = Some (es', added, false)
      /\ mkNode k (pre ++ es') d r
         = store (fun c => fst (node_doUpdate c fullKey vals metadata))
                 (mkNode k (pre ++ es) d r) p
      /\ added = snd (node_doUpdate t fullKey vals metadata)).
  { clear Hp p. induction IH as [|[lbl tgt] es He _ IHes]; intros pre p; [done |].
    cbn [uscan hitIn label target].
    destruct ((commonPrefix lbl key =? length key)%nat
              && (length key =? length lbl)%nat).
    { intros [= <-]. cbn [deref edges mbind option_bind].
      rewrite list_lookup_middle by done. cbn [mbind option_bind target deref].
      destruct (node_doUpdate tgt fullKey vals metadata) as [tgt' added] eqn:Hupd.
      exists tgt, (mkEdge lbl tgt' :: es), added. split; [done |]. split; [done |].
      split; [| by rewrite Hupd].
      rewrite store_cons. cbn [bytetree.key edges data removedFor].
      rewrite alter_middle. cbn [store label target]. by rewrite Hupd. }
    destruct ((commonPrefix lbl key =? length lbl)%nat
              && (length lbl <? length key)%nat).
    { destruct (hit tgt (drop (length lbl) key)) as [p'|] eqn:Hp'; [| done].
      intros [= <-]. cbn [target] in He.
      destruct (He _ _ Hp') as (t & Ht & Hupd).
      cbn [deref edges mbind option_bind].
      rewrite list_lookup_middle by done. cbn [mbind option_bind target].
      rewrite Hupd. eexists t, _, _. split; [done |]. split; [done |].
      split; [| done].
      rewrite store_cons. cbn [bytetree.key edges data removedFor].
      rewrite alter_middle. done. }
    destruct (0 <? commonPrefix lbl key)%nat; [done |].
    intros Hp. specialize (IHes (pre ++ [mkEdge lbl tgt]) p).
    rewrite length_app in IHes. cbn [length] in IHes.
    replace (length pre + 1)%nat with (S (length pre)) in IHes by lia.
    destruct (IHes Hp) as (t & es' & added & Ht & -> & Hst & Hadd).
    rewrite <- !app_assoc in Ht, Hst. cbn [app] in Ht, Hst.
    cbn [mbind option_bind]. exists t, (mkEdge lbl tgt :: es'), added.
    split; [done |]. split; [done |]. split; [| done].
    rewrite Hst. by rewrite <- app_assoc. }
  destruct (Hscan [] p Hp) as (t & es' & added & Ht & -> & Hst & ->).
  exists t. split; [done |]. cbn [app] in Hst. by rewrite Hst.
Qed.

(** After [doUpdate], the search for the key ends at a node that exists,
    whose data is what [node.doUpdate] left; for a new node that is the
    update of no data. *)
Lemma update_loop_lands (fullKey : list byte) (vals : TSParams) (metadata : Metadata)
    (n : node) :
  forall key,
    exists p t old,
      hit (update_loop fullKey vals metadata n key).1.1 key = Some p
      /\ deref (update_loop fullKey vals metadata n key).1.1 p = Some t
      /\ data t = updatedData vals metadata old
      /\ ((update_loop fullKey vals metadata n key).2 = true -> old = []).
Proof.
  induction n as [k es d r IH] using node_ind'. intros key.
  cbn [bytetree.update_loop].
  match goal with
  | |- context [match ?scan es with _ => _ end] => set (uscan := scan)
  end.
  assert (Hscan : forall pre,
    Forall (passed key) pre ->
    match uscan es with
    | Some (es', added, newNode) =>
        exists p t old,
          hit (mkNode k (pre ++ es') d r) key = Some p
          /\ deref (mkNode k (pre ++ es') d r) p = Some t
          /\ data t = updatedData vals metadata old
          /\ (newNode = true -> old = [])
    | None => Forall (passed key) (pre ++ es)
    end).
  { induction IH as [|[lbl tgt] es He _ IHes]; intros pre Hpre.
    { cbn. by rewrite app_nil_r. }
    cbn [uscan].
    destruct ((commonPrefix lbl key =? length key)%nat
              && (length key =? length lbl)%nat) eqn:Hexact.
    { pose proof (node_doUpdate_fst tgt fullKey vals metadata) as Hupd.
      destruct (node_doUpdate tgt fullKey vals metadata) as [tgt' added].
      cbn [fst] in Hupd. subst tgt'.
      eexists [length pre], _, (data tgt).
      cbn [hit]. rewrite hitIn_passed by done. cbn [hitIn label Nat.add].
      rewrite Hexact. split; [done |].
      cbn [deref edges mbind option_bind]. rewrite list_lookup_middle by done.
      cbn [mbind option_bind target deref]. split; [done |]. by split. }
    destruct ((commonPrefix lbl key =? length lbl)%nat
              && (length lbl <? length key)%nat) eqn:Hdesc.
    { cbn [target] in He.
      destruct (He (drop (length lbl) key)) as (p' & t & old & Hp' & Ht & Hdata & Hnew).
      destruct (update_loop fullKey vals metadata tgt (drop (length lbl) key))
        as [[tgt' added] newNode].
      cbn [fst snd] in *.
      exists (length pre :: p'), t, old.
      cbn [hit]. rewrite hitIn_passed by done. cbn [hitIn label target Nat.add].
      rewrite Hexact, Hdesc, Hp'. split; [done |].
      cbn [deref edges mbind option_bind]. rewrite list_lookup_middle by done.
      cbn [mbind option_bind target]. by repeat split. }
    destruct (0 <? commonPrefix lbl key)%nat eqn:Hpos.
    { (* the edge is split *)
      apply Nat.ltb_lt in Hpos.
      destruct (commonPrefix_le lbl key) as [Hle1 Hle2].
      pose proof (length_take_commonPrefix lbl key) as Hlt.
      pose proof (commonPrefix_take lbl key) as Hct.
      pose proof (commonPrefix_drop lbl key) as Hcd.
      set (i := commonPrefix lbl key) in *.
      unfold split. cbn [label target].
      case_bool_decide as Hsplit.
      - (* a new leaf below the new node *)
        pose proof (node_doUpdate_fst (mkNode fullKey [] [] []) fullKey vals metadata)
          as Hupd.
        destruct (node_doUpdate (mkNode fullKey [] [] []) fullKey vals metadata)
          as [leaf added].
        cbn [fst bytetree.key edges data removedFor] in Hupd. subst leaf.
        assert (Hik : (i < length key)%nat) by lia.
        assert (Hil : (i < length lbl)%nat).
        { apply Nat.le_lteq in Hle1 as [? | Heq]; [done |].
          rewrite Heq, Nat.eqb_refl in Hdesc. cbn in Hdesc.
          apply Nat.ltb_ge in Hdesc. lia. }
        eexists [length pre; 1%nat], _, [].
        cbn [hit]. rewrite hitIn_passed by done. cbn [hitIn label target Nat.add].
        rewrite Hlt, Hct.
        rewrite (proj2 (Nat.eqb_neq i (length key))) by lia. cbn [andb].
        rewrite Nat.eqb_refl, (proj2 (Nat.ltb_lt i (length key))) by done. cbn [andb].
        cbn [hit hitIn label target edges app bytetree.key data removedFor].
        rewrite Hcd, !length_drop.
        rewrite (proj2 (Nat.eqb_neq 0 (length key - i))) by lia. cbn [andb].
        rewrite (proj2 (Nat.eqb_neq 0 (length lbl - i))) by lia. cbn [andb Nat.ltb Nat.leb].
        rewrite commonPrefix_refl, length_drop, !Nat.eqb_refl. cbn [andb].
        split; [done |].
        cbn [deref edges mbind option_bind]. rewrite list_lookup_middle by done.
        cbn [mbind option_bind target lookup list_lookup deref edges].
        split; [done |]. by split.
      - (* the new node takes the update *)
        rename Hsplit into Hik.
        pose proof (node_doUpdate_fst
                      (mkNode [] [mkEdge (drop i lbl) tgt] [] []) fullKey vals metadata)
          as Hupd.
        destruct (node_doUpdate (mkNode [] [mkEdge (drop i lbl) tgt] [] [])
                    fullKey vals metadata) as [leaf added].
        cbn [fst bytetree.key edges data removedFor] in Hupd. subst leaf.
        eexists [length pre], _, [].
        cbn [hit]. rewrite hitIn_passed by done. cbn [hitIn label target Nat.add].
        rewrite Hlt, Hct.
        rewrite Hik, !Nat.eqb_refl. cbn [andb].
        split; [done |].
        cbn [deref edges mbind option_bind]. rewrite list_lookup_middle by done.
        cbn [mbind option_bind target deref].
        split; [done |]. by split. }
    specialize (IHes (pre ++ [mkEdge lbl tgt])).
    assert (Hpre' : Forall (passed key) (pre ++ [mkEdge lbl tgt])).
    { apply Forall_app. split; [done |]. constructor; [| done].
      apply passed_spec. cbn [label]. by repeat split. }
    specialize (IHes Hpre').
    destruct (uscan es) as [[[es' added] newNode]|]; cbn [mbind option_bind].
    - destruct IHes as (p & t & old & Hp & Ht & Hdata & Hnew).
      rewrite <- app_assoc in Hp, Ht. by exists p, t, old.
    - by rewrite <- app_assoc in IHes. }
  specialize (Hscan [] (Forall_nil_2 _)). cbn [app] in Hscan.
  destruct (uscan es) as [[[es' added] newNode]|].
  - exact Hscan.
  - (* a new edge *)
    pose proof (node_doUpdate_fst (mkNode fullKey [] [] []) fullKey vals metadata) as Hupd.
    destruct (node_doUpdate (mkNode fullKey [] [] []) fullKey vals metadata)
      as [leaf added].
    cbn [fst bytetree.key edges data removedFor] in Hupd. subst leaf.
    cbn [fst snd].
    eexists [length es], _, [].
    cbn [hit]. rewrite hitIn_passed by done. cbn [hitIn label Nat.add].
    rewrite commonPrefix_refl, !Nat.eqb_refl. cbn [andb].
    split; [done |].
    cbn [deref edges mbind option_bind]. rewrite list_lookup_middle by done.
    cbn [mbind option_bind target deref]. split; [done |]. by split.
Qed.

Lemma Update_root (bt : Tree) (k : list byte) (vals : TSParams) (metadata : Metadata) :
  root (snd (Update bt k vals metadata)) = (update_loop k vals metadata (root bt) k).1.1
  /\ tlength (snd (Update bt k vals metadata))
     = (if (update_loop k vals metadata (root bt) k).2 then tlength bt + 1 else tlength bt).
Proof.
  unfold bytetree.Update, doUpdate.
  by destruct (update_loop k vals metadata (root bt) k) as [[rt added] newNode].
Qed.

Lemma Remove_0_at (bt : Tree) (k : list byte) (p : path) (t : node) :
  locate (root bt) k = Some p -> deref (root bt) p = Some t ->
  fst (Remove bt 0 k) = data t.
Proof.
  intros Hp Ht. rewrite Remove_locate. cbn [fst]. unfold removeAt.
  by rewrite Hp, Ht, wasRemovedFor_0.
Qed.

(** A key that was updated is found: under the context 0, [Remove] returns
    for it the data that [node.doUpdate] left, which holds a sequence for
    every field; where the update made a new node (the length grew), that
    is the update of no data. *)
Theorem Update_then_Remove (bt : Tree) (k : list byte) (vals : TSParams)
    (metadata : Metadata) :
  exists old : list Sequence,
    fst (Remove (snd (Update bt k vals metadata)) 0 k) = updatedData vals metadata old
    /\ (length fields <= length (updatedData vals metadata old))%nat
    /\ (Length (snd (Update bt k vals metadata)) = Length bt + 1 -> old = []).
Proof.
  destruct (Update_root bt k vals metadata) as [Hroot Hlen].
  destruct (update_loop_lands k vals metadata (root bt) k)
    as (p & t & old & Hp & Ht & Hdata & Hnew).
  exists old. split; [| split].
  - rewrite (Remove_0_at _ k p t); [done | |]; rewrite Hroot; [| done].
    by apply hit_locate.
  - unfold radix.updatedData. rewrite length_imap.
    destruct (Nat.ltb_spec (length old) (length fields)); [| done].
    rewrite length_app, length_replicate. lia.
  - unfold Length. rewrite Hlen.
    destruct (update_loop k vals metadata (root bt) k).2; [by auto | lia].
Qed.

(** The next update of the same key goes to the same node: the length
    stays, the data of the key is updated once more, and what [Remove]
    returns for any other key, under any context, stays. *)
Theorem Update_again_in_place (bt : Tree) (k : list byte)
    (vals1 vals2 : TSParams) (metadata1 metadata2 : Metadata) :
  let bt1 := snd (Update bt k vals1 metadata1) in
  let bt2 := snd (Update bt1 k vals2 metadata2) in
  Length bt2 = Length bt1
  /\ fst (Remove bt2 0 k) = updatedData vals2 metadata2 (fst (Remove bt1 0 k))
  /\ (forall ctx k', k' <> k -> fst (Remove bt2 ctx k') = fst (Remove bt1 ctx k')).
Proof.
  intros bt1 bt2.
  destruct (Update_root bt k vals1 metadata1) as [Hroot1 _].
  destruct (update_loop_lands k vals1 metadata1 (root bt) k)
    as (p & t & old & Hp & Ht & _ & _).
  rewrite <- Hroot1 in Hp, Ht. fold bt1 in Hp, Ht.
  destruct (Update_root bt1 k vals2 metadata2) as [Hroot2 Hlen2].
  fold bt2 in Hroot2, Hlen2.
  destruct (update_loop_hit k vals2 metadata2 (root bt1) k p Hp) as (t' & Ht' & Hupd).
  rewrite Hupd in Hroot2, Hlen2. cbn [fst snd] in Hroot2, Hlen2.
  assert (t' = t) by congruence. subst t'.
  pose proof (hit_locate _ _ _ Hp) as Hloc.
  assert (Hloc2 : forall k', locate (root bt2) k' = locate (root bt1) k').
  { intros k'. rewrite Hroot2. apply locate_store. intros c. apply node_doUpdate_edges. }
  split; [done |]. split.
  - rewrite (Remove_0_at bt1 k p t Hloc Ht).
    rewrite (Remove_0_at bt2 k p (fst (node_doUpdate t k vals2 metadata2))).
    + by rewrite node_doUpdate_fst.
    + by rewrite Hloc2.
    + by rewrite Hroot2, deref_store_eq, Ht.
  - intros ctx k' Hk'. rewrite !Remove_locate. cbn [fst]. unfold removeAt.
    rewrite Hloc2. destruct (locate (root bt1) k') as [q|] eqn:Hq; [| done].
    assert (Hqp : q <> p). { intros ->. apply Hk'. by eapply locate_inj. }
    pose proof (deref_store_obs (fun c => (wasRemovedFor c ctx, data c))
                  (fun c => fst (node_doUpdate c k vals2 metadata2)) (root bt1) p q) as Hobs.
    rewrite <- Hroot2 in Hobs.
    destruct (deref (root bt2) q) as [c2|], (deref (root bt1) q) as [c1|];
      cbn in Hobs.
    + assert (Heq : Some (wasRemovedFor c2 ctx, data c2) = Some (wasRemovedFor c1 ctx, data c1)).
      { apply Hobs; [done | intros c; apply node_doUpdate_edges | done]. }
      injection Heq as -> ->. by destruct (wasRemovedFor c1 ctx).
    + exfalso. assert (Heq : Some (wasRemovedFor c2 ctx, data c2) = None); [| done].
      apply Hobs; [done | intros c; apply node_doUpdate_edges | done].
    + exfalso. assert (Heq : @None (bool * list Sequence) = Some (wasRemovedFor c1 ctx, data c1));
        [| done].
      apply Hobs; [done | intros c; apply node_doUpdate_edges | done].
    + done.
Qed.

End UpdateSearch.

(** * The goroutines of the row store *)

Section FlushWait.
Import processInserts.

(** Whatever a flush took, the timer is reset to a wait between the least
    and the greatest flush latency (where the least is not above the
    greatest): ten times the duration of the flush where that lies
    between them. *)
Theorem flushWait_bounds (minFlushLatency maxFlushLatency flushDuration : Z) :
  minFlushLatency <= maxFlushLatency ->
  minFlushLatency <= flushWait minFlushLatency maxFlushLatency flushDuration
                  <= maxFlushLatency
  /\ (- 2 ^ 63 <= flushDuration * 10 < 2 ^ 63 ->
      minFlushLatency <= flushDuration * 10 <= maxFlushLatency ->
      flushWait minFlushLatency maxFlushLatency flushDuration = flushDuration * 10).
Proof.
  intros Hle. unfold flushWait. split.
  - destruct (Z.ltb_spec maxFlushLatency (golib2.int64 (flushDuration * 10))); [lia |].
    destruct (Z.ltb_spec (golib2.int64 (flushDuration * 10)) minFlushLatency); lia.
  - intros Hrange Hin.
    assert (Hw : golib2.int64 (flushDuration * 10) = flushDuration * 10).
    { unfold golib2.int64. rewrite Z.mod_small; lia. }
    rewrite Hw.
    destruct (Z.ltb_spec maxFlushLatency (flushDuration * 10)); [lia |].
    destruct (Z.ltb_spec (flushDuration * 10) minFlushLatency); lia.
Qed.

Example flushWait_bounds_witness :
  1 <= flushWait 1 100 7 <= 100.
Proof. apply (flushWait_bounds 1 100 7). lia. Defined.

End FlushWait.

Section Inserter.
Import processInserts.
Context {tree Key Vals Time : Type}.
Variable newByteTree : tree.
Variable length bytes : tree -> Z.
Variable update : tree -> Time -> Key -> Vals -> tree.
Variable maxMemStoreBytes minFlushLatency maxFlushLatency : Z.

Abbreviation state := (state (tree:=tree)).
Abbreviation step :=
  (step newByteTree length bytes update maxMemStoreBytes minFlushLatency maxFlushLatency).
Abbreviation flush := (flush newByteTree length).
Abbreviation run :=
  (run newByteTree length bytes update maxMemStoreBytes minFlushLatency maxFlushLatency).

Abbreviation inv := (inv (tree:=tree) length).

Lemma int64_small (z : Z) : - 2 ^ 63 <= z < 2 ^ 63 -> golib2.int64 z = z.
Proof. intros H. unfold golib2.int64. rewrite Z.mod_small; lia. Qed.

Lemma inv_flush (n : nat) (st : state) :
  Z.of_nat n < 2 ^ 62 -> inv n st -> inv (S n) (flush st).
Proof.
  intros Hn (Hlen & Hidx & Hfidx & Hfin & Hcur & Hdom & Hsent).
  unfold processInserts.flush.
  destruct (Z.eqb_spec (length (currentMemStore st)) 0) as [Hempty | Hfull].
  { split; [cbn; lia |]. by split. }
  unfold inv. cbn [sent memStoreIdx flushIdx finished memStores currentMemStore].
  rewrite length_app. cbn [List.length].
  rewrite Hidx, Hfidx, !int64_small by lia.
  replace (Z.of_nat (List.length (sent st)) + 1)
    with (Z.of_nat (List.length (sent st) + 1)) by lia.
  split; [lia |]. split; [done |]. split; [done |]. split; [lia |].
  split; [by rewrite lookup_insert_eq |]. split.
  - intros k. destruct (decide (k = Z.of_nat (List.length (sent st) + 1))) as [-> | Hk].
    + rewrite lookup_insert_eq. split; [lia | by eexists].
    + rewrite lookup_insert_ne by done. rewrite Hdom, Hidx. lia.
  - intros i fr Hi. apply lookup_app_Some in Hi as [Hi | [Hge Hi]].
    + destruct (Hsent i fr Hi) as (H1 & H2 & H3 & H4).
      pose proof (lookup_lt_Some _ _ _ Hi).
      split; [done |]. split; [done |]. split; [done |]. intros Hf.
      rewrite lookup_insert_ne by lia. by apply H4.
    + destruct (i - List.length (sent st))%nat as [|?] eqn:Hd; [| done].
      cbn in Hi. injection Hi as <-. cbn [idx sort memstore].
      assert (i = List.length (sent st)) by lia. subst i.
      split; [done |]. split; [| split; [done |]].
      * rewrite Z.rem_mod_nonneg by lia. done.
      * intros _. rewrite lookup_insert_ne by lia. by rewrite <- Hidx at 1.
Qed.

Lemma inv_step (n : nat) (st : state) (ev : event) :
  Z.of_nat n < 2 ^ 62 -> inv n st -> inv (S n) (step st ev).
Proof.
  intros Hn Hinv. destruct ev as [tb key vals | | d |]; cbn [processInserts.step].
  - set (st1 := mkState _ _ _ _ _ _ _).
    assert (H1 : inv n st1).
    { destruct Hinv as (Hlen & Hidx & Hfidx & Hfin & Hcur & Hdom & Hsent).
      unfold inv, st1.
      cbn [sent memStoreIdx flushIdx finished memStores currentMemStore].
      split; [done |]. split; [done |]. split; [done |]. split; [done |].
      split; [by rewrite lookup_insert_eq |]. split.
      - intros k. rewrite <- Hdom.
        destruct (decide (k = memStoreIdx st)) as [-> | Hne].
        + rewrite lookup_insert_eq, Hcur. split; by eexists.
        + by rewrite lookup_insert_ne.
      - intros i fr Hi. destruct (Hsent i fr Hi) as (H1 & H2 & H3 & H4).
        pose proof (lookup_lt_Some _ _ _ Hi).
        split; [done |]. split; [done |]. split; [done |]. intros Hf.
        rewrite lookup_insert_ne by lia. by apply H4. }
    destruct (maxMemStoreBytes <=? bytes _); [by apply inv_flush |].
    destruct H1 as (Hlen & H1). split; [lia | exact H1].
  - by apply inv_flush.
  - destruct Hinv as (Hlen & Hinv). split; [cbn; lia | exact Hinv].
  - destruct (sent st !! finished st) as [req|] eqn:Hreq.
    2:{ destruct Hinv as (Hlen & Hinv). split; [lia | exact Hinv]. }
    destruct Hinv as (Hlen & Hidx & Hfidx & Hfin & Hcur & Hdom & Hsent).
    pose proof (lookup_lt_Some _ _ _ Hreq) as Hlt.
    destruct (Hsent _ _ Hreq) as (Hri & _ & _ & _).
    unfold inv. cbn [sent memStoreIdx flushIdx finished memStores currentMemStore].
    split; [lia |]. split; [done |]. split; [done |]. split; [lia |].
    split; [by rewrite lookup_delete_ne by lia |]. split.
    + intros k. destruct (decide (k = idx req)) as [-> | Hk].
      * rewrite lookup_delete_eq. split; [by intros [? ?] | lia].
      * rewrite lookup_delete_ne by done. rewrite Hdom. lia.
    + intros i fr Hi. destruct (Hsent i fr Hi) as (H1 & H2 & H3 & H4).
      split; [done |]. split; [done |]. split; [done |]. intros Hf.
      rewrite lookup_delete_ne by lia. apply H4. lia.
Qed.

Lemma inv_run (evs : list event) :
  Z.of_nat (List.length evs) < 2 ^ 62 -> inv (List.length evs) (run evs).
Proof.
  induction evs as [|ev evs IH] using rev_ind; intros Hn.
  - unfold processInserts.run, inv. cbn.
    split; [lia |]. split; [done |]. split; [done |]. split; [lia |].
    split; [done |]. split; [| done].
    intros k. split.
    + intros [t Hk]. apply lookup_singleton_Some in Hk as [<- _]. lia.
    + intros Hk. assert (k = 0) as -> by lia. by eexists.
  - rewrite length_app in *. cbn [List.length] in *.
    unfold processInserts.run. rewrite foldl_app. cbn [foldl].
    replace (List.length evs + 1)%nat with (S (List.length evs)) by lia.
    apply inv_step; [lia |]. apply IH. lia.
Qed.

(** After any events (fewer than 2^62, so that the counters do not wrap):
    the current memstore is the one in [rs.memStores] under
    [memStoreIdx]; the map holds exactly the generations from the first
    not yet flushed up to [memStoreIdx]; and the flush requests are
    numbered 0, 1, 2, ... in the order sent, each carries a memstore that
    is not empty, which stays in the map under the number of the request
    until its flush has finished, and every tenth request, from the first
    on, asks for a sort. *)
Theorem processInserts_invariant (evs : list event) :
  Z.of_nat (List.length evs) < 2 ^ 62 ->
  let st := run evs in
  memStores st !! memStoreIdx st = Some (currentMemStore st)
  /\ memStoreIdx st = Z.of_nat (List.length (sent st))
  /\ (forall k, is_Some (memStores st !! k)
                <-> Z.of_nat (finished st) <= k <= memStoreIdx st)
  /\ (forall i fr, sent st !! i = Some fr ->
        idx fr = Z.of_nat i
        /\ sort fr = (Z.of_nat i mod 10 =? 0)
        /\ length (memstore fr) <> 0
        /\ ((finished st <= i)%nat -> memStores st !! idx fr = Some (memstore fr))).
Proof.
  intros Hn st.
  destruct (inv_run evs Hn) as (_ & Hidx & _ & _ & Hcur & Hdom & Hsent).
  split; [done |]. split; [done |]. by split.
Qed.

End Inserter.

Section InserterWitness.
Import processInserts.

(** Memstores counted by their entries, flushed when they hold two. *)
Example processInserts_invariant_witness :
  let st := run (tree:=Z) (Key:=unit) (Vals:=unit) (Time:=unit)
              0 (fun t => t) (fun t => t) (fun t _ _ _ => t + 1) 2 1 100
              [Insert tt tt tt; Insert tt tt tt; Insert tt tt tt; Flushed] in
  memStores st !! memStoreIdx st = Some (currentMemStore st)
  /\ memStoreIdx st = Z.of_nat (List.length (sent st))
  /\ (forall k, is_Some (memStores st !! k)
                <-> Z.of_nat (finished st) <= k <= memStoreIdx st)
  /\ (forall i fr, sent st !! i = Some fr ->
        idx fr = Z.of_nat i
        /\ sort fr = (Z.of_nat i mod 10 =? 0)
        /\ memstore fr <> 0
        /\ ((finished st <= i)%nat -> memStores st !! idx fr = Some (memstore fr))).
Proof.
  apply (processInserts_invariant (tree:=Z) (Key:=unit) (Vals:=unit) (Time:=unit)
           0 (fun t => t) (fun t => t) (fun t _ _ _ => t + 1) 2 1 100
           [Insert tt tt tt; Insert tt tt tt; Insert tt tt tt; Flushed]).
  vm_compute. reflexivity.
Defined.

End InserterWitness.

(** * The files of the directory *)

Section Files.
Import rowStoreFiles.
Context {Time : Type}.
Variable Sub : Time -> Time -> Z.
Variable Join : string -> string -> string.

Abbreviation removeOldFiles := (removeOldFiles Sub Join).
Abbreviation existingFileName := (existingFileName (Time:=Time) Join).

Abbreviation old := (old Sub).

Lemma removeOldFiles_fold (dir : string) (files : list FileInfo) (now : Time) (n : nat) :
  forall (j : nat) (removed : list string),
    (j + n <= List.length files)%nat ->
    foldl (fun removed i =>
             match files !! i with
             | Some file =>
                 let name := Join dir (Name file) in
                 if 5 * minute <? Sub now (ModTime file) then removed ++ [name]
                 else removed
             | None => removed
             end) removed (seq j n)
    = removed ++ map (fun file => Join dir (Name file))
                     (List.filter (old now) (take n (drop j files))).
Proof.
  induction n as [|n IH]; intros j removed Hj.
  - cbn. by rewrite app_nil_r.
  - cbn [seq foldl].
    destruct (lookup_lt_is_Some_2 files j) as [file Hfile]; [lia |].
    rewrite Hfile. rewrite IH by lia.
    rewrite (drop_S _ _ _ Hfile). cbn [take List.filter]. unfold rowStoreFiles.old at 2.
    destruct (5 * minute <? Sub now (ModTime file)); [| done].
    cbn [map]. by rewrite <- app_assoc.
Qed.

Lemma removeOldFiles_eq (dir : string) (files : list FileInfo) (now : Time) :
  removeOldFiles dir files now
  = map (fun file => Join dir (Name file))
        (List.filter (old now) (take (List.length files - 1) files)).
Proof.
  unfold rowStoreFiles.removeOldFiles.
  rewrite removeOldFiles_fold by lia. cbn [app drop].
  do 3 f_equal. lia.
Qed.

(** A round of [removeOldFiles] removes the files modified more than five
    minutes ago, the last of the listing apart: with no file or one file
    it removes nothing, and the file that [openRowStore] would start from
    is never among the files removed (the names of a listing being
    distinct). *)
Theorem removeOldFiles_keeps_current (dir : string) (files : list FileInfo) (now : Time) :
  NoDup (map Name files) ->
  (forall a b, Join dir a = Join dir b -> a = b) ->
  (existingFileName dir files ∉ removeOldFiles dir files now)
  /\ ((List.length files <= 1)%nat -> removeOldFiles dir files now = [])
  /\ (forall name, name ∈ removeOldFiles dir files now <->
        exists i file, (i < List.length files - 1)%nat /\ files !! i = Some file
                       /\ 5 * minute < Sub now (ModTime file)
                       /\ name = Join dir (Name file)).
Proof.
  intros Hnodup Hinj.
  assert (Hmem : forall name, name ∈ removeOldFiles dir files now <->
            exists i file, (i < List.length files - 1)%nat /\ files !! i = Some file
                           /\ 5 * minute < Sub now (ModTime file)
                           /\ name = Join dir (Name file)).
  { intros name. rewrite removeOldFiles_eq, list_elem_of_fmap. split.
    - intros (file & -> & Hin%list_elem_of_In). apply filter_In in Hin as [Hin Hold].
      apply list_elem_of_In, list_elem_of_lookup in Hin as [i Hi].
      apply lookup_take_Some in Hi as [Hi Hlt].
      exists i, file. unfold rowStoreFiles.old in Hold. apply Z.ltb_lt in Hold. done.
    - intros (i & file & Hlt & Hi & Hold & ->). exists file. split; [done |].
      apply list_elem_of_In, filter_In. split.
      + apply list_elem_of_In, list_elem_of_lookup. exists i.
        by apply lookup_take_Some.
      + unfold rowStoreFiles.old. by apply Z.ltb_lt. }
  split; [| split; [| exact Hmem]].
  - intros Hin. apply Hmem in Hin as (i & file & Hlt & Hi & _ & Heq).
    unfold rowStoreFiles.existingFileName in Heq.
    destruct (Nat.ltb_spec 0 (List.length files)); [| lia].
    destruct (files !! (List.length files - 1)%nat) as [lastf|] eqn:Hlast.
    2:{ apply lookup_ge_None_1 in Hlast. lia. }
    apply Hinj in Heq.
    assert (Hne : i <> (List.length files - 1)%nat) by lia. apply Hne.
    eapply (NoDup_lookup _ _ _ _ Hnodup); rewrite list_lookup_fmap.
    + by rewrite Hi.
    + rewrite Hlast. cbn. by rewrite Heq.
  - intros Hlen. rewrite removeOldFiles_eq.
    destruct files as [|f [|g files]]; cbn in *; [done | done | lia].
Qed.

End Files.

Section FilesWitness.
Import rowStoreFiles.

(** A directory with one file of an hour ago and the current file. *)
Example removeOldFiles_keeps_current_witness :
  existingFileName (Time:=Z) (fun d n => d +:+ "/" +:+ n) "dir"
    [mkFileInfo "filestore_1_2.dat" 0; mkFileInfo "filestore_2_2.dat" (59 * minute)]
  ∉ removeOldFiles (fun a b => a - b) (fun d n => d +:+ "/" +:+ n) "dir"
      [mkFileInfo "filestore_1_2.dat" 0; mkFileInfo "filestore_2_2.dat" (59 * minute)]
      (60 * minute).
Proof.
  apply (removeOldFiles_keeps_current (Time:=Z) (fun a b => a - b)
           (fun d n => d +:+ "/" +:+ n) "dir"
           [mkFileInfo "filestore_1_2.dat" 0; mkFileInfo "filestore_2_2.dat" (59 * minute)]
           (60 * minute)).
  - cbn. repeat constructor; set_solver.
  - intros a b H. cbn in H. by simplify_eq.
Defined.

End FilesWitness.

(** * The flusher: rows, chunks and their order *)

Section Chunks.
Import fileStore binaryEncoding processFlushes.

(** The length that [write] computes for a row and writes in front of it
    is the number of bytes of the row written, the 8 bytes of the length
    included: 12 bytes, the key, and 8 bytes and the sequence for every
    column. *)
Theorem rowLength_is_length (key : list byte) (columns : list sequence) :
  rowLengthOf key columns = Z.of_nat (length (encodeRow key columns))
  /\ rowLengthOf key columns
     = 12 + Z.of_nat (length key)
       + 8 * Z.of_nat (length columns) + Z.of_nat (length (concat columns)).
Proof.
  split; [apply rowLengthOf_eq |].
  rewrite rowLengthOf_eq. unfold encodeRow.
  rewrite !length_app, !le_bytes_length, length_concat_le8. lia.
Qed.

Lemma take8_encodeRow (key : list byte) (columns : list sequence) :
  rowLengthOf key columns < 2 ^ 63 ->
  take 8 (encodeRow key columns) = bytes.le_bytes 8 (rowLengthOf key columns).
Proof.
  intros Hr. unfold encodeRow at 1.
  rewrite take_app_length' by (by rewrite le_bytes_length).
  rewrite Z.mod_small; [done |]. rewrite rowLengthOf_eq in *. lia.
Qed.

(** The sorter's [chunk] takes a stream of rows apart where [write] put
    them together: off a row followed by anything it reads that row, its
    length in front, and leaves the reader at what follows; at the end of
    the stream it returns io.EOF. *)
Theorem chunk_reads_row (key : list byte) (columns : list sequence) (rest : list byte) :
  rowLengthOf key columns < 2 ^ 63 ->
  chunk (encodeRow key columns ++ rest) = Done (encodeRow key columns, None, rest)
  /\ chunk [] = Done ([], Some "EOF", []).
Proof.
  intros Hr. split; [| done].
  pose proof (encodeRow_length key columns) as Hlen.
  pose proof (rowLengthOf_eq key columns) as Heq.
  unfold chunk. rewrite ReadUint_row by done.
  destruct (Z.leb_spec (2 ^ 63) (rowLengthOf key columns)); [lia |].
  unfold PutUint64. rewrite bytes_make_length.
  destruct (Nat.leb_spec 8 (Z.to_nat (rowLengthOf key columns))); [| lia].
  cbn [mbind go_bind].
  rewrite bytes_from_ok by (rewrite length_app, le_bytes_length, length_drop, bytes_make_length;
                            unfold width64bits; lia).
  cbn [mbind go_bind]. change (Z.to_nat width64bits) with 8%nat.
  rewrite drop_app_length' by (by rewrite le_bytes_length).
  rewrite length_drop, bytes_make_length.
  replace (Z.to_nat (rowLengthOf key columns) - 8)%nat
    with (Z.to_nat (rowLengthOf key columns - width64bits)) by (unfold width64bits; lia).
  rewrite ReadFull_row.
  rewrite take_app_length' by (by rewrite le_bytes_length).
  rewrite <- take8_encodeRow by done. by rewrite take_drop.
Qed.

(** A stream that ends inside a row: [chunk] panics on a length below 8,
    and reports the unexpected end otherwise. *)
Theorem chunk_damaged (r : list byte) :
  (0 < length r < 8)%nat ->
  chunk r = Done ([], Some "unexpected EOF", [])
  /\ forall rowLength rest,
       0 <= rowLength < 8 ->
       chunk (bytes.le_bytes 8 rowLength ++ rest) = Panic "index out of range".
Proof.
  intros Hr. split.
  - unfold chunk, golib.ReadUint, golib.ReadFull. cbn [Nat.eqb].
    destruct (Nat.leb_spec 8 (length r)); [lia |].
    destruct (Nat.eqb_spec (length r) 0); [lia | done].
  - intros rowLength rest Hlen.
    unfold chunk, golib.ReadUint, golib.ReadFull. cbn [Nat.eqb].
    rewrite length_app, le_bytes_length.
    destruct (Nat.leb_spec 8 (8 + length rest)); [| lia].
    rewrite take_app_length' by (by rewrite le_bytes_length).
    rewrite le_value_bytes_small by (rewrite pow256_8; lia).
    destruct (Z.leb_spec (2 ^ 63) rowLength); [lia |].
    unfold PutUint64. rewrite bytes_make_length.
    destruct (Nat.leb_spec 8 (Z.to_nat rowLength)); [lia | done].
Qed.

End Chunks.

Section ChunkWitnesses.
Import fileStore processFlushes.

Example chunk_reads_row_witness :
  chunk (encodeRow scenario.keyK [["1"; "2"; "3"]%byte] ++ ["7"%byte])
  = Done (encodeRow scenario.keyK [["1"; "2"; "3"]%byte], None, ["7"%byte]).
Proof.
  apply (chunk_reads_row scenario.keyK [["1"; "2"; "3"]%byte] ["7"%byte]).
  vm_compute. reflexivity.
Defined.

Example chunk_damaged_witness :
  chunk ["1"%byte] = Done ([], Some "unexpected EOF", []).
Proof. apply (chunk_damaged ["1"%byte]). cbn. lia. Defined.

End ChunkWitnesses.

Section Less.
Import fileStore binaryEncoding processFlushes golib2.

Lemma byte_to_Z_inj (x y : byte) : bytes.to_Z x = bytes.to_Z y -> x = y.
Proof. intros H. by rewrite <- (byte_of_to_Z x), <- (byte_of_to_Z y), H. Qed.

Lemma Compare_app_same (p a b : list byte) : Compare (p ++ a) (p ++ b) = Compare a b.
Proof.
  induction p as [|x p IH]; [done |]. cbn [app Compare].
  by rewrite Z.ltb_irrefl.
Qed.

Lemma Compare_app_differ (k1 : list byte) :
  forall (k2 t1 t2 : list byte),
    length k1 = length k2 -> k1 <> k2 ->
    Compare (k1 ++ t1) (k2 ++ t2) = Compare k1 k2.
Proof.
  induction k1 as [|x k1 IH]; intros [|y k2] t1 t2 Hlen Hne; try done.
  cbn [app Compare].
  destruct (Z.ltb_spec (bytes.to_Z x) (bytes.to_Z y)); [done |].
  destruct (Z.ltb_spec (bytes.to_Z y) (bytes.to_Z x)); [done |].
  assert (x = y) by (apply byte_to_Z_inj; lia). subst y.
  apply IH; [by injection Hlen | congruence].
Qed.

(** The order of a sorting flush is the order of the rows as bytes, the
    little-endian length in front: a row whose length has the smaller
    lowest byte comes first, whatever the keys; rows of the same length
    with keys of the same length are ordered by their keys. *)
Theorem less_rows (key1 key2 : list byte) (columns1 columns2 : list sequence) :
  (rowLengthOf key1 columns1 mod 256 < rowLengthOf key2 columns2 mod 256 ->
   less (encodeRow key1 columns1) (encodeRow key2 columns2) = true
   /\ less (encodeRow key2 columns2) (encodeRow key1 columns1) = false)
  /\ (rowLengthOf key1 columns1 = rowLengthOf key2 columns2 ->
      length key1 = length key2 -> key1 <> key2 ->
      less (encodeRow key1 columns1) (encodeRow key2 columns2) = less key1 key2).
Proof.
  split.
  - intros Hlow. unfold less, encodeRow. cbn [bytes.le_bytes app Compare].
    rewrite !byte_to_of_Z.
    assert (Hmod : forall z, (z mod 2 ^ 64) mod 256 = z mod 256).
    { intros z. apply Z.mod_mod_divide.
      exists (2 ^ 56). lia. }
    rewrite !Hmod.
    destruct (Z.ltb_spec (rowLengthOf key1 columns1 mod 256)
                         (rowLengthOf key2 columns2 mod 256)); [| lia].
    destruct (Z.ltb_spec (rowLengthOf key2 columns2 mod 256)
                         (rowLengthOf key1 columns1 mod 256)); [lia |].
    done.
  - intros Hlen Hk Hne. unfold less, encodeRow.
    rewrite Hlen, Hk, !Compare_app_same.
    by rewrite Compare_app_differ.
Qed.

End Less.

Section LessWitness.
Import fileStore processFlushes.

(** A row of 256 bytes comes before a row of 21 bytes. *)
Example less_rows_witness :
  less (encodeRow (replicate 236 "z"%byte) [[]]) (encodeRow ["a"%byte] [[]]) = true
  /\ less (encodeRow ["a"%byte] [[]]) (encodeRow (replicate 236 "z"%byte) [[]]) = false.
Proof.
  apply (less_rows (replicate 236 "z"%byte) ["a"%byte] [[]] [[]]).
  vm_compute. reflexivity.
Defined.

End LessWitness.

From Stdlib Require DecimalString.

(** * The name of a flushed file and the version that [iterate] reads off it *)

Section FileNames.
Import golib golib2 fileStore processFlushes.

Lemma chars_app (s1 s2 : string) :
  list_ascii_of_string (s1 +:+ s2) = list_ascii_of_string s1 ++ list_ascii_of_string s2.
Proof.
  induction s1 as [|a s1 IH]; [done |].
  change (String a s1 +:+ s2) with (String a (s1 +:+ s2)).
  cbn [list_ascii_of_string app]. by rewrite IH.
Qed.

Lemma Split_nonempty (s : string) (sep : ascii) : Split s sep <> [].
Proof.
  destruct s as [|a s]; [done |]. cbn.
  case_bool_decide; [done |]. by destruct (Split s sep).
Qed.

Lemma Split_plain (s : string) (sep : ascii) :
  sep ∉ list_ascii_of_string s -> Split s sep = [s].
Proof.
  induction s as [|a s IH]; [done |]. cbn. intros Hnot.
  apply not_elem_of_cons in Hnot as [Hne Hnot].
  rewrite bool_decide_eq_false_2 by done. by rewrite IH.
Qed.

Lemma Split_app (s1 s2 : string) (sep : ascii) :
  sep ∉ list_ascii_of_string s1 ->
  Split (s1 +:+ String sep s2) sep = s1 :: Split s2 sep.
Proof.
  induction s1 as [|a s1 IH].
  - intros _. change (EmptyString +:+ String sep s2) with (String sep s2).
    cbn [Split]. by rewrite bool_decide_eq_true_2.
  - intros Hnot. cbn [list_ascii_of_string] in Hnot.
    apply not_elem_of_cons in Hnot as [Hne Hnot].
    change (String a s1 +:+ String sep s2) with (String a (s1 +:+ String sep s2)).
    cbn [Split]. rewrite bool_decide_eq_false_2 by done. by rewrite IH.
Qed.

Lemma last_Split_cons (a : ascii) (s : string) (sep : ascii) :
  (2 <= length (Split s sep))%nat ->
  (2 <= length (Split (String a s) sep))%nat
  /\ List.last (Split (String a s) sep) EmptyString = List.last (Split s sep) EmptyString.
Proof.
  intros Hlen. cbn [Split]. case_bool_decide.
  - split; [cbn; lia |]. destruct (Split s sep) as [|x xs] eqn:Hs; [by cbn in Hlen |]. done.
  - destruct (Split s sep) as [|x [|y xs]] eqn:Hs; cbn in Hlen; try lia.
    split; [cbn; lia | done].
Qed.

Lemma Base_join (dir name : string) :
  "/"%char ∉ list_ascii_of_string name ->
  Base (dir +:+ "/" +:+ name) = name.
Proof.
  intros Hplain. unfold Base.
  assert (H : (2 <= length (Split (dir +:+ "/" +:+ name) "/"))%nat
              /\ List.last (Split (dir +:+ "/" +:+ name) "/") EmptyString = name);
    [| by destruct H].
  induction dir as [|a dir IH].
  - change (EmptyString +:+ "/" +:+ name) with (String "/" name).
    cbn [Split]. rewrite bool_decide_eq_true_2 by done. rewrite Split_plain by done. by cbn.
  - destruct IH as [IH1 IH2].
    destruct (last_Split_cons a (dir +:+ "/" +:+ name) "/" IH1) as [H1 H2].
    change (String a dir +:+ "/" +:+ name) with (String a (dir +:+ "/" +:+ name)).
    by rewrite H2.
Qed.

(** What a decimal number is written with. *)
Lemma string_of_uint_chars (u : Decimal.uint) :
  Forall (fun c => c ∈ list_ascii_of_string "0123456789")
         (list_ascii_of_string (DecimalString.NilEmpty.string_of_uint u)).
Proof.
  induction u; cbn [DecimalString.NilEmpty.string_of_uint list_ascii_of_string];
    constructor; try done; set_solver.
Qed.

Lemma Sprintf_020d_chars (z : Z) :
  Forall (fun c => c ∈ list_ascii_of_string "-0123456789")
         (list_ascii_of_string (Sprintf_020d z)).
Proof.
  assert (Hdigits : forall u,
            Forall (fun c => c ∈ list_ascii_of_string "-0123456789")
                   (list_ascii_of_string (DecimalString.NilZero.string_of_uint u))).
  { intros u.
    assert (H : Forall (fun c => c ∈ list_ascii_of_string "0123456789")
                       (list_ascii_of_string (DecimalString.NilZero.string_of_uint u))).
    { destruct u; try apply string_of_uint_chars. cbn. constructor; [set_solver | done]. }
    eapply Forall_impl; [exact H |]. cbn. intros c Hc. by right. }
  assert (Hpad : forall w s,
            Forall (fun c => c ∈ list_ascii_of_string "-0123456789") (list_ascii_of_string s) ->
            Forall (fun c => c ∈ list_ascii_of_string "-0123456789")
                   (list_ascii_of_string (pad0 w s))).
  { intros w s Hs. unfold pad0.
    rewrite chars_app, list_ascii_of_string_of_list_ascii.
    apply Forall_app. split; [| done].
    apply Forall_replicate. set_solver. }
  unfold Sprintf_020d. destruct (z <? 0).
  - rewrite chars_app. apply Forall_app. split; [| by apply Hpad].
    cbn. constructor; [set_solver | done].
  - by apply Hpad.
Qed.

Lemma Sprintf_020d_plain (z : Z) (sep : ascii) :
  sep ∉ list_ascii_of_string "-0123456789" ->
  sep ∉ list_ascii_of_string (Sprintf_020d z).
Proof.
  intros Hsep Hin. pose proof (Sprintf_020d_chars z) as H.
  rewrite Forall_forall in H. by apply Hsep, H.
Qed.

(** A file that a flush leaves is read by [iterate] as a file of the
    current version, whatever the directory and the time: the header that
    the flush wrote is looked for. *)
Theorem newFileStoreName_version (dir : string) (unixNano : Z) :
  fileVersionOf (newFileStoreName dir unixNano) = CurrentFileVersion
  /\ FileVersion_2 <= fileVersionOf (newFileStoreName dir unixNano).
Proof.
  assert (H : fileVersionOf (newFileStoreName dir unixNano) = CurrentFileVersion);
    [| by rewrite H].
  unfold fileVersionOf, newFileStoreName.
  change (Sprintf_d CurrentFileVersion) with "2"%string.
  set (D := Sprintf_020d unixNano).
  assert (Hslash : "/"%char ∉ list_ascii_of_string D).
  { apply Sprintf_020d_plain. cbn. set_solver. }
  assert (Hunder : "_"%char ∉ list_ascii_of_string D).
  { apply Sprintf_020d_plain. cbn. set_solver. }
  rewrite Base_join.
  2:{ rewrite !chars_app. cbn [list_ascii_of_string app].
      rewrite !not_elem_of_cons, not_elem_of_app, !not_elem_of_cons.
      repeat split; try done. apply not_elem_of_nil. }
  change ("filestore_" +:+ D +:+ "_" +:+ "2" +:+ ".dat")%string
    with ("filestore" +:+ String "_" (D +:+ String "_" "2.dat"))%string.
  rewrite Split_app by (cbn; set_solver).
  rewrite Split_app by done.
  reflexivity.
Qed.

End FileNames.

(** * The fields of a query *)

Section ShouldIncludeSpec.
Import fileStore.
Context {Expr : Type}.

(** The scan of the closure returned, with its early exit, finds the
    indexes of the candidates named: the indexes are collected in
    increasing order. *)
Lemma scan_included (fields : list string) (i : Z) (candidates : list (Field (Expr:=Expr))) :
  forall j : nat,
    (fix scan (xs : list Z) : bool :=
       match xs with
       | [] => false
       | x :: xs' => if x =? i then true else if i <? x then false else scan xs'
       end)
      (omap (fun '(i, field) =>
               if existsb (fun f => bool_decide (f = Name field)) fields
               then Some (Z.of_nat i) else None)
            (imap (fun n f => ((j + n)%nat, f)) candidates)) = true
    <-> exists n field, candidates !! n = Some field /\ i = Z.of_nat (j + n)
                        /\ Name field ∈ fields.
Proof.
  induction candidates as [|field0 candidates IH]; intros j.
  - cbn. split; [done |]. by intros (n & field & Hn & _).
  - cbn [imap omap list_omap]. rewrite Nat.add_0_r.
    rewrite (imap_ext _ (fun n f => ((S j + n)%nat, f)))
      by (intros; unfold compose; f_equal; lia).
    specialize (IH (S j)).
    destruct (existsb (fun f => bool_decide (f = Name field0)) fields) eqn:Hex.
    + apply existsb_name in Hex.
      destruct (Z.eqb_spec (Z.of_nat j) i) as [<- | Hne].
      { split; [| done]. intros _. exists 0%nat, field0.
        split; [done |]. split; [f_equal; lia | done]. }
      destruct (Z.ltb_spec i (Z.of_nat j)) as [Hlt | Hge].
      { split; [done |]. intros (n & field & _ & -> & _). lia. }
      rewrite IH. split.
      * intros (n & field & Hn & -> & Hin). exists (S n), field.
        split; [done |]. split; [f_equal; lia | done].
      * intros (n & field & Hn & -> & Hin). destruct n as [|n]; [lia |].
        exists n, field. split; [done |]. split; [f_equal; lia | done].
    + rewrite IH. split.
      * intros (n & field & Hn & -> & Hin). exists (S n), field.
        split; [done |]. split; [f_equal; lia | done].
      * intros (n & field & Hn & -> & Hin). destruct n as [|n].
        { cbn in Hn. injection Hn as <-. apply existsb_name in Hin. congruence. }
        exists n, field. split; [done |]. split; [f_equal; lia | done].
Qed.

(** With no field asked for, every column is included. With fields asked
    for, of which one at least is a field of the candidates, the function
    returned includes exactly the columns of the candidates that are
    named; names that are no candidate's are ignored. *)
Theorem buildShouldInclude_spec (fields : list string)
    (candidates : list (Field (Expr:=Expr))) :
  (fields = [] ->
   exists f, buildShouldInclude fields candidates = (Some f, None)
             /\ forall i, f i = true)
  /\ (fields <> [] ->
      (exists n field, candidates !! n = Some field /\ Name field ∈ fields) ->
      exists f, buildShouldInclude fields candidates = (Some f, None)
                /\ forall i, f i = true
                             <-> exists n field, candidates !! n = Some field
                                                 /\ i = Z.of_nat n
                                                 /\ Name field ∈ fields).
Proof.
  split.
  - intros ->. eexists. split; [reflexivity | done].
  - intros Hne (n0 & field0 & Hn0 & Hin0). unfold buildShouldInclude.
    destruct fields as [|f0 fields]; [done |]. cbn [length Nat.eqb].
    set (sel := fun '(i, field) => _).
    pose proof (fun i => scan_included (f0 :: fields) i candidates 0) as Hscan.
    cbn [Nat.add] in Hscan.
    rewrite (imap_ext _ pair) in Hscan by done. fold sel in Hscan.
    destruct (omap sel (imap pair candidates)) as [|x xs] eqn:Hincl.
    { exfalso. specialize (Hscan (Z.of_nat n0)). cbn in Hscan.
      assert (false = true); [| done]. apply Hscan. by exists n0, field0. }
    cbn [length Nat.eqb]. eexists. split; [reflexivity |].
    intros i. cbn beta. by rewrite Hscan.
Qed.

End ShouldIncludeSpec.

Section ShouldIncludeWitness.
Import fileStore.

Example buildShouldInclude_spec_witness :
  exists f, buildShouldInclude ["b"; "bogus"] [scenario.fa; scenario.fb] = (Some f, None)
            /\ forall i, f i = true
                         <-> exists n field, [scenario.fa; scenario.fb] !! n = Some field
                                             /\ i = Z.of_nat n
                                             /\ Name field ∈ ["b"; "bogus"].
Proof.
  apply (buildShouldInclude_spec ["b"; "bogus"] [scenario.fa; scenario.fb]).
  - discriminate.
  - exists 1%nat, scenario.fb. split; [reflexivity |]. cbn. apply list_elem_of_here.
Defined.

End ShouldIncludeWitness.

(** * The merge of the pass over the memstores *)

Section MergeWalk.
Import fileStore walkPass.
Context {Expr Duration Time : Type}.
Variable merge : sequence -> sequence -> Expr -> Duration -> Time -> sequence.
Variable Fields : list (Field (Expr:=Expr)).
Variable Resolution : Duration.
Variable truncateBefore : Time.

Abbreviation mergeWalkColumns :=
  (mergeWalkColumns merge Fields Resolution truncateBefore).
Abbreviation mergedUpTo := (mergedUpTo merge Fields Resolution truncateBefore).
Abbreviation mergedColumns := (mergedColumns merge Fields Resolution truncateBefore).

(** The columns when the loop is about to run the iteration [i]. *)
Let at_ (columns columns2 : list sequence) (i : nat) : list sequence :=
  imap (mergedUpTo i columns2) columns
  ++ take (i - length columns) (drop (length columns) columns2).

Lemma at_length (columns columns2 : list sequence) (i : nat) :
  length (at_ columns columns2 i)
  = (length columns + Nat.min (i - length columns) (length columns2 - length columns))%nat.
Proof. unfold at_. rewrite length_app, length_imap, length_take, length_drop. lia. Qed.

Lemma at_step (columns columns2 : list sequence) (i : nat) :
  (Nat.min (length columns) (length columns2) <= length Fields)%nat ->
  (i < Nat.max (length columns) (length columns2))%nat ->
  (if (length columns2 <=? i)%nat then Done (at_ columns columns2 i)
   else if (length (at_ columns columns2 i) <=? i)%nat then
     Done (at_ columns columns2 i ++ [default [] (columns2 !! i)])
   else
     match Fields !! i with
     | Some f =>
         let c := default [] (at_ columns columns2 i !! i) in
         let c2 := default [] (columns2 !! i) in
         Done (<[i := merge c c2 (FExpr f) Resolution truncateBefore]> (at_ columns columns2 i))
     | None => Panic "index out of range"
     end)
  = Done (at_ columns columns2 (S i)).
Proof.
  intros Hfields Hi. rewrite at_length.
  destruct (Nat.leb_spec (length columns2) i) as [Hm | Hm].
  { (* nothing to merge *)
    f_equal. unfold at_. f_equal; [| f_equal; lia].
    apply imap_ext. intros j c Hj. unfold walkPass.mergedUpTo.
    destruct (Nat.ltb_spec j i), (Nat.ltb_spec j (S i)); try lia; [done | | done].
    assert (j = i) by lia. subst j. unfold sequence in *.
    by rewrite (lookup_ge_None_2 columns2 i). }
  destruct (Nat.leb_spec
              (length columns + Nat.min (i - length columns) (length columns2 - length columns))
              i) as [Hn | Hn].
  { (* nothing to merge, just add new column *)
    assert (Hge : (length columns <= i)%nat) by lia.
    destruct (lookup_lt_is_Some_2 columns2 i Hm) as [c2 Hc2].
    unfold sequence in *. rewrite Hc2. cbn [default].
    f_equal. unfold at_. rewrite <- app_assoc. f_equal.
    - apply imap_ext. intros j c Hj. apply lookup_lt_Some in Hj.
      unfold walkPass.mergedUpTo.
      destruct (Nat.ltb_spec j i), (Nat.ltb_spec j (S i)); try lia. done.
    - replace (S i - length columns)%nat with (S (i - length columns)) by lia.
      rewrite (take_S_r _ _ c2); [done |].
      rewrite lookup_drop. rewrite <- Hc2. f_equal. lia. }
  (* merge *)
  assert (Hlt : (i < length columns)%nat) by lia.
  destruct (lookup_lt_is_Some_2 Fields i) as [f Hf]; [lia |]. rewrite Hf.
  destruct (lookup_lt_is_Some_2 columns2 i Hm) as [c2 Hc2].
  destruct (lookup_lt_is_Some_2 columns i Hlt) as [c Hc].
  cbn zeta. f_equal. unfold at_. unfold sequence in *.
  replace (i - length columns)%nat with 0%nat by lia.
  replace (S i - length columns)%nat with 0%nat by lia.
  cbn [take]. rewrite !app_nil_r.
  apply list_eq. intros j. rewrite list_lookup_imap.
  destruct (decide (j = i)) as [-> | Hne].
  - rewrite list_lookup_insert_eq by (by rewrite length_imap).
    rewrite list_lookup_imap, Hc, Hc2. cbn.
    unfold walkPass.mergedUpTo. unfold sequence in *. rewrite Nat.ltb_irrefl, Hc2, Hf.
    destruct (Nat.ltb_spec i (S i)); [reflexivity | lia].
  - rewrite list_lookup_insert_ne by done. rewrite !list_lookup_imap.
    unfold sequence in *.
    destruct (columns !! j) as [cj|]; [| done]. cbn. f_equal.
    unfold walkPass.mergedUpTo.
    destruct (Nat.ltb_spec j i), (Nat.ltb_spec j (S i)); try lia; done.
Qed.

Lemma mergeWalkColumns_at (columns columns2 : list sequence) (k : nat) :
  (Nat.min (length columns) (length columns2) <= length Fields)%nat ->
  forall (i fuel : nat),
    (i + k = Nat.max (length columns) (length columns2))%nat ->
    (k <= fuel)%nat ->
    mergeWalkColumns fuel i (Some (fun _ => true)) (at_ columns columns2 i) columns2
    = Done (at_ columns columns2 (Nat.max (length columns) (length columns2))).
Proof.
  intros Hfields. induction k as [|k IH]; intros i fuel Hi Hfuel.
  - replace (Nat.max (length columns) (length columns2)) with i by lia.
    destruct fuel as [|fuel]; [done |]. cbn [fileStore.mergeWalkColumns].
    rewrite at_length.
    destruct (Nat.ltb_spec i (length columns
                              + Nat.min (i - length columns) (length columns2 - length columns)));
      [lia |].
    destruct (Nat.ltb_spec i (length columns2)); [lia | done].
  - destruct fuel as [|fuel]; [lia |]. cbn [fileStore.mergeWalkColumns].
    assert (Hcond : (i <? length (at_ columns columns2 i))%nat
                    || (i <? length columns2)%nat = true).
    { rewrite at_length. apply orb_true_iff.
      destruct (Nat.ltb_spec i (length columns2)); [by right | left].
      apply Nat.ltb_lt. lia. }
    rewrite Hcond. cbn [call mbind go_bind].
    rewrite at_step by (done || lia). cbn [mbind go_bind].
    apply IH; lia.
Qed.

(** With every field included, the merge of the pass over the memstores
    never fails where the table has a field for every column that both
    entries have: it merges column by column and appends the columns that
    the later memstore has more, each at its index. (This is the case
    that panics in the pass over the file.) *)
Theorem mergeWalkColumns_spec (columns columns2 : list sequence) :
  (Nat.min (length columns) (length columns2) <= length Fields)%nat ->
  mergeWalkColumns (length columns + length columns2) 0 (Some (fun _ => true))
    columns columns2
  = Done (mergedColumns columns columns2)
  /\ length (mergedColumns columns columns2)
     = Nat.max (length columns) (length columns2)
  /\ (forall i, (length columns <= i)%nat ->
                mergedColumns columns columns2 !! i = columns2 !! i).
Proof.
  intros Hfields.
  assert (H0 : at_ columns columns2 0 = columns).
  { unfold at_. cbn [Nat.sub take]. rewrite app_nil_r.
    apply list_eq. intros j. rewrite list_lookup_imap.
    by destruct (columns !! j). }
  assert (Hmax : at_ columns columns2 (Nat.max (length columns) (length columns2))
                 = mergedColumns columns columns2).
  { unfold at_, walkPass.mergedColumns. f_equal.
    - apply imap_ext. intros j c Hj. apply lookup_lt_Some in Hj.
      unfold walkPass.mergedUpTo.
      destruct (Nat.ltb_spec j (Nat.max (length columns) (length columns2))),
               (Nat.ltb_spec j (length columns)); try lia. done.
    - apply take_ge. rewrite length_drop. lia. }
  split; [| split].
  - pose proof (mergeWalkColumns_at columns columns2
                  (Nat.max (length columns) (length columns2)) Hfields
                  0 (length columns + length columns2)) as H.
    rewrite H0, Hmax in H. apply H; lia.
  - unfold walkPass.mergedColumns. rewrite length_app, length_imap, length_drop. lia.
  - intros i Hi. unfold walkPass.mergedColumns.
    rewrite lookup_app_r by (by rewrite length_imap).
    rewrite length_imap, lookup_drop. f_equal. lia.
Qed.

End MergeWalk.

Section MergeWalkWitness.
Import fileStore walkPass.

(** An entry with one column, the later memstore's with two. *)
Example mergeWalkColumns_spec_witness :
  mergeWalkColumns (Duration:=unit) (Time:=unit) (fun a b _ _ _ => a ++ b)
    [scenario.fa; scenario.fb] tt tt 3 0 (Some (fun _ => true))
    [["1"%byte]] [["2"%byte]; ["3"%byte]]
  = Done [["1"; "2"]%byte; ["3"%byte]].
Proof.
  apply (mergeWalkColumns_spec (Duration:=unit) (Time:=unit) (fun a b _ _ _ => a ++ b)
           [scenario.fa; scenario.fb] tt tt [["1"%byte]] [["2"%byte]; ["3"%byte]]).
  cbn. lia.
Defined.

End MergeWalkWitness.

(** * Queries before the first file *)

Section PanickingCallback.
Import bytetree radix.
Context {X : Type}.
Variable fn : list byte -> list Sequence -> go X -> bool * go X.
Variable x0 : X.
Variable msg : string.
Hypothesis fn_absorbs : forall k d, snd (fn k d (Panic msg)) = Panic msg.
Hypothesis fn_panics : forall k d, d <> [] -> snd (fn k d (Done x0)) = Panic msg.

Lemma walk_loop_panicked (fuel : nat) :
  forall (ctx : Z) (rt : node) (Q : list path) (rt' : node) (st' : go X),
    walk_loop fn fuel ctx rt Q (Panic msg) = Some (rt', st') -> st' = Panic msg.
Proof.
  induction fuel as [|fuel IH]; intros ctx rt Q rt' st' Hwalk.
  - destruct Q; [| done]. by injection Hwalk as _ <-.
  - destruct Q as [|p Q]; [by injection Hwalk as _ <- |].
    cbn [walk_loop] in Hwalk.
    destruct (deref rt p) as [n|]; [| done]. cbn [mbind option_bind] in Hwalk.
    assert (Hv : snd (visit fn ctx rt p n (Panic msg)) = Panic msg).
    { unfold visit. destruct (negb (bool_decide (data n = []))); [| done].
      destruct (negb (wasRemovedFor n ctx)); [| done].
      pose proof (fn_absorbs (key n) (data n)) as Hf.
      destruct (fn (key n) (data n) (Panic msg)) as [keep st]. cbn in Hf. subst st.
      by destruct (negb keep). }
    destruct (visit fn ctx rt p n (Panic msg)) as [rt1 st1]. cbn in Hv. subst st1.
    by eapply IH.
Qed.

Lemma walk_loop_panics (fuel : nat) :
  forall (ctx : Z) (rt : node) (Q : list path) (rt' : node) (st' : go X),
    walk_loop fn fuel ctx rt Q (Done x0) = Some (rt', st') ->
    st' = Panic msg \/ concat (map (visibleAt ctx rt) Q) = [].
Proof.
  induction fuel as [|fuel IH]; intros ctx rt Q rt' st' Hwalk.
  - destruct Q; [by right | done].
  - destruct Q as [|p Q]; [by right |].
    cbn [walk_loop] in Hwalk.
    destruct (deref rt p) as [n|] eqn:Hn; [| done]. cbn [mbind option_bind] in Hwalk.
    assert (Hquiet : visit fn ctx rt p n (Done x0) = (rt, Done x0) ->
                     st' = Panic msg \/ concat (map (visibleAt ctx rt) (p :: Q)) = []).
    { intros Hv. rewrite Hv in Hwalk.
      destruct (IH _ _ _ _ _ Hwalk) as [? | Hnil]; [by left | right].
      rewrite map_app, concat_app in Hnil. apply app_eq_nil in Hnil as [HQ Hkids].
      cbn [map concat]. rewrite HQ, app_nil_r.
      unfold visibleAt at 1. rewrite Hn, visible_eq.
      rewrite (visibleAt_targets _ _ _ _ Hn) in Hkids. rewrite Hkids, app_nil_r.
      unfold visit in Hv.
      case_bool_decide as Hd; [done |].
      destruct (wasRemovedFor n ctx) eqn:Hrem; [done |].
      cbn [negb orb] in Hv |- *.
      pose proof (fn_panics (key n) (data n) Hd) as Hf.
      destruct (fn (key n) (data n) (Done x0)) as [keep st]. cbn in Hf. subst st.
      destruct (negb keep); by simplify_eq. }
    unfold visit in Hwalk, Hquiet.
    case_bool_decide as Hd; cbn [negb] in *; [by apply Hquiet |].
    destruct (wasRemovedFor n ctx); cbn [negb] in *; [by apply Hquiet |].
    pose proof (fn_panics (key n) (data n) Hd) as Hf.
    destruct (fn (key n) (data n) (Done x0)) as [keep st]. cbn in Hf. subst st.
    left. destruct (negb keep); by eapply walk_loop_panicked.
Qed.

End PanickingCallback.

Section NoFile.
Import bytetree radix fileStore.
Context {Expr Duration Time St : Type}.
Variable merge : sequence -> sequence -> Expr -> Duration -> Time -> sequence.
Variable Fields : list (Field (Expr:=Expr)).
Variable Resolution : Duration.
Variable truncateBefore : Time.
Variable ctx : Z.
Variable onRow : list byte -> list sequence -> St -> St.

Abbreviation walkRow := (walkRow merge Fields Resolution truncateBefore ctx onRow).
Abbreviation walkMemStores :=
  (walkMemStores merge Fields Resolution truncateBefore ctx onRow).
Abbreviation iterate := (iterate merge Fields Resolution truncateBefore ctx onRow).

Abbreviation nilFunc := "invalid memory address or nil pointer dereference"%string.

Lemma foldl_panic {A B : Type} (f : go A -> B -> go A) (m : string) (l : list B) :
  (forall b, f (Panic m) b = Panic m) -> foldl f (Panic m) l = Panic m.
Proof. intros Hf. induction l as [|b l IH]; [done |]. cbn. by rewrite Hf. Qed.

(** The callback of the walk, handed the columns of an entry while a later
    memstore is there and no function to ask about the fields: it calls
    the nil function. *)
Lemma walkRow_nil_func (key : list byte) (columns : list sequence)
    (ms1 ms2 : Tree) (rest : list Tree) (s : St) :
  columns <> [] ->
  snd (walkRow 0%nat None key columns (Done (ms1 :: ms2 :: rest, s))) = Panic nilFunc.
Proof.
  intros Hcols. unfold fileStore.walkRow. cbn [snd mbind go_bind length Nat.sub seq foldl].
  cbn [lookup list_lookup].
  destruct (Remove ms2 ctx key) as [columns2 ms2'].
  assert (Hmerge : mergeWalkColumns merge Fields Resolution truncateBefore
                     (length columns + length columns2) 0 None columns columns2
                   = Panic nilFunc).
  { destruct columns as [|c columns]; [done |]. reflexivity. }
  rewrite Hmerge. cbn [mbind go_bind].
  rewrite foldl_panic; [done |]. by intros j.
Qed.

(** Without a file, [iterate] has no function to ask which fields to
    include. With one memstore it is never asked; with two or more,
    [iterate] panics on the nil function as soon as the first memstore
    holds an entry that is not removed for the context. *)
Theorem iterate_without_file_panics (filename : string) (ms1 ms2 : Tree)
    (rest : list Tree) (fields : list string) (s : St) :
  visible ctx (root ms1) <> [] ->
  iterate filename NotExist (ms1 :: ms2 :: rest) fields s = Panic nilFunc.
Proof.
  intros Hvis. unfold fileStore.iterate. cbn [mbind go_bind].
  assert (Hwalk : walkMemStores None (ms1 :: ms2 :: rest) s = Panic nilFunc);
    [| by rewrite Hwalk].
  unfold fileStore.walkMemStores. cbn [length seq foldl mbind go_bind lookup list_lookup].
  destruct (Walk_total (walkRow 0%nat None) ms1 ctx (Done (ms1 :: ms2 :: rest, s)))
    as [[ms st] Hw].
  rewrite Hw.
  assert (Hst : st = Panic nilFunc).
  { unfold Walk in Hw.
    destruct (walk_loop (walkRow 0%nat None) (size (root ms1)) ctx (root ms1) [[]]
                (Done (ms1 :: ms2 :: rest, s))) as [[rt' st1]|] eqn:Hloop; [| done].
    cbn in Hw. injection Hw as _ <-.
    destruct (walk_loop_panics (walkRow 0%nat None) (ms1 :: ms2 :: rest, s) nilFunc
                (fun k d => eq_refl)
                (fun k d Hd => walkRow_nil_func k d ms1 ms2 rest s Hd)
                _ _ _ _ _ _ Hloop) as [? | Hnil]; [done |].
    exfalso. apply Hvis. cbn in Hnil. unfold visibleAt in Hnil. cbn in Hnil.
    by rewrite app_nil_r in Hnil. }
  subst st. cbn [mbind go_bind].
  apply foldl_panic. by intros j.
Qed.

End NoFile.

Section NoFileWitness.
Import fileStore.

Example iterate_without_file_panics_witness :
  iterate (Duration:=unit) (Time:=unit) (fun a b _ _ _ => a ++ b)
    [scenario.fa; scenario.fb] tt tt 77 scenario.record
    "" NotExist [scenario.memStore; bytetree.New] [] []
  = Panic "invalid memory address or nil pointer dereference".
Proof.
  apply (iterate_without_file_panics (Duration:=unit) (Time:=unit)
           (fun a b _ _ _ => a ++ b) [scenario.fa; scenario.fb] tt tt 77 scenario.record
           "" scenario.memStore bytetree.New [] [] []).
  vm_compute. discriminate.
Defined.

End NoFileWitness.

(** * The pass over one memstore *)

Section TwoCallbacks.
Import bytetree radix.
Context {S1 S2 : Type}.
Variable fn1 : list byte -> list Sequence -> S1 -> bool * S1.
Variable fn2 : list byte -> list Sequence -> S2 -> bool * S2.
Variable R : S1 -> S2 -> Prop.
Hypothesis fn_related :
  forall k d s1 s2, R s1 s2 -> R (snd (fn1 k d s1)) (snd (fn2 k d s2)).

Lemma visit_sim2 (ctx : Z) (rt1 rt2 : node) (p : path) (n1 n2 : node) (s1 : S1) (s2 : S2) :
  seen n1 = seen n2 ->
  wasRemovedFor n1 ctx = wasRemovedFor n2 ctx ->
  R s1 s2 ->
  exists (b1 b2 : bool) (s1' : S1) (s2' : S2),
    visit fn1 ctx rt1 p n1 s1
    = (if b1 then store (fun n => doRemoveFor n ctx) rt1 p else rt1, s1')
    /\ visit fn2 ctx rt2 p n2 s2
    = (if b2 then store (fun n => doRemoveFor n ctx) rt2 p else rt2, s2')
    /\ R s1' s2'.
Proof.
  unfold seen, visit. intros [= Hd Hk _] <- HR. rewrite <- Hd in *.
  destruct (bool_decide (data n1 = [])); cbn [negb]; [by exists false, false; eauto |].
  rewrite <- Hk.
  destruct (negb (wasRemovedFor n1 ctx)); [| by exists false, false; eauto].
  pose proof (fn_related (key n1) (data n1) s1 s2 HR) as HR'.
  destruct (fn1 (key n1) (data n1) s1) as [keep1 s1'].
  destruct (fn2 (key n1) (data n1) s2) as [keep2 s2'].
  exists (negb keep1), (negb keep2), s1', s2'. by destruct keep1, keep2.
Qed.

(** Two walks of trees that differ in marks for nodes already walked
    only call their callbacks for the same nodes in the same order. *)
Lemma walk_loop_sim2 (fuel : nat) :
  forall (ctx : Z) (rt1 rt2 : node) (Q : list path) (s1 : S1) (s2 : S2),
    (forall q, seen <$> deref rt1 q = seen <$> deref rt2 q) ->
    antichain Q ->
    (forall p q, p ∈ Q -> p `prefix_of` q ->
       (fun n => wasRemovedFor n ctx) <$> deref rt1 q
       = (fun n => wasRemovedFor n ctx) <$> deref rt2 q) ->
    R s1 s2 ->
    match walk_loop fn1 fuel ctx rt1 Q s1, walk_loop fn2 fuel ctx rt2 Q s2 with
    | Some (_, s1'), Some (_, s2') => R s1' s2'
    | None, None => True
    | _, _ => False
    end.
Proof.
  induction fuel as [|fuel IH]; intros ctx rt1 rt2 Q s1 s2 Hseen HQ Hrem HR.
  - by destruct Q.
  - destruct Q as [|p Q]; [done |].
    cbn [walk_loop].
    pose proof (Hseen p) as Hp. pose proof (Hrem p p) as Hrp.
    destruct (deref rt1 p) as [n1|], (deref rt2 p) as [n2|]; try done.
    cbn [mbind option_bind]. cbn [fmap option_fmap option_map] in Hp, Hrp.
    assert (Hp' : seen n1 = seen n2) by congruence. clear Hp. rename Hp' into Hp.
    specialize (Hrp ltac:(left) ltac:(done)). injection Hrp as Hrp.
    destruct (visit_sim2 ctx rt1 rt2 p n1 n2 s1 s2 Hp Hrp HR)
      as (b1 & b2 & s1' & s2' & -> & -> & HR').
    rewrite (targets_length p n1 n2) by (unfold seen in Hp; congruence).
    assert (Hne : forall p' q, p' ∈ Q ++ targets p n2 -> p' `prefix_of` q -> q <> p).
    { intros p' q [Hp' | Hp']%elem_of_app Hpre ->.
      - destruct (antichain_head p p' Q HQ Hp') as [_ H]. by apply H.
      - apply list_elem_of_lookup in Hp' as [i Hi].
        apply targets_lookup in Hi as [-> _]. by apply prefix_snoc_not in Hpre. }
    assert (Hold : forall p' q, p' ∈ Q ++ targets p n2 -> p' `prefix_of` q ->
              (fun n => wasRemovedFor n ctx) <$> deref rt1 q
              = (fun n => wasRemovedFor n ctx) <$> deref rt2 q).
    { intros p' q [Hp' | Hp']%elem_of_app Hpre.
      - apply (Hrem p'); [by right | done].
      - apply list_elem_of_lookup in Hp' as [i Hi].
        apply targets_lookup in Hi as [-> _].
        apply (Hrem p); [left | by eapply prefix_app_l]. }
    apply IH.
    + intros q. destruct b1, b2; rewrite ?seen_store; apply Hseen.
    + by apply antichain_step.
    + intros p' q Hp' Hpre.
      assert (Hq : q <> p) by (by eapply Hne).
      destruct b1, b2; rewrite ?wasRemovedFor_store by done; by eapply Hold.
    + done.
Qed.

End TwoCallbacks.

Section OneMemStore.
Import bytetree radix fileStore.
Context {Expr Duration Time St : Type}.
Variable merge : sequence -> sequence -> Expr -> Duration -> Time -> sequence.
Variable Fields : list (Field (Expr:=Expr)).
Variable Resolution : Duration.
Variable truncateBefore : Time.
Variable ctx : Z.
Variable onRow : list byte -> list sequence -> St -> St.

Abbreviation walkRow := (walkRow merge Fields Resolution truncateBefore ctx onRow).
Abbreviation iterate := (iterate merge Fields Resolution truncateBefore ctx onRow).

Lemma walkRow_alone (sh : option (Z -> bool)) (key : list byte) (columns : list sequence)
    (ms : Tree) (s : St) :
  walkRow 0%nat sh key columns (Done ([ms], s)) = (false, Done ([ms], onRow key columns s)).
Proof. reflexivity. Qed.

(** Without a file and with one memstore, [iterate] hands to [onRow] the
    entries of the memstore that are not removed for the context, each
    once with its key and columns, in the order of the walk, and returns
    no error; afterwards the memstore shows no entry for the context,
    except for the context 0, for which it shows what it showed before.
    This is the pass that the first flush writes the file from. *)
Theorem iterate_one_memstore (filename : string) (ms : Tree) (fields : list string)
    (s : St) :
  exists (l : list (list byte * list Sequence)) (ms' : Tree),
    Walk scenarioTree.collect ms ctx [] = Some (ms, l)
    /\ l ≡ₚ visible ctx (root ms)
    /\ iterate filename NotExist [ms] fields s
       = Done (foldl (fun s row => onRow row.1 row.2 s) s l, [ms'], None)
    /\ visible ctx (root ms')
       = (if bool_decide (ctx = 0) then visible ctx (root ms) else []).
Proof.
  destruct (Walk_collect_visible ms ctx) as (l & Hl & Hperm).
  destruct (Walk_total (walkRow 0%nat None) ms ctx (Done ([ms], s))) as [[ms' st] Hw].
  exists l, ms'. split; [done |]. split; [done |].
  assert (Hst : st = Done ([ms], foldl (fun s row => onRow row.1 row.2 s) s l)).
  { pose proof (walk_loop_sim2 (walkRow 0%nat None) scenarioTree.collect
                  (fun st l => st = Done ([ms], foldl (fun s row => onRow row.1 row.2 s) s l)))
      as Hsim.
    specialize (Hsim ltac:(intros k d s1 s2 ->; unfold scenarioTree.collect; cbn [snd];
                           by rewrite foldl_app)).
    specialize (Hsim (size (root ms)) ctx (root ms) (root ms) [[]]
                     (Done ([ms], s)) []).
    unfold Walk in Hl, Hw.
    destruct (walk_loop (walkRow 0%nat None) _ _ _ _ _) as [[rt1 st1]|]; [| done].
    destruct (walk_loop scenarioTree.collect _ _ _ _ _) as [[rt2 l2]|]; [| done].
    cbn in Hl, Hw. injection Hl as _ <-. injection Hw as _ <-.
    apply Hsim; try done.
    intros i j p r Hi Hj Hij. destruct i, j; cbn in *; done. }
  subst st. split.
  - unfold fileStore.iterate. cbn [mbind go_bind].
    unfold fileStore.walkMemStores.
    cbn [length seq foldl mbind go_bind lookup list_lookup].
    rewrite Hw. reflexivity.
  - unfold Walk in Hw.
    destruct (walk_loop (walkRow 0%nat None) (size (root ms)) ctx (root ms) [[]]
                (Done ([ms], s))) as [[rt1 st1]|] eqn:Hloop; [| done].
    cbn in Hw. injection Hw as <- _. cbn [root].
    case_bool_decide as Hctx.
    { destruct (walk_loop_marks _ _ _ _ _ _ _ _ Hloop) as (_ & _ & _ & _ & H0).
      by rewrite (H0 Hctx). }
    apply visible_nil.
    intros q n' Hq Hd.
    apply (walk_loop_drop (walkRow 0%nat None) (fun k d st => eq_refl) ctx Hctx
             _ _ _ _ _ _ Hloop q n' Hq Hd).
    exists []. split; [by left | apply prefix_nil].
Qed.

End OneMemStore.
